(** * SocialOpen: the daily post generator and its novelty guard

    A shallow embedding of [src/app.js] (the generator script: [tokenize],
    [cosineSim], [freq], [ngrams], [jaccard], [ensureNovelty], [stripHtml],
    [deriveTitle], [titleFrom], [deriveHashtags], [toHtml], [escapeHtml],
    [writePost] and the retry loop of [main]) and the properties of it that
    the specification states.

    Representation choices, all taken from the JavaScript the file is written in:
    - a string is the list of its UTF-16 code units;
    - an array is a list, a [Set] is the list of its elements in insertion
      order, without repetition;
    - the object [freq] builds is an association list of its own properties,
      looked up through [Object.prototype] when a property is not its own;
    - a number that holds a count, a size or a sum of products of counts is an
      integer; below 2^53 a double holds it exactly, so it is a [Z] here, and
      it becomes a binary64 [float] where the source takes square roots and
      divides. *)

From Stdlib Require Import Reals Lra.
From Stdlib Require Import List Bool Arith ZArith NArith Lia.
From Stdlib Require Import Ascii String Floats Uint63 Permutation Sorted.
Import ListNotations.

Set Warnings "-inexact-float".
Local Open Scope N_scope.

(* ================================================================= *)
(** ** Strings *)

(** A UTF-16 code unit, and a string. *)
Abbreviation char := N.
Abbreviation str := (list char).

(** An ASCII literal as a JavaScript string. *)
Definition js (s : string) : str := map N_of_ascii (list_ascii_of_string s).

Fixpoint str_eqb (a b : str) : bool :=
  match a, b with
  | [], [] => true
  | x :: a', y :: b' => (x =? y) && str_eqb a' b'
  | _, _ => false
  end.

Definition in_range (lo hi c : char) : bool := (lo <=? c) && (c <=? hi).
Definition is_upper (c : char) : bool := in_range 65 90 c.
Definition is_lower (c : char) : bool := in_range 97 122 c.
Definition is_digit (c : char) : bool := in_range 48 57 c.

(** [\w] of a regular expression without the [u] and [i] flags. *)
Definition is_word (c : char) : bool :=
  is_upper c || is_lower c || is_digit c || (c =? 95).

(** [\s], which is also what [trim] removes: white space and line terminators. *)
Definition is_space (c : char) : bool :=
  in_range 9 13 c || (c =? 32) || (c =? 0xA0) || (c =? 0x1680)
  || in_range 0x2000 0x200A c || (c =? 0x2028) || (c =? 0x2029)
  || (c =? 0x202F) || (c =? 0x205F) || (c =? 0x3000) || (c =? 0xFEFF).

(** [String.prototype.toLowerCase], code unit by code unit.  Besides A-Z,
    two characters have a lower-case form with an ASCII letter in it: the
    Kelvin sign (k) and the dotted capital I (i, then a combining dot).  A
    code unit outside ASCII is otherwise left as it is: its lower-case form
    is outside ASCII too, and [tokenize], the only caller, erases both
    alike. *)
Definition lower_unit (c : char) : list char :=
  if is_upper c then [c + 32]
  else if c =? 0x212A then [107]
  else if c =? 0x130 then [105; 0x307]
  else [c].

Definition toLowerCase (s : str) : str := flat_map lower_unit s.

(** [s.replace(/[class]/g, by)] for a class of single code units. *)
Definition replace_class (p : char -> bool) (by_ : str) (s : str) : str :=
  flat_map (fun c => if p c then by_ else [c]) s.

(** [s.split(/\s+/)]: the pieces between maximal runs of white space; a run
    at either end leaves an empty piece there, and the empty string splits
    into one empty piece.  [sep] says that the scan is inside a run. *)
Fixpoint split_go (sep : bool) (cur : str) (s : str) : list str :=
  match s with
  | [] => [rev cur]
  | c :: r =>
      if is_space c then
        if sep then split_go true cur r else rev cur :: split_go true [] r
      else split_go false (c :: cur) r
  end.

Definition split_ws (s : str) : list str := split_go false [] s.

(** [s.split('\n')]. *)
Fixpoint split_lines_go (cur : str) (s : str) : list str :=
  match s with
  | [] => [rev cur]
  | c :: r =>
      if c =? 10 then rev cur :: split_lines_go [] r
      else split_lines_go (c :: cur) r
  end.

Definition split_lines (s : str) : list str := split_lines_go [] s.

(** [a.join(sep)]. *)
Fixpoint join (sep : str) (l : list str) : str :=
  match l with
  | [] => []
  | [x] => x
  | x :: r => x ++ sep ++ join sep r
  end.

(** [a.slice(i, j)] for [0 <= i <= j]; the end is clamped to the length. *)
Definition slice {A : Type} (l : list A) (i j : nat) : list A :=
  firstn (j - i) (skipn i l).

Fixpoint drop_while (p : char -> bool) (s : str) : str :=
  match s with
  | [] => []
  | c :: r => if p c then drop_while p r else s
  end.

Definition trim (s : str) : str :=
  rev (drop_while is_space (rev (drop_while is_space s))).

(** [new Set(l)], and so [[...new Set(l)]]: the first occurrence of each
    element, in order. *)
Fixpoint Set_add (x : str) (s : list str) : list str :=
  match s with
  | [] => [x]
  | y :: r => if str_eqb x y then s else y :: Set_add x r
  end.

Definition Set_of (l : list str) : list str :=
  fold_left (fun s x => Set_add x s) l [].

Definition Set_has (s : list str) (x : str) : bool := existsb (str_eqb x) s.

(* ================================================================= *)
(** ** Markup stripping and the tokenizer *)

(** The length of what [[^>]+>] matches at the head of [s]: one or more code
    units other than [>], and the [>] that follows them. *)
Fixpoint tag_rest (s : str) : option nat :=
  match s with
  | [] => None
  | c :: r =>
      if c =? 62 then None
      else match r with
           | [] => None
           | d :: _ =>
               if d =? 62 then Some 2%nat
               else option_map S (tag_rest r)
           end
  end.

(** [s.replace(/<[^>]+>/g, ' ')]; [skip] counts the code units of the match
    that is being replaced. *)
Fixpoint stripHtml_go (skip : nat) (s : str) : str :=
  match s with
  | [] => []
  | c :: r =>
      match skip with
      | S k => stripHtml_go k r
      | O =>
          if c =? 60 then
            match tag_rest r with
            | Some k => 32 :: stripHtml_go k r
            | None => c :: stripHtml_go O r
            end
          else c :: stripHtml_go O r
      end
  end.

Definition stripHtml (s : str) : str := stripHtml_go O s.

Definition STOP : list str :=
  map js ["the";"a";"and";"or";"but";"if";"then";"to";"of";"in";"on";"for";
          "at";"is";"are";"be";"as";"it";"that";"this";"with";"by";"an";
          "from";"we";"you";"i"]%string.

(** The class [[#*_`~>]]. *)
Definition is_md_marker (c : char) : bool :=
  (c =? 35) || (c =? 42) || (c =? 95) || (c =? 96) || (c =? 126) || (c =? 62).

(** The class [[^\w\s]]. *)
Definition not_word_or_space (c : char) : bool := negb (is_word c || is_space c).

Definition nonempty (t : str) : bool := match t with [] => false | _ => true end.

Definition tokenize (text : str) : list str :=
  filter (fun t => nonempty t && negb (Set_has STOP t))
    (split_ws
       (replace_class not_word_or_space [32]
          (replace_class is_md_marker [32] (toLowerCase text)))).

(* ================================================================= *)
(** ** Numbers, values and objects *)

(** A number that the similarity code computes before it takes a square root
    or divides: an integer, or NaN. *)
Inductive number := Int (z : Z) | NaN.

(** What a property of a frequency object can hold.  [Other] stands for the
    values that are neither: a function or an object inherited from
    [Object.prototype], and the string that adding 1 to one of them gives
    (["function Object() { [native code] }1"]).  Each of them is truthy and
    converts to NaN. *)
Inductive value := Undefined | Num (x : number) | Other.

Definition add (x y : number) : number :=
  match x, y with
  | Int a, Int b => Int (a + b)
  | _, _ => NaN
  end.

Definition mul (x y : number) : number :=
  match x, y with
  | Int a, Int b => Int (a * b)
  | _, _ => NaN
  end.

Definition ToNumber (v : value) : number :=
  match v with
  | Num x => x
  | Undefined | Other => NaN
  end.

Definition truthy (v : value) : bool :=
  match v with
  | Num (Int z) => negb (z =? 0)%Z
  | Num NaN | Undefined => false
  | Other => true
  end.

(** [v || d] *)
Definition or_ (v d : value) : value := if truthy v then v else d.

(** [v + w]: concatenation as soon as one side is a string, a function or
    an object, the sum of the numbers otherwise. *)
Definition plus (v w : value) : value :=
  match v, w with
  | Other, _ | _, Other => Other
  | _, _ => Num (add (ToNumber v) (ToNumber w))
  end.

(** [v * w] *)
Definition times (v w : value) : number := mul (ToNumber v) (ToNumber w).

(** An object created by [{}]: its own properties, in the order they were
    added. *)
Definition object := list (str * value).

Fixpoint own (o : object) (k : str) : option value :=
  match o with
  | [] => None
  | (k', v) :: r => if str_eqb k k' then Some v else own r k
  end.

(** The function-valued properties of [Object.prototype]. *)
Definition Object_prototype_methods : list str :=
  map js ["constructor"; "__defineGetter__"; "__defineSetter__";
          "hasOwnProperty"; "__lookupGetter__"; "__lookupSetter__";
          "isPrototypeOf"; "propertyIsEnumerable"; "toString"; "valueOf";
          "toLocaleString"]%string.

Definition proto_key : str := js "__proto__".

(** A property name that a fresh object answers through its prototype. *)
Definition inherited (k : str) : bool :=
  Set_has Object_prototype_methods k || str_eqb k proto_key.

(** [o[k]] *)
Definition get (o : object) (k : str) : value :=
  match own o k with
  | Some v => v
  | None => if inherited k then Other else Undefined
  end.

Fixpoint put (o : object) (k : str) (v : value) : object :=
  match o with
  | [] => [(k, v)]
  | (k', v') :: r =>
      if str_eqb k k' then (k', v) :: r else (k', v') :: put r k v
  end.

(** [o[k] = v] for a value [v] that is not an object.  Assigning to
    [__proto__] calls the prototype's setter, which ignores such a value; any
    other name becomes, or stays, an own property. *)
Definition set (o : object) (k : str) (v : value) : object :=
  if str_eqb k proto_key then o else put o k v.

(** The array index that a property name is: a canonical decimal numeral
    ([0], or digits that do not start with [0]) below 2^32 - 1. *)
Fixpoint decimal (acc : N) (s : str) : option N :=
  match s with
  | [] => Some acc
  | c :: r => if is_digit c then decimal (10 * acc + (c - 48)) r else None
  end.

Definition array_index (k : str) : option N :=
  match k with
  | [] => None
  | c :: r =>
      if (c =? 48) && nonempty r then None
      else match decimal 0 k with
           | Some n => if n <? 4294967295 then Some n else None
           | None => None
           end
  end.

Definition is_index (k : str) : bool :=
  match array_index k with Some _ => true | None => false end.

(** The names that are array indices, in ascending order of the index. *)
Fixpoint insert_index (n : N) (k : str) (l : list (N * str)) : list (N * str) :=
  match l with
  | [] => [(n, k)]
  | (n', k') :: r =>
      if n <=? n' then (n, k) :: l else (n', k') :: insert_index n k r
  end.

Definition index_keys (ks : list str) : list str :=
  map snd
    (fold_right
       (fun k acc =>
          match array_index k with
          | Some n => insert_index n k acc
          | None => acc
          end)
       [] ks).

(** [Object.keys(o)]: the own property names that are array indices first,
    in ascending numeric order, then the other names in the order in which
    they were added. *)
Definition keys (o : object) : list str :=
  index_keys (map fst o) ++ filter (fun k => negb (is_index k)) (map fst o).

(* ================================================================= *)
(** ** Similarity measures *)

Local Open Scope float_scope.

(** The double that holds an integer [0 <= z < 2^63] (the nearest one, from
    2^53 on), and NaN. *)
Definition toFloat (x : number) : float :=
  match x with
  | Int z => PrimFloat.of_uint63 (Uint63.of_Z z)
  | NaN => nan
  end.

(** Truthiness of a double: false for [0], [-0] and NaN. *)
Definition float_truthy (f : float) : bool := negb (PrimFloat.is_zero f || PrimFloat.is_nan f).

Definition freq (tokens : list str) : object :=
  fold_left
    (fun f t => set f t (plus (or_ (get f t) (Num (Int 0))) (Num (Int 1))))
    tokens [].

(** The three sums of [cosineSim]'s loop: [dot], [magA] and [magB].  They
    are added as integers: as long as they stay below 2^53 every [+=] of the
    loop is exact in binary64, whatever the order of the terms. *)
Definition cosine_sums (a b : list str) : number * number * number :=
  let A := freq a in
  let B := freq b in
  let terms := Set_of (keys A ++ keys B) in
  fold_left
    (fun '(dot, magA, magB) t =>
       let x := or_ (get A t) (Num (Int 0)) in
       let y := or_ (get B t) (Num (Int 0)) in
       (add dot (times x y), add magA (times x x), add magB (times y y)))
    terms (Int 0, Int 0, Int 0).

Definition cosineSim (a b : list str) : float :=
  let '(dot, magA, magB) := cosine_sums a b in
  let den := PrimFloat.sqrt (toFloat magA) * PrimFloat.sqrt (toFloat magB) in
  toFloat dot / (if float_truthy den then den else 1).

Definition ngrams (tokens : list str) (n : nat) : list str :=
  map (fun i => join [32%N] (slice tokens i (i + n)))
      (seq 0 (List.length tokens + 1 - n)).

(** [s.size] *)
Definition size (s : list str) : Z := Z.of_nat (List.length s).

Definition jaccard (aSet bSet : list str) : float :=
  let inter := Set_of (filter (Set_has bSet) aSet) in
  let uni := Set_of (aSet ++ bSet) in
  toFloat (Int (size inter))
  / toFloat (Int (if (size uni =? 0)%Z then 1%Z else size uni)).

(* ================================================================= *)
(** ** The novelty guard *)

Record verdict := { ok : bool; hint : option str }.

Definition HINT : str :=
  js "Change structure and examples; focus on a different facet (policy, ROI, or onboarding). Avoid repeating phrases.".

(** The test of the loop body of [ensureNovelty] for one reference. *)
Definition too_similar (candTokens candTri : list str) (html : str) : bool :=
  let prev := stripHtml html in
  let prevTokens := tokenize prev in
  let cos := cosineSim candTokens prevTokens in
  let tri := Set_of (ngrams prevTokens 3) in
  let jac := jaccard candTri tri in
  (0.78 <? cos) || (0.32 <? jac).

Fixpoint ensureNovelty_loop (candTokens candTri : list str) (recent : list str)
  : verdict :=
  match recent with
  | [] => {| ok := true; hint := None |}
  | html :: rest =>
      if too_similar candTokens candTri html
      then {| ok := false; hint := Some HINT |}
      else ensureNovelty_loop candTokens candTri rest
  end.

Definition ensureNovelty (candidate : str) (recentHtmlArray : list str) : verdict :=
  let candTokens := tokenize (stripHtml candidate) in
  let candTri := Set_of (ngrams candTokens 3) in
  ensureNovelty_loop candTokens candTri recentHtmlArray.

(* ================================================================= *)
(** ** Titles, hashtags and the rendering of a post *)

Local Open Scope N_scope.

(** The class [[#*-]]. *)
Definition is_title_marker (c : char) : bool :=
  (c =? 35) || (c =? 42) || (c =? 45).

Definition titleFrom (line : str) : str :=
  slice (trim (replace_class is_title_marker [] line)) 0 100.

Definition default_title : str :=
  js "AI " ++ [0x2022] ++ js " UX " ++ [0x2022] ++ js " Daily Insight".

Definition deriveTitle (text : str) : str :=
  match find (fun l => nonempty (trim l)) (split_lines text) with
  | Some firstLine => titleFrom firstLine
  | None => titleFrom default_title
  end.

(** [text.match(/#[A-Za-z0-9_]+/g)], each match without its [#].  [cur]
    holds, reversed, the word characters read since the last [#], when the
    scan is behind one. *)
Fixpoint hashtag_matches (cur : option str) (s : str) : list str :=
  let flush := match cur with
               | Some ((_ :: _) as acc) => [rev acc]
               | _ => []
               end in
  match s with
  | [] => flush
  | c :: r =>
      match cur with
      | Some acc =>
          if is_word c then hashtag_matches (Some (c :: acc)) r
          else flush ++ hashtag_matches (if c =? 35 then Some [] else None) r
      | None => hashtag_matches (if c =? 35 then Some [] else None) r
      end
  end.

Definition base_hashtags : list str :=
  map js ["ArtificialIntelligence"; "UserExperience"; "FutureOfWork"]%string.

Definition deriveHashtags (text : str) : list str :=
  let tags := Set_of (hashtag_matches None text) in
  let tags := fold_left
                (fun tags b => if Set_has tags b then tags else tags ++ [b])
                base_hashtags tags in
  slice tags 0 7.

Definition escape_unit (c : char) : str :=
  if c =? 38 then js "&amp;"
  else if c =? 60 then js "&lt;"
  else if c =? 62 then js "&gt;"
  else if c =? 34 then js "&quot;"
  else [c].

Definition escapeHtml (s : str) : str := flat_map escape_unit s.

(** The test [/^[-*•]/]. *)
Definition is_bullet (l : str) : bool :=
  match l with
  | c :: _ => (c =? 45) || (c =? 42) || (c =? 0x2022)
  | [] => false
  end.

(** [l.replace(/^[-*•]\s?/, '')] on a line that starts with a bullet. *)
Definition strip_bullet (l : str) : str :=
  match l with
  | _ :: c :: r => if is_space c then r else c :: r
  | _ => []
  end.

(** The line [<ul class="bullets">]. *)
Definition ul_open : str := js "<ul class=" ++ [34] ++ js "bullets" ++ [34] ++ js ">".

Fixpoint toHtml_go (inList : bool) (lines : list str) : list str :=
  match lines with
  | [] => if inList then [js "</ul>"] else []
  | l :: rest =>
      if is_bullet l then
        (if inList then [] else [ul_open])
        ++ (js "<li>" ++ escapeHtml (strip_bullet l) ++ js "</li>")
        :: toHtml_go true rest
      else if nonempty l then
        (js "<p>" ++ escapeHtml l ++ js "</p>") :: toHtml_go inList rest
      else
        (if inList then [js "</ul>"] else []) ++ toHtml_go false rest
  end.

Definition toHtml (markdown : str) : str :=
  join [10] (toHtml_go false (map trim (split_lines markdown))).

(* ================================================================= *)
(** ** The feed and the generator's main loop *)

Record post := {
  id : str;
  date : str;
  title : str;
  html : str;
  hashtags : list str;
  sources : list str;
  permalink : str
}.

Section Generator.

(** What the script takes from outside: the hexadecimal SHA-1 digest of
    [node:crypto], the time stamp taken when the script starts, and the
    answers of the language model, [chat n] being the outcome of the
    [n]-th call ([None] when the call throws).  Reading and writing the
    data file and [fetchTrends] are taken to succeed; when one of them
    throws, the script ends as it does when [chat] throws, with an error
    and nothing written. *)
Variable sha1_hex : str -> str.
Variable todayISO : str.
Variable chat : nat -> option str.

Definition new_entry (body title_ : str) (hashtags_ : list str) : post :=
  {| id := slice (sha1_hex (body ++ todayISO)) 0 12;
     date := todayISO;
     title := title_;
     html := toHtml body;
     hashtags := hashtags_;
     sources := [];
     permalink := [] |}.

(** The feed that [writePost] writes to the data file. *)
Definition writePost (posts : list post) (body title_ : str)
    (hashtags_ : list str) : list post :=
  slice (new_entry body title_ hashtags_ :: posts) 0 365.

(** How the [while] loop of [main] ends. *)
Inductive loop_end :=
| Returned (attempts : nat) (alt : str)   (* [return] after [writePost] *)
| Thrown                                  (* [chat] threw *)
| Left (attempts : nat)                   (* the condition became false *)
| OutOfFuel.

Fixpoint retry (fuel : nat) (isUnique : verdict) (refs : list str)
    (attempts : nat) : loop_end :=
  if negb (ok isUnique) && (attempts <? 5)%nat then
    match fuel with
    | O => OutOfFuel
    | S fuel' =>
        match chat attempts with
        | None => Thrown
        | Some alt =>
            if ok (ensureNovelty alt refs) then Returned attempts alt
            else retry fuel' isUnique refs (S attempts)
        end
    end
  else Left attempts.

(** Which candidate the run wrote. *)
Inductive exit :=
| Accepted     (* a candidate passed the guard *)
| Exhausted.   (* none did, in five attempts *)

Inductive result :=
| Written (how : exit) (calls : nat) (body : str) (feed : list post)
| Failed
| Diverged.

Definition main (posts : list post) : result :=
  let last15 := slice posts 0 15 in
  match chat 0 with
  | None => Failed
  | Some generated =>
      let title_ := deriveTitle generated in
      let hashtags_ := deriveHashtags generated in
      let refs := map html last15 in
      let isUnique := ensureNovelty generated refs in
      match retry 4 isUnique refs 1 with
      | Returned attempts alt =>
          Written Accepted (S attempts) alt
            (writePost posts alt (titleFrom alt) (deriveHashtags alt))
      | Thrown => Failed
      | Left attempts =>
          Written (if ok isUnique then Accepted else Exhausted) attempts
            generated (writePost posts generated title_ hashtags_)
      | OutOfFuel => Diverged
      end
  end.

End Generator.

(* ================================================================= *)
(** ** Vocabulary of the statements *)

(** A lower-case letter or a digit. *)
Definition alnum (c : char) : bool := is_lower c || is_digit c.

(** The scores of [ensureNovelty]'s loop body for one reference. *)
Definition cosine_of (candidate reference : str) : float :=
  cosineSim (tokenize (stripHtml candidate)) (tokenize (stripHtml reference)).

Definition jaccard_of (candidate reference : str) : float :=
  jaccard (Set_of (ngrams (tokenize (stripHtml candidate)) 3))
          (Set_of (ngrams (tokenize (stripHtml reference)) 3)).

(** The reference exceeds one of the two thresholds. *)
Definition exceeds (candidate reference : str) : Prop :=
  (0.78 <? cosine_of candidate reference)%float = true
  \/ (0.32 <? jaccard_of candidate reference)%float = true.

Definition rejecting : verdict := {| ok := false; hint := Some HINT |}.
Definition accepting : verdict := {| ok := true; hint := None |}.

(** The hint as the specification words it. *)
Definition spec_hint : str :=
  js "change structure and examples; focus on a different facet; avoid repeating phrases".

(** The number of occurrences of a token. *)
Fixpoint count (t : str) (l : list str) : Z :=
  match l with
  | [] => 0
  | u :: r => (if str_eqb t u then 1 else 0) + count t r
  end%Z.

Fixpoint sumZ (f : str -> Z) (l : list str) : Z :=
  match l with
  | [] => 0
  | t :: r => f t + sumZ f r
  end%Z.

(** No token is the name of a property of [Object.prototype]. *)
Definition clean (tokens : list str) : Prop :=
  forall t, In t tokens -> inherited t = false.

(** The frequency object of a clean token sequence: each distinct token, in
    the order of its first occurrence, with its count. *)
Definition counts (tokens : list str) : object :=
  map (fun t => (t, Num (Int (count t tokens)))) (Set_of tokens).

(** An example run: a feed of one post, and five answers of the model that
    all repeat it. *)
Definition demo_posts : list post :=
  [ {| id := js "0f1e2d3c4b5a";
       date := js "2024-05-01T06:00:00.000Z";
       title := js "Alpha";
       html := js "<p>alpha beta gamma delta</p>";
       hashtags := [js "AI"];
       sources := [];
       permalink := [] |} ].

Definition demo_candidates : list str :=
  map js ["alpha beta gamma delta";
          "Alpha beta, gamma delta.";
          "alpha beta gamma delta epsilon";
          "* alpha beta gamma delta";
          "Alpha! Beta! Gamma! Delta!"]%string.

Definition demo_chat (n : nat) : option str := nth_error demo_candidates n.

(** A stand-in for the digest and for the time stamp. *)
Definition demo_sha1 (s : str) : str := js "da39a3ee5e6b4b0d3255bfef95601890afd80709".
Definition demo_today : str := js "2024-05-02T06:00:00.000Z".


(** The three rewriting steps of [tokenize], before the split. *)
Definition normalize (text : str) : str :=
  replace_class not_word_or_space [32]
    (replace_class is_md_marker [32] (toLowerCase text)).

(** A code unit that [tokenize] turns into white space: white space itself,
    punctuation, a markdown marker, a character outside ASCII. *)
Definition separator (c : char) : bool :=
  match normalize [c] with
  | [d] => is_space d
  | _ => false
  end.

(** A code unit that [escapeHtml] leaves alone. *)
Definition plain (c : char) : bool :=
  negb ((c =? 38) || (c =? 60) || (c =? 62) || (c =? 34)).

(* ================================================================= *)
(** ** The page script

    [computeBasePath] of the page script ([assets/app.js]), as a function
    of [window.location.pathname]. *)

Definition endsWith_slash (p : str) : bool :=
  match rev p with
  | c :: _ => c =? 47
  | [] => false
  end.

(** [p.replace(/[^/]+$/, '')]: without the run of code units other than [/]
    that ends the string. *)
Definition drop_last_segment (p : str) : str :=
  rev (drop_while (fun c => negb (c =? 47)) (rev p)).

Definition computeBasePath (pathname : str) : str :=
  if endsWith_slash pathname then pathname else drop_last_segment pathname.

(* ================================================================= *)
(** ** More vocabulary *)

(** No [<] of the string starts a match of [/<[^>]+>/]. *)
Fixpoint no_tag (s : str) : Prop :=
  match s with
  | [] => True
  | c :: r => (c = 60 -> tag_rest r = None) /\ no_tag r
  end.

Fixpoint starts_with (prefix s : str) : bool :=
  match prefix, s with
  | [], _ => true
  | p :: prefix', c :: s' => (p =? c) && starts_with prefix' s'
  | _ :: _, [] => false
  end.

(** The lines of a rendering open and close their lists in turn, and hold
    list items inside a list only.  [inList] says that a list is open. *)
Fixpoint well_nested (inList : bool) (lines : list str) : bool :=
  match lines with
  | [] => negb inList
  | l :: r =>
      if str_eqb l ul_open then negb inList && well_nested true r
      else if str_eqb l (js "</ul>") then inList && well_nested false r
      else if starts_with (js "<li>") l then inList && well_nested inList r
      else well_nested inList r
  end.

(** A text with a heading, two bullets, a blank line and a paragraph, and a
    one-line bullet. *)
Definition demo_body : str := js "# Ship it
- speed matters
* trust too

Ask users.".

Definition demo_line : str := js "- speed matters most".

(** What a title is: at most 100 code units, none of them a marker
    ([#], [*], [-]), the first one not white space. *)
Definition title_like (t : str) : Prop :=
  (List.length t <= 100)%nat
  /\ Forall (fun c => is_title_marker c = false) t
  /\ match t with c :: _ => is_space c = false | [] => True end.


(** A candidate that repeats no word of the demo feed. *)
Definition demo_fresh : str := js "# Fresh angle
- onboarding matters #UX".

(** The first [k] answers of the model were given and rejected. *)
Definition rejected_before (chat : nat -> option str) (refs : list str)
    (k : nat) : Prop :=
  forall i, (i < k)%nat ->
    exists c, chat i = Some c /\ ok (ensureNovelty c refs) = false.

(** A run whose first answer repeats the demo feed and whose second one
    does not, and a run whose second call fails. *)
Definition demo_chat_retry (n : nat) : option str :=
  nth_error [js "alpha beta gamma delta"; demo_fresh] n.

Definition demo_chat_error (n : nat) : option str :=
  nth_error [js "alpha beta gamma delta"] n.

(** The real number that a double holds (0 for what is not a finite
    number). *)
Definition SF2R (x : spec_float) : R :=
  match x with
  | S754_finite s m e => IZR (if s then Zneg m else Zpos m) * powerRZ 2 e
  | _ => 0
  end%R.

(** Two property names that are array indices, in the order of the
    indices. *)
Definition index_le (k k' : str) : Prop :=
  match array_index k, array_index k' with
  | Some n, Some n' => n <= n'
  | _, _ => False
  end.

(* ================================================================= *)
(** * Properties *)

(** ** Strings and sets *)

Lemma str_eqb_eq (a b : str) : str_eqb a b = true <-> a = b.
Proof.
  revert b; induction a as [|x a IH]; intros [|y b]; simpl; split; try easy.
  - intros H. apply andb_true_iff in H as [Hx Hab].
    apply N.eqb_eq in Hx. apply IH in Hab. now subst.
  - intros H. injection H as -> ->. rewrite N.eqb_refl. now apply IH.
Qed.

Lemma str_eqb_refl (a : str) : str_eqb a a = true.
Proof. now apply str_eqb_eq. Qed.

Lemma str_eqb_neq (a b : str) : str_eqb a b = false <-> a <> b.
Proof.
  rewrite <- not_true_iff_false. now rewrite str_eqb_eq.
Qed.

Lemma str_eqb_sym (a b : str) : str_eqb a b = str_eqb b a.
Proof.
  destruct (str_eqb b a) eqn:E.
  - apply str_eqb_eq in E. subst. apply str_eqb_refl.
  - apply str_eqb_neq in E. apply str_eqb_neq. congruence.
Qed.

Lemma Set_has_In (s : list str) (x : str) : Set_has s x = true <-> In x s.
Proof.
  unfold Set_has. rewrite existsb_exists. split.
  - intros [y [Hy E]]. apply str_eqb_eq in E. now subst.
  - intros H. exists x. split; [assumption | apply str_eqb_refl].
Qed.

Lemma Set_has_not_In (s : list str) (x : str) : Set_has s x = false <-> ~ In x s.
Proof. rewrite <- not_true_iff_false. now rewrite Set_has_In. Qed.

Lemma Set_add_In (x y : str) (s : list str) :
  In y (Set_add x s) <-> y = x \/ In y s.
Proof.
  induction s as [|z s IH]; simpl.
  - intuition.
  - destruct (str_eqb x z) eqn:E; simpl.
    + apply str_eqb_eq in E. subst. intuition.
    + rewrite IH. intuition.
Qed.

Lemma Set_add_old (x : str) (s : list str) : In x s -> Set_add x s = s.
Proof.
  induction s as [|z s IH]; simpl; [easy|].
  intros [-> | H].
  - now rewrite str_eqb_refl.
  - destruct (str_eqb x z); [reflexivity | now rewrite IH].
Qed.

Lemma Set_add_new (x : str) (s : list str) : ~ In x s -> Set_add x s = s ++ [x].
Proof.
  induction s as [|z s IH]; simpl; [easy|].
  intros H. destruct (str_eqb x z) eqn:E.
  - apply str_eqb_eq in E. subst. exfalso. apply H. now left.
  - rewrite IH; [reflexivity | intuition].
Qed.

Lemma Set_add_NoDup (x : str) (s : list str) : NoDup s -> NoDup (Set_add x s).
Proof.
  intros H. destruct (in_dec (list_eq_dec N.eq_dec) x s) as [Hin | Hout].
  - now rewrite Set_add_old.
  - rewrite Set_add_new by assumption.
    apply NoDup_app; [assumption | repeat constructor; easy |].
    intros y Hy [<- | []]. contradiction.
Qed.

Lemma Set_add_length (x : str) (s : list str) :
  (List.length (Set_add x s) <= S (List.length s))%nat.
Proof.
  induction s as [|z s IH]; simpl; [lia|].
  destruct (str_eqb x z); simpl; lia.
Qed.

Section SetFrom.
Local Abbreviation add_to := (fun (s : list str) (x : str) => Set_add x s).

Lemma Set_from_In (l acc : list str) (y : str) :
  In y (fold_left add_to l acc) <-> In y acc \/ In y l.
Proof.
  revert acc; induction l as [|x l IH]; intros acc; simpl.
  - intuition.
  - rewrite IH. rewrite Set_add_In. intuition.
Qed.

Lemma Set_from_NoDup (l acc : list str) :
  NoDup acc -> NoDup (fold_left add_to l acc).
Proof.
  revert acc; induction l as [|x l IH]; intros acc H; simpl; [assumption|].
  apply IH. now apply Set_add_NoDup.
Qed.

Lemma Set_from_length (l acc : list str) :
  (List.length (fold_left add_to l acc) <= List.length acc + List.length l)%nat.
Proof.
  revert acc; induction l as [|x l IH]; intros acc; simpl; [lia|].
  specialize (IH (Set_add x acc)).
  pose proof (Set_add_length x acc). lia.
Qed.

Lemma Set_from_known (l acc : list str) :
  incl l acc -> fold_left add_to l acc = acc.
Proof.
  revert acc; induction l as [|x l IH]; intros acc H; simpl; [reflexivity|].
  rewrite Set_add_old by (apply H; now left).
  apply IH. intros y Hy. apply H. now right.
Qed.

Lemma Set_from_fresh (l acc : list str) :
  NoDup (acc ++ l) -> fold_left add_to l acc = acc ++ l.
Proof.
  revert acc; induction l as [|x l IH]; intros acc H; simpl.
  - now rewrite app_nil_r.
  - rewrite Set_add_new.
    + rewrite IH; rewrite <- app_assoc; [reflexivity | exact H].
    + apply NoDup_remove_2 in H. intros Hin. apply H.
      apply in_or_app. now left.
Qed.
End SetFrom.

Lemma Set_of_In (l : list str) (y : str) : In y (Set_of l) <-> In y l.
Proof. unfold Set_of. rewrite Set_from_In. simpl. intuition. Qed.

Lemma Set_of_NoDup (l : list str) : NoDup (Set_of l).
Proof. apply Set_from_NoDup. constructor. Qed.

Lemma Set_of_length (l : list str) : (List.length (Set_of l) <= List.length l)%nat.
Proof. unfold Set_of. pose proof (Set_from_length l []). simpl in *. lia. Qed.

Lemma Set_of_NoDup_id (l : list str) : NoDup l -> Set_of l = l.
Proof. intros H. unfold Set_of. now rewrite Set_from_fresh. Qed.

Lemma Set_of_twice (l : list str) : NoDup l -> Set_of (l ++ l) = l.
Proof.
  intros H. unfold Set_of. rewrite fold_left_app.
  fold (Set_of l). rewrite (Set_of_NoDup_id l H).
  apply Set_from_known. apply incl_refl.
Qed.

Lemma Set_of_nil_inv (l : list str) : Set_of l = [] -> l = [].
Proof.
  destruct l as [|x l]; [reflexivity|]. intros H.
  assert (Hin : In x (Set_of (x :: l))) by (apply Set_of_In; now left).
  rewrite H in Hin. destruct Hin.
Qed.

Lemma filter_all {A : Type} (p : A -> bool) (l : list A) :
  (forall x, In x l -> p x = true) -> filter p l = l.
Proof.
  induction l as [|x l IH]; simpl; intros H; [reflexivity|].
  rewrite H by now left. f_equal. apply IH. intros y Hy. apply H. now right.
Qed.

(* ================================================================= *)
(** ** The tokenizer *)

(** Turns the comparisons of a goal about one code unit into arithmetic. *)
Ltac char_cases :=
  unfold alnum, is_word, is_upper, is_lower, is_digit, is_md_marker, in_range in *;
  repeat match goal with
         | |- context [(?a <=? ?b)%N] => destruct (N.leb_spec a b)
         | |- context [(?a =? ?b)%N] => destruct (N.eqb_spec a b)
         | H : context [(?a <=? ?b)%N] |- _ => destruct (N.leb_spec a b)
         | H : context [(?a =? ?b)%N] |- _ => destruct (N.eqb_spec a b)
         end;
  simpl in *; try reflexivity; try discriminate; try lia.

Lemma lower_unit_no_upper (c : char) :
  Forall (fun d => is_upper d = false) (lower_unit c).
Proof.
  unfold lower_unit.
  destruct (is_upper c) eqn:U.
  - constructor; [|constructor]. char_cases.
  - destruct (c =? 0x212A); [repeat constructor|].
    destruct (c =? 0x130); repeat constructor. exact U.
Qed.

Lemma toLowerCase_no_upper (s : str) :
  Forall (fun d => is_upper d = false) (toLowerCase s).
Proof.
  apply Forall_flat_map. apply Forall_forall. intros c _.
  apply lower_unit_no_upper.
Qed.

Lemma replace_class_Forall (P Q : char -> Prop) (p : char -> bool) (by_ s : str) :
  Forall Q by_ ->
  (forall c, P c -> p c = false -> Q c) ->
  Forall P s -> Forall Q (replace_class p by_ s).
Proof.
  intros Hby Hkeep Hs. apply Forall_flat_map.
  apply Forall_forall. intros c Hc.
  rewrite Forall_forall in Hs.
  destruct (p c) eqn:E; [assumption|].
  constructor; [|constructor]. apply Hkeep; auto.
Qed.

(** After the three rewriting steps of [tokenize] only lower-case letters,
    digits and white space are left. *)
Lemma normalized_chars (text : str) :
  Forall (fun c => alnum c = true \/ is_space c = true)
    (replace_class not_word_or_space [32]
       (replace_class is_md_marker [32] (toLowerCase text))).
Proof.
  apply replace_class_Forall
    with (P := fun c => is_upper c = false /\ (c =? 95) = false).
  - constructor; [now right | constructor].
  - intros c [U L] W. unfold not_word_or_space in W.
    apply negb_false_iff, orb_true_iff in W as [W | W]; [left | now right].
    unfold is_word in W. rewrite U, L in W. simpl in W.
    now rewrite orb_false_r in W.
  - apply replace_class_Forall with (P := fun c => is_upper c = false).
    + repeat constructor.
    + intros c U M. split; [exact U|]. char_cases.
    + apply toLowerCase_no_upper.
Qed.

Lemma split_go_pieces (s : str) : forall sep cur,
  Forall (fun c => alnum c = true \/ is_space c = true) s ->
  Forall (fun c => alnum c = true) cur ->
  Forall (Forall (fun c => alnum c = true)) (split_go sep cur s).
Proof.
  induction s as [|c r IH]; intros sep cur Hs Hcur; simpl.
  - constructor; [|constructor]. now apply Forall_rev.
  - inversion Hs as [|? ? Hc Hr]; subst.
    destruct (is_space c) eqn:Sp.
    + destruct sep.
      * now apply IH.
      * constructor; [now apply Forall_rev | apply IH; auto].
    + apply IH; [assumption|]. constructor; [|assumption].
      destruct Hc as [Hc | Hc]; [assumption | congruence].
Qed.

Lemma tokenize_token (text t : str) :
  In t (tokenize text) ->
  t <> [] /\ ~ In t STOP /\ Forall (fun c => alnum c = true) t.
Proof.
  unfold tokenize. intros H. apply filter_In in H as [Hin Hf].
  apply andb_true_iff in Hf as [Hne Hstop].
  repeat split.
  - intros ->. discriminate.
  - apply Set_has_not_In. now apply negb_true_iff.
  - pose proof (split_go_pieces _ false [] (normalized_chars text) (Forall_nil _)) as Hall.
    rewrite Forall_forall in Hall. now apply Hall.
Qed.

(** C9.  [tokenize] is a total function of its input (it returns a sequence,
    possibly empty, and the same one at every call), and every token it
    returns is non-empty, is not a stop word, and consists of lower-case
    letters and digits only: no punctuation, no white space, no underscore. *)
Theorem tokenize_total_and_normalized (text : str) :
  exists tokens,
    tokenize text = tokens
    /\ (forall tokens', tokenize text = tokens' -> tokens' = tokens)
    /\ Forall (fun t => t <> []
                        /\ ~ In t STOP
                        /\ Forall (fun c => alnum c = true) t) tokens
    /\ tokenize [] = [].
Proof.
  exists (tokenize text). repeat split.
  - intros tokens' H. now symmetry.
  - apply Forall_forall. intros t Ht.
    destruct (tokenize_token text t Ht) as (H1 & H2 & H3). auto.
Qed.

(* ================================================================= *)
(** ** N-grams *)

Lemma firstn3_skipn {A : Type} (d : A) (l : list A) : forall i,
  (i + 2 < List.length l)%nat ->
  firstn 3 (skipn i l) = [nth i l d; nth (i + 1) l d; nth (i + 2) l d].
Proof.
  induction l as [|a l IH]; intros i H; simpl in H; [lia|].
  destruct i as [|i].
  - destruct l as [|b [|c r]]; simpl in *; try lia. reflexivity.
  - simpl. apply IH. lia.
Qed.

Lemma ngrams_3_entries (tokens : list str) :
  ngrams tokens 3 =
  map (fun i => nth i tokens [] ++ [32] ++ nth (i + 1) tokens [] ++ [32]
                ++ nth (i + 2) tokens [])
      (seq 0 (List.length tokens - 2)).
Proof.
  unfold ngrams.
  replace (List.length tokens + 1 - 3)%nat with (List.length tokens - 2)%nat by lia.
  apply map_ext_in. intros i Hi. apply in_seq in Hi.
  unfold slice. replace (i + 3 - i)%nat with 3%nat by lia.
  rewrite (firstn3_skipn ([] : str)) by lia. reflexivity.
Qed.

(** C8.  [ngrams(tokens, 3)] has [max(0, L-2)] entries for [L] tokens (the
    subtraction of natural numbers stops at 0), its [i]-th entry is the
    tokens [i], [i+1] and [i+2] joined by single spaces, and the set built
    from it has at most as many elements, and can have fewer. *)
Theorem ngrams_3_count_and_entries (tokens : list str) :
  List.length (ngrams tokens 3) = (List.length tokens - 2)%nat
  /\ ngrams tokens 3 =
     map (fun i => nth i tokens [] ++ [32] ++ nth (i + 1) tokens [] ++ [32]
                   ++ nth (i + 2) tokens [])
         (seq 0 (List.length tokens - 2))
  /\ (List.length (Set_of (ngrams tokens 3)) <= List.length tokens - 2)%nat
  /\ (List.length (Set_of (ngrams (map js ["x"; "x"; "x"; "x"]%string) 3)) < 4 - 2)%nat.
Proof.
  assert (L : List.length (ngrams tokens 3) = (List.length tokens - 2)%nat).
  { rewrite ngrams_3_entries, length_map, length_seq. reflexivity. }
  repeat split.
  - exact L.
  - apply ngrams_3_entries.
  - rewrite <- L. apply Set_of_length.
  - vm_compute. lia.
Qed.

(* ================================================================= *)
(** ** The feed *)

(** C10.  [writePost] writes the new entry followed by the previous posts,
    in their order and unchanged, cut after 365 entries in all. *)
Theorem writePost_feed (sha1_hex : str -> str) (todayISO : str)
    (posts : list post) (body title_ : str) (hashtags_ : list str) :
  writePost sha1_hex todayISO posts body title_ hashtags_
  = new_entry sha1_hex todayISO body title_ hashtags_ :: firstn 364 posts
  /\ List.length (writePost sha1_hex todayISO posts body title_ hashtags_)
     = Nat.min 365 (S (List.length posts))
  /\ (List.length (writePost sha1_hex todayISO posts body title_ hashtags_) <= 365)%nat.
Proof.
  assert (E : writePost sha1_hex todayISO posts body title_ hashtags_
              = new_entry sha1_hex todayISO body title_ hashtags_ :: firstn 364 posts).
  { unfold writePost, slice. rewrite Nat.sub_0_r. reflexivity. }
  rewrite E. cbn [List.length]. rewrite length_firstn.
  repeat split; lia.
Qed.

(* ================================================================= *)
(** ** The novelty guard *)

Lemma too_similar_exceeds (candidate reference : str) :
  too_similar (tokenize (stripHtml candidate))
              (Set_of (ngrams (tokenize (stripHtml candidate)) 3)) reference = true
  <-> exceeds candidate reference.
Proof.
  unfold too_similar, exceeds, cosine_of, jaccard_of. apply orb_true_iff.
Qed.

Lemma ensureNovelty_loop_existsb (ct tri : list str) (refs : list str) :
  ensureNovelty_loop ct tri refs
  = if existsb (too_similar ct tri) refs then rejecting else accepting.
Proof.
  induction refs as [|r refs IH]; simpl; [reflexivity|].
  destruct (too_similar ct tri r); [reflexivity | exact IH].
Qed.

Lemma ensureNovelty_rejects_iff (candidate : str) (refs : list str) :
  ok (ensureNovelty candidate refs) = false
  <-> exists r, In r refs /\ exceeds candidate r.
Proof.
  unfold ensureNovelty. rewrite ensureNovelty_loop_existsb.
  destruct (existsb _ refs) eqn:E; simpl; split; try easy.
  - intros _. apply existsb_exists in E as [r [Hr Hs]].
    exists r. split; [assumption | now apply too_similar_exceeds].
  - intros [r [Hr Hs]]. apply too_similar_exceeds in Hs.
    assert (existsb (too_similar (tokenize (stripHtml candidate))
                       (Set_of (ngrams (tokenize (stripHtml candidate)) 3))) refs = true)
      by (apply existsb_exists; eauto).
    congruence.
Qed.

Lemma ensureNovelty_rejecting (candidate : str) (refs : list str) :
  (exists r, In r refs /\ exceeds candidate r) ->
  ensureNovelty candidate refs = rejecting.
Proof.
  intros H. apply ensureNovelty_rejects_iff in H.
  unfold ensureNovelty in *. rewrite ensureNovelty_loop_existsb in *.
  destruct (existsb _ refs); [reflexivity | discriminate].
Qed.

(** C1, with the hint the code returns.  The guard rejects exactly when some
    reference has a cosine similarity above 0.78 or a trigram Jaccard
    similarity above 0.32 with the candidate; a rejecting verdict carries
    the fixed hint [HINT], an accepting one none; and the verdict is decided
    at the first reference that exceeds a threshold, whatever follows it in
    the list. *)
Theorem ensureNovelty_verdict (candidate : str) (refs : list str) :
  (ok (ensureNovelty candidate refs) = false
   <-> exists r, In r refs /\ exceeds candidate r)
  /\ (ok (ensureNovelty candidate refs) = false ->
      ensureNovelty candidate refs = {| ok := false; hint := Some HINT |})
  /\ (ok (ensureNovelty candidate refs) = true ->
      ensureNovelty candidate refs = {| ok := true; hint := None |})
  /\ (forall before r after,
         refs = before ++ r :: after -> exceeds candidate r ->
         ensureNovelty candidate refs = ensureNovelty candidate (before ++ [r])
         /\ ensureNovelty candidate refs = {| ok := false; hint := Some HINT |}).
Proof.
  split; [apply ensureNovelty_rejects_iff|].
  split; [|split].
  - unfold ensureNovelty. rewrite ensureNovelty_loop_existsb.
    destruct (existsb _ refs); [reflexivity | discriminate].
  - unfold ensureNovelty. rewrite ensureNovelty_loop_existsb.
    destruct (existsb _ refs); [discriminate | reflexivity].
  - intros before r after -> Hr.
    rewrite !ensureNovelty_rejecting; [split; reflexivity | |];
      exists r; (split; [apply in_or_app; right; now left | assumption]).
Qed.

(** C6.  The verdict, hint included, does not depend on the order of the
    references. *)
Theorem ensureNovelty_permutation (candidate : str) (refs refs' : list str) :
  Permutation refs refs' ->
  ensureNovelty candidate refs = ensureNovelty candidate refs'.
Proof.
  intros P. unfold ensureNovelty. rewrite !ensureNovelty_loop_existsb.
  set (f := too_similar _ _).
  assert (E : existsb f refs = existsb f refs').
  { apply eq_true_iff_eq. rewrite !existsb_exists.
    split; intros [r [Hr Hf]]; exists r; split; try assumption.
    - eapply Permutation_in; eassumption.
    - eapply Permutation_in; [apply Permutation_sym|]; eassumption. }
  now rewrite E.
Qed.

(* ================================================================= *)
(** ** Binary64 arithmetic

    The facts about doubles that the guard relies on, from the
    specification of the primitive operations. *)

Lemma float_truthy_zero_or_nan (x : float) :
  (exists s, Prim2SF x = S754_zero s) \/ Prim2SF x = S754_nan ->
  float_truthy x = false.
Proof.
  unfold float_truthy, PrimFloat.is_zero, PrimFloat.is_nan.
  rewrite !FloatAxioms.eqb_spec.
  change (Prim2SF 0%float) with (S754_zero false).
  intros [[s ->] | ->]; reflexivity.
Qed.

(** [0 * y] is [0], [-0] or NaN, whatever [y] is. *)
Lemma float_mul_zero_l_falsy (x y : float) :
  Prim2SF x = S754_zero false -> float_truthy (x * y)%float = false.
Proof.
  intros Hx. apply float_truthy_zero_or_nan.
  rewrite FloatAxioms.mul_spec, Hx. unfold SF64mul.
  destruct (Prim2SF y); simpl; eauto.
Qed.

Lemma float_mul_zero_r_falsy (x y : float) :
  Prim2SF y = S754_zero false -> float_truthy (x * y)%float = false.
Proof.
  intros Hy. apply float_truthy_zero_or_nan.
  rewrite FloatAxioms.mul_spec, Hy. unfold SF64mul.
  destruct (Prim2SF x); simpl; eauto.
Qed.

Lemma new_location_zero (m : positive) : new_location (Zpos m) 0 = loc_Exact.
Proof.
  unfold new_location. destruct (Z.even (Zpos m)); reflexivity.
Qed.

(** The quotient of a finite non-zero double by itself is exactly 1. *)
Lemma SFdiv_self (s : bool) (m : positive) (e : Z) :
  SF64div (S754_finite s m e) (S754_finite s m e)
  = S754_finite false 4503599627370496 (-52).
Proof.
  unfold SF64div, SFdiv, SFdiv_core_binary.
  replace (Zdigits2 (Z.pos m) + e - (Zdigits2 (Z.pos m) + e))%Z with 0%Z by lia.
  replace (e - e)%Z with 0%Z by lia.
  change (Z.min (fexp prec emax 0) 0) with (-53)%Z.
  change (0 - -53)%Z with 53%Z. cbv iota beta.
  assert (E : Z.div_eucl (Z.shiftl (Z.pos m) 53) (Z.pos m)
              = (9007199254740992, 0)%Z).
  { rewrite Z.shiftl_mul_pow2 by lia.
    pose proof (Z.div_eucl_eq (Z.pos m * 2 ^ 53) (Z.pos m) ltac:(lia)) as H.
    pose proof (Z.mod_pos_bound (Z.pos m * 2 ^ 53) (Z.pos m) ltac:(lia)) as B.
    unfold Z.modulo in B.
    destruct (Z.div_eucl (Z.pos m * 2 ^ 53) (Z.pos m)) as [q r].
    assert (q = 2 ^ 53)%Z by nia. assert (r = 0)%Z by nia.
    subst. reflexivity. }
  rewrite E, new_location_zero. destruct s; reflexivity.
Qed.

Lemma float_div_self (x : float) (s : bool) (m : positive) (e : Z) :
  Prim2SF x = S754_finite s m e -> (x / x)%float = 1%float.
Proof.
  intros H. apply Prim2SF_inj.
  rewrite FloatAxioms.div_spec, H, SFdiv_self. reflexivity.
Qed.

Lemma digits2_pos_size (p : positive) : digits2_pos p = Pos.size p.
Proof. induction p; simpl; congruence. Qed.

Lemma digits2_pos_le (p k : positive) :
  (Zpos p < 2 ^ Zpos k)%Z -> (Zpos (digits2_pos p) <= Zpos k)%Z.
Proof.
  rewrite digits2_pos_size. intros H.
  pose proof (Pos.size_le p) as L.
  destruct (Z.le_gt_cases (Zpos (Pos.size p)) (Zpos k)) as [|G]; [assumption|].
  exfalso.
  assert (2 ^ Zpos k * 2 <= 2 ^ Zpos (Pos.size p))%Z.
  { replace (2 ^ Z.pos k * 2)%Z with (2 ^ (Z.pos k + 1))%Z
      by (rewrite Z.pow_add_r; lia).
    apply Z.pow_le_mono_r; lia. }
  assert (2 ^ Zpos (Pos.size p) <= Zpos p~0)%Z.
  { rewrite <- Pos2Z.inj_pow. apply Pos2Z.pos_le_pos. exact L. }
  lia.
Qed.

Lemma digits2_pos_iter (k p : positive) :
  digits2_pos (Pos.iter xO p k) = (digits2_pos p + k)%positive.
Proof.
  induction k using Pos.peano_ind.
  - simpl. lia.
  - rewrite Pos.iter_succ. simpl. rewrite IHk. lia.
Qed.

(** Rounding leaves a mantissa that is already in canonical form alone. *)
Lemma binary_round_aux_canonical (s : bool) (m : positive) (e : Z) :
  canonical_mantissa prec emax m e = true -> (e <= emax - prec)%Z ->
  binary_round_aux prec emax s (Zpos m) e loc_Exact = S754_finite s m e.
Proof.
  unfold canonical_mantissa. intros C B. apply Z.eqb_eq in C.
  unfold binary_round_aux, shr_fexp.
  cbv beta iota delta [Zdigits2]. rewrite C.
  replace (IntDef.Z.sub e e) with 0%Z by lia.
  cbv beta iota delta [shr shr_record_of_loc round_nearest_even shr_m
                       loc_of_shr_record Zdigits2].
  rewrite C. replace (IntDef.Z.sub e e) with 0%Z by lia. cbv beta iota.
  apply Z.leb_le in B. now rewrite B.
Qed.

(** *** Quotients of integers *)

Lemma digits2_pos_exact (p k : positive) :
  (2 ^ (Zpos k - 1) <= Zpos p < 2 ^ Zpos k)%Z -> digits2_pos p = k.
Proof.
  intros [Lo Hi]. rewrite digits2_pos_size.
  pose proof (Pos.size_gt p) as G. pose proof (Pos.size_le p) as L.
  apply Pos2Z.pos_lt_pos in G. apply Pos2Z.pos_le_pos in L.
  rewrite Pos2Z.inj_pow in G, L. change (Z.pos p~0) with (2 * Z.pos p)%Z in L.
  destruct (Z.lt_trichotomy (Zpos (Pos.size p)) (Zpos k)) as [C | [C | C]].
  - exfalso.
    assert (2 ^ Zpos (Pos.size p) <= 2 ^ (Zpos k - 1))%Z
      by (apply Z.pow_le_mono_r; lia).
    lia.
  - now injection C.
  - exfalso.
    assert (2 ^ (Zpos k + 1) <= 2 ^ Zpos (Pos.size p))%Z
      by (apply Z.pow_le_mono_r; lia).
    rewrite Z.pow_add_r in * by lia. lia.
Qed.

Lemma digits2_pos_range (p : positive) :
  (2 ^ (Zpos (digits2_pos p) - 1) <= Zpos p < 2 ^ Zpos (digits2_pos p))%Z.
Proof.
  rewrite digits2_pos_size.
  pose proof (Pos.size_gt p) as G. pose proof (Pos.size_le p) as L.
  apply Pos2Z.pos_lt_pos in G. apply Pos2Z.pos_le_pos in L.
  rewrite Pos2Z.inj_pow in G, L. change (Z.pos p~0) with (2 * Z.pos p)%Z in L.
  split; [|assumption].
  replace (Zpos (Pos.size p)) with (Zpos (Pos.size p) - 1 + 1)%Z in L by lia.
  rewrite Z.pow_add_r in L by lia. lia.
Qed.

Lemma pos_iter_xO (d p : positive) :
  Zpos (Pos.iter xO p d) = (Zpos p * 2 ^ Zpos d)%Z.
Proof.
  induction d using Pos.peano_ind.
  - simpl. lia.
  - rewrite Pos.iter_succ, Pos2Z.inj_succ, Z.pow_succ_r by lia.
    change (Zpos (Pos.iter xO p d)~0) with (2 * Zpos (Pos.iter xO p d))%Z.
    rewrite IHd. lia.
Qed.

(** The double of a positive integer below 2^53: a mantissa of 53 bits and
    the exponent that makes it the same number. *)
Lemma toFloat_normal (z : Z) :
  (0 < z < 2 ^ 53)%Z ->
  exists m e,
    Prim2SF (toFloat (Int z)) = S754_finite false m e
    /\ digits2_pos m = 53%positive
    /\ (-52 <= e <= 0)%Z
    /\ (Zpos m * 2 ^ (52 + e) = z * 2 ^ 52)%Z.
Proof.
  intros H. unfold toFloat. rewrite of_uint63_spec, of_Z_spec.
  rewrite Z.mod_small by (unfold wB; simpl; lia).
  destruct z as [|p|p]; try lia. simpl binary_normalize.
  pose proof (digits2_pos_le p 53 ltac:(lia)) as D.
  unfold binary_round, shl_align. rewrite Z.add_0_r, Z.sub_0_r.
  assert (F : fexp prec emax (Zpos (digits2_pos p))
              = (Zpos (digits2_pos p) - 53)%Z).
  { unfold fexp, SpecFloat.emin, prec, emax. lia. }
  rewrite F.
  pose proof (digits2_pos_range p) as R.
  destruct (Zpos (digits2_pos p) - 53)%Z as [|d|d] eqn:E; try lia.
  - assert (D53 : digits2_pos p = 53%positive) by lia.
    exists p, 0%Z. split; [|split; [assumption | split; [lia | simpl; lia]]].
    apply binary_round_aux_canonical.
    + unfold canonical_mantissa. rewrite Z.add_0_r, F. reflexivity.
    + unfold prec, emax. lia.
  - exists (Pos.iter xO p d), (Z.neg d).
    assert (Dd : (digits2_pos p + d = 53)%positive) by lia.
    split; [|split; [|split]].
    + apply binary_round_aux_canonical.
      * unfold canonical_mantissa. rewrite digits2_pos_iter.
        apply Z.eqb_eq. unfold fexp, SpecFloat.emin, prec, emax. lia.
      * unfold prec, emax. lia.
    + now rewrite digits2_pos_iter.
    + lia.
    + rewrite pos_iter_xO.
      replace 52%Z with (52 + Z.neg d + Zpos d)%Z at 2 by lia.
      rewrite (Z.pow_add_r 2 (52 + Z.neg d) (Zpos d)) by lia. lia.
Qed.

Lemma toFloat_div_self (z : Z) :
  (0 < z < 2 ^ 53)%Z -> (toFloat (Int z) / toFloat (Int z))%float = 1%float.
Proof.
  intros H. destruct (toFloat_normal z H) as (m & e & E & _).
  exact (float_div_self _ _ _ _ E).
Qed.

Lemma shr_record_of_loc_m (m : Z) (l : location) :
  shr_m (shr_record_of_loc m l) = m.
Proof. destruct l as [|[]]; reflexivity. Qed.


Lemma round_nearest_even_cases (m : Z) (l : location) :
  round_nearest_even m l = m \/ round_nearest_even m l = (m + 1)%Z.
Proof.
  unfold round_nearest_even. destruct l as [|[]]; auto.
  destruct (Z.even m); auto.
Qed.







(** *** Signs *)

Lemma shr_1_nonneg (mrs : shr_record) :
  (0 <= shr_m mrs)%Z -> (0 <= shr_m (shr_1 mrs))%Z.
Proof.
  destruct mrs as [m r s]. destruct m as [|[p|p|]|[p|p|]]; simpl; lia.
Qed.

Lemma iter_pos_shr_1_nonneg (p : positive) : forall mrs,
  (0 <= shr_m mrs)%Z -> (0 <= shr_m (iter_pos shr_1 p mrs))%Z.
Proof.
  induction p as [p IH|p IH|]; intros mrs H; simpl.
  - apply IH, IH, shr_1_nonneg, H.
  - apply IH, IH, H.
  - apply shr_1_nonneg, H.
Qed.










(* ================================================================= *)
(** ** Rounding, with values *)

Lemma fexp_max (t : Z) : fexp prec emax t = Z.max (t - 53) (-1074).
Proof. reflexivity. Qed.

Lemma shr_1_m (mrs : shr_record) :
  (0 <= shr_m mrs)%Z -> shr_m (shr_1 mrs) = (shr_m mrs / 2)%Z.
Proof.
  destruct mrs as [m r s]. cbn [shr_m]. intros H.
  destruct m as [|[p|p|]|p]; try lia; cbn [shr_1 shr_m].
  - reflexivity.
  - apply (Z.div_unique _ 2 _ 1); lia.
  - apply (Z.div_unique _ 2 _ 0); lia.
  - reflexivity.
Qed.

Lemma pow2_xI (n : positive) : (2 ^ Zpos n~1 = 2 * 2 ^ Zpos n * 2 ^ Zpos n)%Z.
Proof.
  assert (E : (Zpos n~1 = 1 + Z.pos n + Z.pos n)%Z) by lia.
  rewrite E. now rewrite !Z.pow_add_r by lia.
Qed.

Lemma pow2_xO (n : positive) : (2 ^ Zpos n~0 = 2 ^ Zpos n * 2 ^ Zpos n)%Z.
Proof.
  assert (E : (Zpos n~0 = Z.pos n + Z.pos n)%Z) by lia.
  rewrite E. now rewrite !Z.pow_add_r by lia.
Qed.

Lemma iter_pos_shr_1_m (n : positive) : forall mrs,
  (0 <= shr_m mrs)%Z ->
  shr_m (iter_pos shr_1 n mrs) = (shr_m mrs / 2 ^ Zpos n)%Z.
Proof.
  induction n as [n IH|n IH|]; intros mrs H; cbn [iter_pos].
  - assert (Pn : (0 < 2 ^ Zpos n)%Z) by (apply Z.pow_pos_nonneg; lia).
    pose proof (shr_1_nonneg mrs H) as H1.
    pose proof (iter_pos_shr_1_nonneg n _ H1) as H2.
    rewrite (IH _ H2), (IH _ H1), (shr_1_m _ H).
    rewrite !Z.div_div by lia. rewrite pow2_xI. f_equal. ring.
  - assert (Pn : (0 < 2 ^ Zpos n)%Z) by (apply Z.pow_pos_nonneg; lia).
    pose proof (iter_pos_shr_1_nonneg n _ H) as H2.
    rewrite (IH _ H2), (IH _ H).
    rewrite !Z.div_div by lia. rewrite pow2_xO. f_equal.
  - rewrite shr_1_m by assumption. reflexivity.
Qed.

(** The last step of rounding keeps the number: a mantissa of 53 bits stays,
    and 2^53 becomes 2^52 with the next exponent. *)
Lemma normalize_53_value (s : bool) (m e : Z) :
  (2 ^ 52 <= m <= 2 ^ 53)%Z -> (-900 <= e <= 900)%Z ->
  exists m'' e'',
    (let '(mrs'', e'') := shr_fexp prec emax m e loc_Exact in
     match shr_m mrs'' with
     | Z0 => S754_zero s
     | Zpos m0 =>
         if (e'' <=? emax - prec)%Z then S754_finite s m0 e''
         else S754_infinity s
     | Zneg _ => S754_nan
     end) = S754_finite s m'' e''
    /\ (2 ^ 52 <= Zpos m'' < 2 ^ 53)%Z
    /\ (e <= e'' <= e + 1)%Z
    /\ (Zpos m'' * 2 ^ (e'' - e) = m)%Z.
Proof.
  intros M E. unfold shr_fexp.
  destruct (Z.eq_dec m (2 ^ 53)) as [-> | N].
  - change (Zdigits2 (2 ^ 53)) with 54%Z.
    assert (F : (fexp prec emax (54 + e) - e = 1)%Z)
      by (unfold fexp, SpecFloat.emin, prec, emax; lia).
    rewrite F. cbv [shr shr_record_of_loc SpecFloat.iter_pos shr_1 shr_m Z.pow Z.pow_pos Pos.iter Z.mul Pos.mul].
    assert (L : (e + 1 <=? emax - prec)%Z = true)
      by (apply Z.leb_le; unfold prec, emax; lia).
    rewrite L. eexists; eexists. split; [reflexivity|].
    replace (e + 1 - e)%Z with 1%Z by lia. repeat split; lia.
  - destruct m as [|p|p]; try lia.
    assert (D : digits2_pos p = 53%positive) by (apply digits2_pos_exact; lia).
    cbv [Zdigits2]. rewrite D.
    assert (F : (fexp prec emax (53 + e) - e = 0)%Z)
      by (unfold fexp, SpecFloat.emin, prec, emax; lia).
    rewrite F. cbv [shr shr_record_of_loc shr_m].
    assert (L : (e <=? emax - prec)%Z = true)
      by (apply Z.leb_le; unfold prec, emax; lia).
    rewrite L. eexists; eexists. split; [reflexivity|].
    replace (e - e)%Z with 0%Z by lia. repeat split; lia.
Qed.

(** Rounding an integer of [53 + n] bits: the result is a double of 53 bits
    that holds the integer cut after its 53 leading bits, or the next one. *)
Lemma binary_round_aux_floor (P e n : Z) (l : location) :
  (0 <= n)%Z -> (2 ^ (52 + n) <= P < 2 ^ (53 + n))%Z ->
  (-800 <= e + n <= 800)%Z ->
  exists m'' e'' k,
    binary_round_aux prec emax false P e l = S754_finite false m'' e''
    /\ (2 ^ 52 <= Zpos m'' < 2 ^ 53)%Z
    /\ (e + n <= e'' <= e + n + 1)%Z
    /\ (Zpos m'' * 2 ^ (e'' - (e + n)) = P / 2 ^ n + k)%Z
    /\ (0 <= k <= 1)%Z.
Proof.
  intros Hn HP He. unfold binary_round_aux.
  assert (P0 : (0 < 2 ^ (52 + n))%Z) by (apply Z.pow_pos_nonneg; lia).
  destruct P as [|p|p]; try lia.
  assert (D : Zpos (digits2_pos p) = (53 + n)%Z).
  { assert (exists k, (53 + n)%Z = Zpos k) as [k K]
      by (exists (Z.to_pos (53 + n)); lia).
    rewrite K. f_equal. apply digits2_pos_exact. rewrite <- K.
    replace (53 + n - 1)%Z with (52 + n)%Z by lia. exact HP. }
  unfold shr_fexp at 1. cbv [Zdigits2]. rewrite D.
  assert (F : (fexp prec emax (53 + n + e) - e = n)%Z)
    by (unfold fexp, SpecFloat.emin, prec, emax; lia).
  rewrite F.
  assert (S : exists mrs', shr (shr_record_of_loc (Zpos p) l) e n = (mrs', (e + n)%Z)
                           /\ shr_m mrs' = (Zpos p / 2 ^ n)%Z).
  { unfold shr. destruct n as [|n|n]; try lia.
    - eexists. split; [now rewrite Z.add_0_r|].
      rewrite shr_record_of_loc_m. now rewrite Z.div_1_r.
    - eexists. split; [reflexivity|].
      rewrite iter_pos_shr_1_m; rewrite shr_record_of_loc_m; [reflexivity | lia]. }
  destruct S as (mrs' & -> & Em).
  assert (B : (2 ^ 52 <= shr_m mrs' < 2 ^ 53)%Z).
  { rewrite Em.
    assert (Pn : (0 < 2 ^ n)%Z) by (apply Z.pow_pos_nonneg; lia).
    rewrite !Z.pow_add_r in HP by lia. split.
    - apply Z.div_le_lower_bound; lia.
    - apply Z.div_lt_upper_bound; lia. }
  destruct (round_nearest_even_cases (shr_m mrs') (loc_of_shr_record mrs'))
    as [R | R]; rewrite R.
  - destruct (normalize_53_value false (shr_m mrs') (e + n) ltac:(lia) ltac:(lia))
      as (m'' & e'' & -> & Bm & Be & V).
    exists m'', e'', 0%Z. rewrite Z.add_0_r, <- Em.
    repeat split; try lia; exact V.
  - destruct (normalize_53_value false (shr_m mrs' + 1) (e + n) ltac:(lia) ltac:(lia))
      as (m'' & e'' & -> & Bm & Be & V).
    exists m'', e'', 1%Z. rewrite <- Em.
    repeat split; try lia; exact V.
Qed.

Section Values.
Local Open Scope R_scope.

Local Abbreviation K := 4503599627370496.

Lemma bpow_pos (e : Z) : 0 < powerRZ 2 e.
Proof. apply powerRZ_lt. lra. Qed.

Lemma bpow_add (a b : Z) : powerRZ 2 (a + b) = powerRZ 2 a * powerRZ 2 b.
Proof. apply powerRZ_add. lra. Qed.

Lemma bpow_IZR (k : Z) : (0 <= k)%Z -> powerRZ 2 k = IZR (2 ^ k).
Proof.
  intros H. destruct k as [|p|p]; try lia; [reflexivity|].
  cbn [powerRZ]. rewrite pow_IZR. now rewrite positive_nat_Z.
Qed.

(** Rounding a number that lies between an integer of [53 + n] bits and the
    next one, in units of [2^e]: the result is within one part in 2^52. *)
Lemma round_rel (P e n : Z) (l : location) (v : R) :
  (0 <= n)%Z -> (2 ^ (52 + n) <= P < 2 ^ (53 + n))%Z ->
  (-800 <= e + n <= 800)%Z ->
  IZR P * powerRZ 2 e <= v <= (IZR P + 1) * powerRZ 2 e ->
  exists m'' e'',
    binary_round_aux prec emax false P e l = S754_finite false m'' e''
    /\ (2 ^ 52 <= Zpos m'' < 2 ^ 53)%Z
    /\ (e + n <= e'' <= e + n + 1)%Z
    /\ K * SF2R (S754_finite false m'' e'') <= (K + 1) * v
    /\ (K - 1) * v <= K * SF2R (S754_finite false m'' e'').
Proof.
  intros Hn HP He Hv.
  destruct (binary_round_aux_floor P e n l Hn HP He)
    as (m'' & e'' & k & E & Bm & Be & V & Hk).
  exists m'', e''. split; [exact E|]. split; [exact Bm|]. split; [exact Be|].
  assert (Pn : (0 < 2 ^ n)%Z) by (apply Z.pow_pos_nonneg; lia).
  set (F := (P / 2 ^ n)%Z) in *.
  assert (F1 : (F * 2 ^ n <= P)%Z)
    by (unfold F; rewrite Z.mul_comm; apply Z.mul_div_le; lia).
  assert (F2 : (P + 1 <= (F + 1) * 2 ^ n)%Z).
  { unfold F. pose proof (Z.mul_succ_div_gt P (2 ^ n) Pn). lia. }
  assert (F3 : (2 ^ 52 <= F)%Z).
  { unfold F. rewrite Z.pow_add_r in HP by lia.
    apply Z.div_le_lower_bound; lia. }
  set (b := powerRZ 2 e) in *. pose proof (bpow_pos e) as Hb. fold b in Hb.
  set (beta := powerRZ 2 (e + n)).
  assert (Eb : beta = IZR (2 ^ n) * b)
    by (unfold beta, b; rewrite bpow_add, (bpow_IZR n Hn); ring).
  assert (Ef : SF2R (S754_finite false m'' e'') = IZR (F + k) * beta).
  { cbn [SF2R]. replace e'' with (e'' - (e + n) + (e + n))%Z by lia.
    rewrite bpow_add, (bpow_IZR (e'' - (e + n))) by lia.
    fold beta. rewrite <- Rmult_assoc, <- mult_IZR, V. reflexivity. }
  rewrite Ef, plus_IZR.
  apply IZR_le in F1, F2, F3.
  rewrite mult_IZR in F1. rewrite mult_IZR, !plus_IZR in F2.
  change (2 ^ 52)%Z with 4503599627370496%Z in F3.
  assert (Hk0 : 0 <= IZR k <= 1) by (split; apply IZR_le; lia).
  assert (Hbeta : 0 < beta) by apply bpow_pos.
  set (g := IZR F * beta).
  assert (G1 : g <= v).
  { unfold g. rewrite Eb.
    apply Rle_trans with (IZR P * b); [|apply Hv].
    rewrite <- Rmult_assoc. apply Rmult_le_compat_r; lra. }
  assert (G2 : v <= g + beta).
  { unfold g. rewrite Eb.
    apply Rle_trans with ((IZR P + 1) * b); [apply Hv|].
    replace (IZR F * (IZR (2 ^ n) * b) + IZR (2 ^ n) * b)
      with ((IZR F + 1) * IZR (2 ^ n) * b) by ring.
    apply Rmult_le_compat_r; lra. }
  assert (G3 : K * beta <= g).
  { unfold g. apply Rmult_le_compat_r; lra. }
  assert (G4 : 0 <= IZR k * beta <= beta).
  { split; [apply Rmult_le_pos; lra|].
    rewrite <- (Rmult_1_l beta) at 2. apply Rmult_le_compat_r; lra. }
  replace ((IZR F + IZR k) * beta) with (g + IZR k * beta) by (unfold g; ring).
  lra.
Qed.

(** *** The three operations of [cosineSim]'s last line *)

(** The square root of a double of 53 bits: its square is the operand to
    within two parts in 2^52. *)
Lemma SFsqrt_rel (mx : positive) (ex : Z) :
  (2 ^ 52 <= Zpos mx < 2 ^ 53)%Z -> (-100 <= ex <= 100)%Z ->
  exists ms es,
    SF64sqrt (S754_finite false mx ex) = S754_finite false ms es
    /\ (2 ^ 52 <= Zpos ms < 2 ^ 53)%Z
    /\ (-100 <= es <= 100)%Z
    /\ (K - 1) * (K - 1) * (SF2R (S754_finite false ms es) * SF2R (S754_finite false ms es))
       <= K * K * SF2R (S754_finite false mx ex)
    /\ K * K * SF2R (S754_finite false mx ex)
       <= (K + 1) * (K + 1) * (SF2R (S754_finite false ms es) * SF2R (S754_finite false ms es)).
Proof.
  intros Mx Ex.
  assert (D : digits2_pos mx = 53%positive) by (apply digits2_pos_exact; lia).
  unfold SF64sqrt, SFsqrt, SFsqrt_core_binary. cbv [Zdigits2]. rewrite D.
  set (e' := (ex / 2 - 26)%Z).
  assert (E' : Z.min (fexp prec emax (Z.div2 (53 + ex + 1))) (Z.div2 ex) = e').
  { rewrite !Z.div2_div, fexp_max. unfold e'. Z.div_mod_to_equations. lia. }
  rewrite E'.
  assert (S : exists s, (ex - 2 * e' = Zpos s)%Z /\ (52 <= Zpos s <= 53)%Z).
  { exists (Z.to_pos (ex - 2 * e')). unfold e'. Z.div_mod_to_equations. lia. }
  destruct S as (s & Es & Bs). rewrite Es. cbv iota.
  rewrite Z.shiftl_mul_pow2 by lia.
  set (A := (Zpos mx * 2 ^ Zpos s)%Z).
  assert (BA : (2 ^ 104 <= A < 2 ^ 106)%Z).
  { unfold A. assert (Zpos s = 52 \/ Zpos s = 53)%Z as [-> | ->] by lia; lia. }
  pose proof (Z.sqrtrem_spec A ltac:(lia)) as Q.
  destruct (Z.sqrtrem A) as [q r]. destruct Q as [Eq Br].
  assert (Bq : (2 ^ 52 <= q < 2 ^ 53)%Z).
  { split.
    - destruct (Z.le_gt_cases (2 ^ 52) q) as [|G]; [assumption|]. exfalso.
      assert (q * q <= (2 ^ 52 - 1) * (2 ^ 52 - 1))%Z
        by (apply Z.square_le_mono_nonneg; lia).
      lia.
    - destruct (Z.lt_ge_cases q (2 ^ 53)) as [|G]; [assumption|]. exfalso.
      assert (2 ^ 53 * 2 ^ 53 <= q * q)%Z
        by (apply Z.square_le_mono_nonneg; lia).
      lia. }
  destruct (binary_round_aux_floor q e' 0
              (if (r =? 0)%Z then loc_Exact
               else loc_Inexact (if (r <=? q)%Z then Lt else Gt))
              ltac:(lia) ltac:(simpl; lia)
              ltac:(unfold e'; Z.div_mod_to_equations; lia))
    as (ms & es & k & E & Bm & Be & V & Hk).
  exists ms, es. split; [exact E|]. split; [exact Bm|].
  split; [unfold e' in Be; Z.div_mod_to_equations; lia|].
  rewrite Z.add_0_r, Z.pow_0_r, Z.div_1_r in V.
  set (W := (q + k)%Z) in *.
  (* integers: (W-1)^2 <= A < (W+1)^2 and K <= W *)
  assert (W1 : ((W - 1) * (W - 1) <= A)%Z).
  { assert ((W - 1) * (W - 1) <= q * q)%Z
      by (apply Z.square_le_mono_nonneg; unfold W; lia).
    lia. }
  assert (W2 : (A <= (W + 1) * (W + 1))%Z).
  { assert ((q + 1) * (q + 1) <= (W + 1) * (W + 1))%Z
      by (apply Z.square_le_mono_nonneg; unfold W; lia).
    lia. }
  assert (W3 : (2 ^ 52 <= W)%Z) by (unfold W; lia).
  assert (I1 : (((2 ^ 52 - 1) * W) * ((2 ^ 52 - 1) * W)
                <= (2 ^ 52 * (W - 1)) * (2 ^ 52 * (W - 1)))%Z)
    by (apply Z.square_le_mono_nonneg; lia).
  assert (I2 : ((2 ^ 52 * (W + 1)) * (2 ^ 52 * (W + 1))
                <= ((2 ^ 52 + 1) * W) * ((2 ^ 52 + 1) * W))%Z)
    by (apply Z.square_le_mono_nonneg; lia).
  assert (J1 : ((2 ^ 52 - 1) * (2 ^ 52 - 1) * (W * W) <= 2 ^ 52 * 2 ^ 52 * A)%Z).
  { replace ((2 ^ 52 - 1) * (2 ^ 52 - 1) * (W * W))%Z
      with (((2 ^ 52 - 1) * W) * ((2 ^ 52 - 1) * W))%Z by ring.
    apply Z.le_trans with ((2 ^ 52 * (W - 1)) * (2 ^ 52 * (W - 1)))%Z; [exact I1|].
    replace ((2 ^ 52 * (W - 1)) * (2 ^ 52 * (W - 1)))%Z
      with (2 ^ 52 * 2 ^ 52 * ((W - 1) * (W - 1)))%Z by ring.
    apply Z.mul_le_mono_nonneg_l; lia. }
  assert (J2 : (2 ^ 52 * 2 ^ 52 * A <= (2 ^ 52 + 1) * (2 ^ 52 + 1) * (W * W))%Z).
  { replace ((2 ^ 52 + 1) * (2 ^ 52 + 1) * (W * W))%Z
      with (((2 ^ 52 + 1) * W) * ((2 ^ 52 + 1) * W))%Z by ring.
    apply Z.le_trans with ((2 ^ 52 * (W + 1)) * (2 ^ 52 * (W + 1)))%Z; [|exact I2].
    replace ((2 ^ 52 * (W + 1)) * (2 ^ 52 * (W + 1)))%Z
      with (2 ^ 52 * 2 ^ 52 * ((W + 1) * (W + 1)))%Z by ring.
    apply Z.mul_le_mono_nonneg_l; lia. }
  (* the values *)
  set (b := powerRZ 2 e').
  assert (Hb : 0 < b * b) by (apply Rmult_lt_0_compat; apply bpow_pos).
  assert (Ef : SF2R (S754_finite false ms es) = IZR W * b).
  { cbn [SF2R]. replace es with (es - e' + e')%Z by lia.
    rewrite bpow_add, (bpow_IZR (es - e')) by lia.
    fold b. rewrite <- Rmult_assoc, <- mult_IZR, V. reflexivity. }
  assert (Ex' : SF2R (S754_finite false mx ex) = IZR A * (b * b)).
  { cbn [SF2R]. replace ex with (Zpos s + (e' + e'))%Z by lia.
    rewrite !bpow_add, (bpow_IZR (Zpos s)) by lia.
    fold b. unfold A. rewrite mult_IZR. ring. }
  rewrite Ef, Ex'.
  change (2 ^ 52 - 1)%Z with 4503599627370495%Z in J1.
  change (2 ^ 52 + 1)%Z with 4503599627370497%Z in J2.
  change (2 ^ 52)%Z with 4503599627370496%Z in J1, J2.
  apply IZR_le in J1, J2. rewrite !mult_IZR in J1, J2.
  split.
  - replace ((K - 1) * (K - 1) * (IZR W * b * (IZR W * b)))
      with ((K - 1) * (K - 1) * (IZR W * IZR W) * (b * b)) by ring.
    replace (K * K * (IZR A * (b * b))) with (K * K * IZR A * (b * b)) by ring.
    apply Rmult_le_compat_r; lra.
  - replace ((K + 1) * (K + 1) * (IZR W * b * (IZR W * b)))
      with ((K + 1) * (K + 1) * (IZR W * IZR W) * (b * b)) by ring.
    replace (K * K * (IZR A * (b * b))) with (K * K * IZR A * (b * b)) by ring.
    apply Rmult_le_compat_r; lra.
Qed.

(** The square of a double of 53 bits, to within one part in 2^52. *)
Lemma SFmul_self_rel (ms : positive) (es : Z) :
  (2 ^ 52 <= Zpos ms < 2 ^ 53)%Z -> (-100 <= es <= 100)%Z ->
  exists mp ep,
    SF64mul (S754_finite false ms es) (S754_finite false ms es)
    = S754_finite false mp ep
    /\ (2 ^ 52 <= Zpos mp < 2 ^ 53)%Z
    /\ (-300 <= ep <= 300)%Z
    /\ K * SF2R (S754_finite false mp ep)
       <= (K + 1) * (SF2R (S754_finite false ms es) * SF2R (S754_finite false ms es))
    /\ (K - 1) * (SF2R (S754_finite false ms es) * SF2R (S754_finite false ms es))
       <= K * SF2R (S754_finite false mp ep).
Proof.
  intros Ms Es. unfold SF64mul, SFmul. cbv [xorb].
  rewrite Pos2Z.inj_mul.
  set (P := (Zpos ms * Zpos ms)%Z).
  assert (BP : (2 ^ 104 <= P < 2 ^ 106)%Z).
  { unfold P. split.
    - change (2 ^ 104)%Z with (2 ^ 52 * 2 ^ 52)%Z.
      apply Z.square_le_mono_nonneg; lia.
    - change (2 ^ 106)%Z with (2 ^ 53 * 2 ^ 53)%Z.
      apply Z.square_lt_mono_nonneg; lia. }
  set (n := if (P <? 2 ^ 105)%Z then 52%Z else 53%Z).
  assert (Bn : (0 <= n)%Z /\ (2 ^ (52 + n) <= P < 2 ^ (53 + n))%Z /\ (52 <= n <= 53)%Z).
  { unfold n. destruct (Z.ltb_spec P (2 ^ 105)); simpl; lia. }
  destruct Bn as (Hn & HP & Bn).
  set (v := SF2R (S754_finite false ms es) * SF2R (S754_finite false ms es)).
  assert (Ev : v = IZR P * powerRZ 2 (es + es)).
  { unfold v, P. cbn [SF2R]. rewrite bpow_add, mult_IZR. ring. }
  pose proof (bpow_pos (es + es)) as Hb.
  destruct (round_rel P (es + es) n loc_Exact v Hn HP ltac:(lia))
    as (mp & ep & E & Bm & Be & U & L).
  { rewrite Ev. split; [lra|]. rewrite Rmult_plus_distr_r. lra. }
  exists mp, ep. repeat split; try assumption; lia.
Qed.

(** The quotient of two doubles of 53 bits, to within one part in 2^52
    (multiplied out by the divisor). *)
Lemma SFdiv_rel (mx mp : positive) (ex ep : Z) :
  (2 ^ 52 <= Zpos mx < 2 ^ 53)%Z -> (2 ^ 52 <= Zpos mp < 2 ^ 53)%Z ->
  (-100 <= ex <= 100)%Z -> (-300 <= ep <= 300)%Z ->
  exists mq eq,
    SF64div (S754_finite false mx ex) (S754_finite false mp ep)
    = S754_finite false mq eq
    /\ (2 ^ 52 <= Zpos mq < 2 ^ 53)%Z
    /\ (-500 <= eq <= 500)%Z
    /\ K * (SF2R (S754_finite false mq eq) * SF2R (S754_finite false mp ep))
       <= (K + 1) * SF2R (S754_finite false mx ex)
    /\ (K - 1) * SF2R (S754_finite false mx ex)
       <= K * (SF2R (S754_finite false mq eq) * SF2R (S754_finite false mp ep)).
Proof.
  intros Mx Mp Ex Ep.
  assert (Dx : digits2_pos mx = 53%positive) by (apply digits2_pos_exact; lia).
  assert (Dp : digits2_pos mp = 53%positive) by (apply digits2_pos_exact; lia).
  unfold SF64div, SFdiv, SFdiv_core_binary. cbv [Zdigits2 xorb]. rewrite Dx, Dp.
  set (e' := (ex - ep - 53)%Z).
  assert (Ee : Z.min (fexp prec emax (53 + ex - (53 + ep))) (ex - ep) = e')
    by (rewrite fexp_max; unfold e'; lia).
  rewrite Ee. replace (ex - ep - e')%Z with 53%Z by (unfold e'; lia).
  cbv iota beta. rewrite Z.shiftl_mul_pow2 by lia.
  pose proof (Z.div_eucl_eq (Z.pos mx * 2 ^ 53) (Z.pos mp) ltac:(lia)) as H.
  pose proof (Z.mod_pos_bound (Z.pos mx * 2 ^ 53) (Z.pos mp) ltac:(lia)) as B.
  unfold Z.modulo in B.
  destruct (Z.div_eucl (Z.pos mx * 2 ^ 53) (Z.pos mp)) as [q r].
  assert (Q : (2 ^ 52 <= q < 2 ^ 54)%Z) by (split; nia).
  set (n := if (q <? 2 ^ 53)%Z then 0%Z else 1%Z).
  assert (Bn : (0 <= n)%Z /\ (2 ^ (52 + n) <= q < 2 ^ (53 + n))%Z /\ (0 <= n <= 1)%Z).
  { unfold n. destruct (Z.ltb_spec q (2 ^ 53)); simpl; lia. }
  destruct Bn as (Hn & HP & Bn).
  set (x := SF2R (S754_finite false mx ex)).
  set (p := SF2R (S754_finite false mp ep)).
  assert (Hp : 0 < p).
  { unfold p. cbn [SF2R]. apply Rmult_lt_0_compat; [apply IZR_lt; lia | apply bpow_pos]. }
  set (b := powerRZ 2 e').
  assert (Hb : 0 < b) by apply bpow_pos.
  (* x = (mx 2^53) b 2^ep and p = mp 2^ep *)
  set (c := powerRZ 2 ep).
  assert (Hc : 0 < c) by apply bpow_pos.
  assert (Exv : x = IZR (Zpos mx * 2 ^ 53) * b * c).
  { unfold x, b, c. cbn [SF2R]. replace ex with (53 + e' + ep)%Z by (unfold e'; lia).
    rewrite !bpow_add, (bpow_IZR 53) by lia. rewrite mult_IZR. ring. }
  assert (Epv : p = IZR (Zpos mp) * c) by reflexivity.
  assert (Hmp : 0 < IZR (Zpos mp)) by (apply IZR_lt; lia).
  set (v := x / p).
  assert (Vp : v * p = x) by (unfold v; field; lra).
  assert (Hv : IZR q * b <= v <= (IZR q + 1) * b).
  { assert (Q1 : IZR q * IZR (Zpos mp) <= IZR (Zpos mx * 2 ^ 53))
      by (rewrite <- mult_IZR; apply IZR_le; lia).
    assert (Q2 : IZR (Zpos mx * 2 ^ 53) <= (IZR q + 1) * IZR (Zpos mp)).
    { replace (IZR q + 1) with (IZR (q + 1)) by (rewrite plus_IZR; reflexivity).
      rewrite <- mult_IZR. apply IZR_le. lia. }
    split.
    - apply (Rmult_le_reg_r p _ _ Hp). rewrite Vp, Exv, Epv.
      replace (IZR q * b * (IZR (Z.pos mp) * c))
        with (IZR q * IZR (Z.pos mp) * (b * c)) by ring.
      replace (IZR (Z.pos mx * 2 ^ 53) * b * c)
        with (IZR (Z.pos mx * 2 ^ 53) * (b * c)) by ring.
      apply Rmult_le_compat_r; [|exact Q1].
      apply Rlt_le, Rmult_lt_0_compat; assumption.
    - apply (Rmult_le_reg_r p _ _ Hp). rewrite Vp, Exv, Epv.
      replace ((IZR q + 1) * b * (IZR (Z.pos mp) * c))
        with ((IZR q + 1) * IZR (Z.pos mp) * (b * c)) by ring.
      replace (IZR (Z.pos mx * 2 ^ 53) * b * c)
        with (IZR (Z.pos mx * 2 ^ 53) * (b * c)) by ring.
      apply Rmult_le_compat_r; [|exact Q2].
      apply Rlt_le, Rmult_lt_0_compat; assumption. }
  destruct (round_rel q e' n (new_location (Zpos mp) r) v Hn HP
              ltac:(unfold e'; lia) Hv)
    as (mq & eq & E & Bm & Be & U & L).
  exists mq, eq. split; [exact E|]. split; [exact Bm|].
  split; [unfold e' in Be; lia|].
  set (Qv := SF2R (S754_finite false mq eq)) in *.
  rewrite <- Vp. split.
  - replace (K * (Qv * p)) with (K * Qv * p) by ring.
    replace ((K + 1) * (v * p)) with ((K + 1) * v * p) by ring.
    apply Rmult_le_compat_r; lra.
  - replace (K * (Qv * p)) with (K * Qv * p) by ring.
    replace ((K - 1) * (v * p)) with ((K - 1) * v * p) by ring.
    apply Rmult_le_compat_r; lra.
Qed.

(** *** The quotient x / (sqrt x * sqrt x) *)

(** Three roundings of one part in 2^52 each, and a square: the quotient is
    between 1 - 4/2^52 and 1 + 5/2^52. *)
Lemma self_quotient_bounds (x ff p Qp Q : R) :
  0 < p -> Qp = Q * p ->
  (K - 1) * (K - 1) * ff <= K * K * x ->
  K * K * x <= (K + 1) * (K + 1) * ff ->
  K * p <= (K + 1) * ff ->
  (K - 1) * ff <= K * p ->
  K * Qp <= (K + 1) * x ->
  (K - 1) * x <= K * Qp ->
  K - 4 <= K * Q /\ K * Q < K + 5.
Proof.
  intros Hp -> H1 H2 H3 H4 H5 H6.
  set (Qp := Q * p) in *.
  split.
  - apply (Rmult_le_reg_r p _ _ Hp).
    replace (K * Q * p) with (K * Qp) by (unfold Qp; ring). lra.
  - apply (Rmult_lt_reg_r p _ _ Hp).
    replace (K * Q * p) with (K * Qp) by (unfold Qp; ring). lra.
Qed.

(** Doubles of 53 bits are ordered like the numbers they hold. *)
Lemma normal_SFleb (mf mg : positive) (ef eg : Z) :
  (2 ^ 52 <= Zpos mf < 2 ^ 53)%Z -> (2 ^ 52 <= Zpos mg < 2 ^ 53)%Z ->
  SF2R (S754_finite false mf ef) < (IZR (Zpos mg) + 1) * powerRZ 2 eg ->
  SFleb (S754_finite false mf ef) (S754_finite false mg eg) = true.
Proof.
  intros Mf Mg H. unfold SFleb, SFcompare. cbn [SF2R] in H.
  pose proof (bpow_pos eg) as Hg.
  destruct (Z.compare_spec ef eg) as [E | L | G]; [|reflexivity|].
  - subst eg. change (Pos.compare_cont Eq mf mg) with (Pos.compare mf mg).
    destruct (Pos.compare_spec mf mg) as [E | L | G]; try reflexivity.
    exfalso.
    assert (I : IZR (Zpos mg) + 1 <= IZR (Zpos mf)).
    { replace (IZR (Zpos mg) + 1) with (IZR (Zpos mg + 1)) by (rewrite plus_IZR; reflexivity).
      apply IZR_le. lia. }
    apply (Rmult_le_compat_r _ _ _ (Rlt_le _ _ Hg)) in I. lra.
  - exfalso.
    assert (Ef : powerRZ 2 ef = IZR (2 ^ (ef - eg)) * powerRZ 2 eg).
    { rewrite <- (bpow_IZR (ef - eg)) by lia. rewrite <- bpow_add. f_equal. lia. }
    assert (P2 : (2 <= 2 ^ (ef - eg))%Z).
    { change 2%Z with (2 ^ 1)%Z at 1. apply Z.pow_le_mono_r; lia. }
    apply IZR_le in P2.
    assert (I1 : IZR (Zpos mg) + 1 <= 9007199254740992).
    { replace (IZR (Zpos mg) + 1) with (IZR (Zpos mg + 1)) by (rewrite plus_IZR; reflexivity).
      apply IZR_le. lia. }
    assert (I2 : 4503599627370496 <= IZR (Zpos mf)) by (apply IZR_le; lia).
    rewrite Ef in H.
    set (g := powerRZ 2 eg) in *. set (t := IZR (2 ^ (ef - eg))) in *.
    assert (I3 : (IZR (Zpos mg) + 1) * g <= 9007199254740992 * g)
      by (apply Rmult_le_compat_r; lra).
    assert (I4 : 2 * g <= t * g) by (apply Rmult_le_compat_r; lra).
    assert (I5 : 4503599627370496 * (t * g) <= IZR (Zpos mf) * (t * g)).
    { apply Rmult_le_compat_r; [|lra]. apply Rmult_le_pos; lra. }
    lra.
Qed.

Lemma normal_SFltb (mf mg : positive) (ef eg : Z) :
  (2 ^ 52 <= Zpos mf < 2 ^ 53)%Z -> (2 ^ 52 <= Zpos mg < 2 ^ 53)%Z ->
  SF2R (S754_finite false mf ef) < SF2R (S754_finite false mg eg) ->
  SFltb (S754_finite false mf ef) (S754_finite false mg eg) = true.
Proof.
  intros Mf Mg H. unfold SFltb, SFcompare. cbn [SF2R] in H.
  pose proof (bpow_pos eg) as Hg.
  destruct (Z.compare_spec ef eg) as [E | L | G]; [|reflexivity|].
  - subst eg. change (Pos.compare_cont Eq mf mg) with (Pos.compare mf mg).
    destruct (Pos.compare_spec mf mg) as [E | L | G]; [|reflexivity|]; exfalso.
    + subst. lra.
    + assert (I : IZR (Zpos mg) <= IZR (Zpos mf)) by (apply IZR_le; lia).
      apply (Rmult_le_compat_r _ _ _ (Rlt_le _ _ Hg)) in I. lra.
  - exfalso.
    assert (Ef : powerRZ 2 ef = IZR (2 ^ (ef - eg)) * powerRZ 2 eg).
    { rewrite <- (bpow_IZR (ef - eg)) by lia. rewrite <- bpow_add. f_equal. lia. }
    assert (P2 : (2 <= 2 ^ (ef - eg))%Z).
    { change 2%Z with (2 ^ 1)%Z at 1. apply Z.pow_le_mono_r; lia. }
    apply IZR_le in P2.
    assert (I1 : IZR (Zpos mg) <= 9007199254740992) by (apply IZR_le; lia).
    assert (I2 : 4503599627370496 <= IZR (Zpos mf)) by (apply IZR_le; lia).
    rewrite Ef in H.
    set (g := powerRZ 2 eg) in *. set (t := IZR (2 ^ (ef - eg))) in *.
    assert (I3 : IZR (Zpos mg) * g <= 9007199254740992 * g)
      by (apply Rmult_le_compat_r; lra).
    assert (I4 : 2 * g <= t * g) by (apply Rmult_le_compat_r; lra).
    assert (I5 : 4503599627370496 * (t * g) <= IZR (Zpos mf) * (t * g)).
    { apply Rmult_le_compat_r; [|lra]. apply Rmult_le_pos; lra. }
    lra.
Qed.

Lemma bpow_m52 : powerRZ 2 (-52) * 4503599627370496 = 1.
Proof.
  change 4503599627370496 with (IZR (2 ^ 52)).
  rewrite <- (bpow_IZR 52), <- bpow_add by lia. reflexivity.
Qed.

Lemma bpow_m53 : powerRZ 2 (-53) * 9007199254740992 = 1.
Proof.
  change 9007199254740992 with (IZR (2 ^ 53)).
  rewrite <- (bpow_IZR 53), <- bpow_add by lia. reflexivity.
Qed.

(** For a double [x] of 53 bits, [x / (sqrt x * sqrt x)] is a double
    between 0.999999999999998 and 1.000000000000002, above the threshold
    0.78 of the guard, and its divisor is a positive number. *)
Lemma SF_self_quotient (mx : positive) (ex : Z) :
  (2 ^ 52 <= Zpos mx < 2 ^ 53)%Z -> (-100 <= ex <= 100)%Z ->
  let x := S754_finite false mx ex in
  exists mp ep mq eq,
    SF64mul (SF64sqrt x) (SF64sqrt x) = S754_finite false mp ep
    /\ SF64div x (S754_finite false mp ep) = S754_finite false mq eq
    /\ SFleb (Prim2SF 0.999999999999998%float) (S754_finite false mq eq) = true
    /\ SFleb (S754_finite false mq eq) (Prim2SF 1.000000000000002%float) = true
    /\ SFltb (Prim2SF 0.78%float) (S754_finite false mq eq) = true.
Proof.
  intros Mx Ex x.
  destruct (SFsqrt_rel mx ex Mx Ex) as (ms & es & Es & Ms & Bs & S1 & S2).
  destruct (SFmul_self_rel ms es Ms Bs) as (mp & ep & Ep & Mp & Bp & P1 & P2).
  destruct (SFdiv_rel mx mp ex ep Mx Mp Ex Bp) as (mq & eq & Eq & Mq & Bq & Q1 & Q2).
  exists mp, ep, mq, eq. fold x in Es, Eq. rewrite Es.
  split; [exact Ep|]. split; [exact Eq|].
  assert (Hp : 0 < SF2R (S754_finite false mp ep)).
  { cbn [SF2R]. apply Rmult_lt_0_compat; [apply IZR_lt; lia | apply bpow_pos]. }
  destruct (self_quotient_bounds _ _ _ _ _ Hp eq_refl S1 S2 P1 P2 Q1 Q2) as [Lo Hi].
  assert (Hq : 0 < powerRZ 2 eq) by apply bpow_pos.
  pose proof bpow_m52 as B52. pose proof bpow_m53 as B53.
  split; [|split].
  - change (Prim2SF 0.999999999999998%float)
      with (S754_finite false 9007199254740974 (-53)).
    apply normal_SFleb; [lia | lia |].
    cbn [SF2R] in *. set (Q := IZR (Zpos mq) * powerRZ 2 eq) in *.
    replace ((IZR (Zpos mq) + 1) * powerRZ 2 eq) with (Q + powerRZ 2 eq)
      by (unfold Q; ring).
    set (h := powerRZ 2 (-53)) in *. lra.
  - change (Prim2SF 1.000000000000002%float)
      with (S754_finite false 4503599627370505 (-52)).
    apply normal_SFleb; [lia | lia |].
    cbn [SF2R] in *. set (Q := IZR (Zpos mq) * powerRZ 2 eq) in *.
    set (h := powerRZ 2 (-52)) in *. lra.
  - change (Prim2SF 0.78%float)
      with (S754_finite false 7025615418697974 (-53)).
    apply normal_SFltb; [lia | lia |].
    cbn [SF2R] in *. set (Q := IZR (Zpos mq) * powerRZ 2 eq) in *.
    set (h := powerRZ 2 (-53)) in *. lra.
Qed.

End Values.

(** *** The cosine of a sequence against itself *)

Lemma float_truthy_finite (x : float) (s : bool) (m : positive) (e : Z) :
  Prim2SF x = S754_finite s m e -> float_truthy x = true.
Proof.
  intros H. unfold float_truthy, PrimFloat.is_zero, PrimFloat.is_nan.
  rewrite !FloatAxioms.eqb_spec, H.
  change (Prim2SF 0%float) with (S754_zero false).
  unfold SFeqb, SFcompare. rewrite Z.compare_refl, Pos.compare_cont_refl.
  now destruct s.
Qed.

(** For an integer [0 < z < 2^53], the double [z / (sqrt z * sqrt z)] that
    [cosineSim] returns for a sequence against itself: the divisor is not
    0, and the quotient is 1 to within 2e-15, above the threshold. *)
Lemma toFloat_self_quotient (z : Z) :
  (0 < z < 2 ^ 53)%Z ->
  float_truthy (PrimFloat.sqrt (toFloat (Int z)) * PrimFloat.sqrt (toFloat (Int z)))%float
  = true
  /\ (0.999999999999998
      <=? toFloat (Int z)
          / (PrimFloat.sqrt (toFloat (Int z)) * PrimFloat.sqrt (toFloat (Int z))))%float
     = true
  /\ (toFloat (Int z)
      / (PrimFloat.sqrt (toFloat (Int z)) * PrimFloat.sqrt (toFloat (Int z)))
      <=? 1.000000000000002)%float = true
  /\ (0.78
      <? toFloat (Int z)
         / (PrimFloat.sqrt (toFloat (Int z)) * PrimFloat.sqrt (toFloat (Int z))))%float
     = true.
Proof.
  intros H. destruct (toFloat_normal z H) as (m & e & E & D & Be & _).
  pose proof (digits2_pos_range m) as R. rewrite D in R.
  change (2 ^ (53 - 1))%Z with (2 ^ 52)%Z in R.
  destruct (SF_self_quotient m e R ltac:(lia))
    as (mp & ep & mq & eq & Ep & Eq & Lo & Hi & Th).
  assert (Eden : Prim2SF (PrimFloat.sqrt (toFloat (Int z))
                          * PrimFloat.sqrt (toFloat (Int z)))%float
                 = S754_finite false mp ep)
    by (rewrite FloatAxioms.mul_spec, !FloatAxioms.sqrt_spec, E; exact Ep).
  split; [exact (float_truthy_finite _ _ _ _ Eden)|].
  rewrite !FloatAxioms.leb_spec, FloatAxioms.ltb_spec, FloatAxioms.div_spec,
    Eden, E, Eq.
  repeat split; assumption.
Qed.

(* ================================================================= *)
(** ** Term frequencies *)

Lemma count_nonneg (t : str) (l : list str) : (0 <= count t l)%Z.
Proof. induction l as [|u l IH]; simpl; [lia|]. destruct (str_eqb t u); lia. Qed.

Lemma count_app (t : str) (l l' : list str) :
  count t (l ++ l') = (count t l + count t l')%Z.
Proof. induction l as [|u l IH]; simpl; [reflexivity|]. rewrite IH. lia. Qed.

Lemma count_In (t : str) (l : list str) : In t l -> (1 <= count t l)%Z.
Proof.
  induction l as [|u l IH]; simpl; [easy|].
  pose proof (count_nonneg t l).
  intros [-> | H']; [rewrite str_eqb_refl; lia|].
  specialize (IH H'). destruct (str_eqb t u); lia.
Qed.

Lemma count_not_In (t : str) (l : list str) : ~ In t l -> count t l = 0%Z.
Proof.
  induction l as [|u l IH]; simpl; [reflexivity|].
  intros H. destruct (str_eqb t u) eqn:E.
  - apply str_eqb_eq in E. subst. exfalso. apply H. now left.
  - rewrite IH; [reflexivity | intuition].
Qed.

Lemma own_map (g : str -> value) (s : list str) (k : str) :
  own (map (fun t => (t, g t)) s) k = if Set_has s k then Some (g k) else None.
Proof.
  induction s as [|u s IH]; simpl; [reflexivity|].
  destruct (str_eqb k u) eqn:E; simpl; [|exact IH].
  apply str_eqb_eq in E. now subst.
Qed.

Lemma put_map_old (g : str -> value) (s : list str) (k : str) (v : value) :
  NoDup s -> In k s ->
  put (map (fun t => (t, g t)) s) k v
  = map (fun t => (t, if str_eqb t k then v else g t)) s.
Proof.
  induction s as [|u s IH]; simpl; [easy|].
  intros N H. inversion N as [|? ? Hu Ns]; subst.
  destruct (str_eqb k u) eqn:E.
  - apply str_eqb_eq in E. subst u. rewrite str_eqb_refl. f_equal.
    apply map_ext_in. intros t Ht.
    destruct (str_eqb t k) eqn:E'; [|reflexivity].
    apply str_eqb_eq in E'. subst. contradiction.
  - rewrite (str_eqb_sym u k), E. f_equal. apply IH; [assumption|].
    destruct H as [-> | H]; [|assumption].
    rewrite str_eqb_refl in E. discriminate.
Qed.

Lemma put_map_new (g : str -> value) (s : list str) (k : str) (v : value) :
  ~ In k s ->
  put (map (fun t => (t, g t)) s) k v = map (fun t => (t, g t)) s ++ [(k, v)].
Proof.
  induction s as [|u s IH]; simpl; [reflexivity|].
  intros H. destruct (str_eqb k u) eqn:E.
  - apply str_eqb_eq in E. subst. exfalso. apply H. now left.
  - f_equal. apply IH. intuition.
Qed.

Lemma Set_of_snoc (l : list str) (t : str) : Set_of (l ++ [t]) = Set_add t (Set_of l).
Proof. unfold Set_of. now rewrite fold_left_app. Qed.

Lemma or_Int (c : Z) : or_ (Num (Int c)) (Num (Int 0)) = Num (Int c).
Proof.
  unfold or_, truthy. destruct (Z.eqb_spec c 0); simpl; [now subst | reflexivity].
Qed.

(** What [A[t] || 0] reads in the frequency object of a clean sequence. *)
Lemma get_counts (l : list str) (t : str) :
  inherited t = false ->
  or_ (get (counts l) t) (Num (Int 0)) = Num (Int (count t l)).
Proof.
  intros Ht. unfold get, counts. rewrite own_map.
  destruct (Set_has (Set_of l) t) eqn:E.
  - apply or_Int.
  - rewrite Ht. apply Set_has_not_In in E. rewrite Set_of_In in E.
    now rewrite count_not_In.
Qed.

(** One step of [freq]'s loop. *)
Lemma freq_step (l : list str) (t : str) :
  inherited t = false ->
  set (counts l) t (plus (or_ (get (counts l) t) (Num (Int 0))) (Num (Int 1)))
  = counts (l ++ [t]).
Proof.
  intros Ht. rewrite (get_counts l t Ht). simpl plus.
  unfold set. unfold inherited in Ht. apply orb_false_iff in Ht as [_ Hp].
  rewrite Hp. unfold counts. rewrite Set_of_snoc.
  destruct (in_dec (list_eq_dec N.eq_dec) t (Set_of l)) as [Hin | Hout].
  - rewrite Set_add_old by assumption.
    rewrite put_map_old by (auto using Set_of_NoDup).
    apply map_ext. intros u. rewrite count_app. simpl.
    destruct (str_eqb u t) eqn:E.
    + apply str_eqb_eq in E. subst. repeat f_equal; lia.
    + repeat f_equal; lia.
  - rewrite Set_add_new by assumption.
    rewrite put_map_new by assumption. rewrite map_app. simpl.
    rewrite count_app. simpl. rewrite str_eqb_refl.
    rewrite Set_of_In in Hout. rewrite (count_not_In t l Hout).
    f_equal. apply map_ext_in. intros u Hu. rewrite count_app. simpl.
    destruct (str_eqb u t) eqn:E.
    + apply str_eqb_eq in E. subst. apply -> Set_of_In in Hu. contradiction.
    + repeat f_equal; lia.
Qed.

Lemma freq_from (l' : list str) : forall l,
  clean l' ->
  fold_left
    (fun f t => set f t (plus (or_ (get f t) (Num (Int 0))) (Num (Int 1))))
    l' (counts l)
  = counts (l ++ l').
Proof.
  induction l' as [|t l' IH]; intros l C; simpl.
  - now rewrite app_nil_r.
  - rewrite freq_step by (apply C; now left).
    rewrite IH by (intros u Hu; apply C; now right).
    now rewrite <- app_assoc.
Qed.

(** [freq] counts the occurrences of each distinct token. *)
Lemma freq_counts (tokens : list str) : clean tokens -> freq tokens = counts tokens.
Proof. intros C. exact (freq_from tokens [] C). Qed.

(** *** The order of [Object.keys] *)

Lemma insert_index_In (n : N) (k : str) (l : list (N * str)) (q : N * str) :
  In q (insert_index n k l) <-> q = (n, k) \/ In q l.
Proof.
  induction l as [|[n' k'] l IH]; simpl; [intuition|].
  destruct (n <=? n'); simpl; [intuition|]. rewrite IH. intuition.
Qed.

Lemma insert_index_Permutation (n : N) (k : str) (l : list (N * str)) :
  Permutation (insert_index n k l) ((n, k) :: l).
Proof.
  induction l as [|[n' k'] l IH]; simpl; [reflexivity|].
  destruct (n <=? n'); [reflexivity|].
  rewrite IH. apply perm_swap.
Qed.

Lemma insert_index_sorted (n : N) (k : str) (l : list (N * str)) :
  StronglySorted (fun p q => fst p <= fst q) l ->
  StronglySorted (fun p q => fst p <= fst q) (insert_index n k l).
Proof.
  induction 1 as [|[n' k'] l Hl IH Hf]; simpl.
  - repeat constructor.
  - destruct (N.leb_spec n n') as [L | G].
    + constructor; [now constructor|].
      constructor; [exact L|].
      eapply Forall_impl; [|exact Hf]. intros q Hq. simpl in *. lia.
    + constructor; [exact IH|].
      apply Forall_forall. intros q Hq. apply insert_index_In in Hq.
      destruct Hq as [-> | Hq]; [simpl; lia|].
      rewrite Forall_forall in Hf. now apply Hf.
Qed.

(** The pairs that [index_keys] sorts: each name with its index. *)
Lemma index_pairs_sorted (ks : list str) :
  let pairs :=
    fold_right
      (fun k acc =>
         match array_index k with
         | Some n => insert_index n k acc
         | None => acc
         end)
      [] ks in
  StronglySorted (fun p q => fst p <= fst q) pairs
  /\ Forall (fun p => array_index (snd p) = Some (fst p)) pairs
  /\ Permutation (map snd pairs) (filter is_index ks).
Proof.
  induction ks as [|k ks (S & F & P)]; cbn [fold_right filter].
  - repeat constructor.
  - unfold is_index at 1. destruct (array_index k) as [n|] eqn:E.
    + split; [now apply insert_index_sorted|]. split.
      * apply Forall_forall. intros q Hq. apply insert_index_In in Hq.
        destruct Hq as [-> | Hq]; [exact E|].
        rewrite Forall_forall in F. now apply F.
      * rewrite (Permutation_map snd (insert_index_Permutation n k _)).
        simpl. now constructor.
    + repeat split; assumption.
Qed.

Lemma index_keys_Permutation (ks : list str) :
  Permutation (index_keys ks) (filter is_index ks).
Proof. apply index_pairs_sorted. Qed.

(** The names that [index_keys] returns are array indices, in ascending
    order. *)
Lemma index_keys_sorted (ks : list str) : StronglySorted index_le (index_keys ks).
Proof.
  destruct (index_pairs_sorted ks) as (S & F & _). unfold index_keys.
  induction S as [|[n k] l Hl IH Hf]; simpl; [constructor|].
  inversion F as [|? ? Fk Fl]; subst. simpl in Fk.
  constructor; [now apply IH|].
  apply Forall_forall. intros k' Hk'. apply in_map_iff in Hk' as ([n' k''] & <- & Hq).
  rewrite Forall_forall in Hf, Fl. specialize (Hf _ Hq). specialize (Fl _ Hq).
  simpl in *. unfold index_le. now rewrite Fk, Fl.
Qed.

Lemma filter_partition {A : Type} (p : A -> bool) (l : list A) :
  Permutation (filter p l ++ filter (fun x => negb (p x)) l) l.
Proof.
  induction l as [|x l IH]; simpl; [reflexivity|].
  destruct (p x); simpl.
  - now constructor.
  - rewrite <- Permutation_middle. now constructor.
Qed.

Lemma keys_Permutation (o : object) : Permutation (keys o) (map fst o).
Proof.
  unfold keys. rewrite index_keys_Permutation. apply filter_partition.
Qed.

Lemma keys_In (o : object) (t : str) : In t (keys o) <-> In t (map fst o).
Proof.
  split; apply Permutation_in; [|symmetry]; apply keys_Permutation.
Qed.

Lemma counts_names (tokens : list str) : map fst (counts tokens) = Set_of tokens.
Proof. unfold counts. rewrite map_map. simpl. apply map_id. Qed.

Lemma keys_counts (tokens : list str) :
  Permutation (keys (counts tokens)) (Set_of tokens).
Proof. rewrite keys_Permutation. now rewrite counts_names. Qed.

Lemma sumZ_Permutation (f : str -> Z) (l l' : list str) :
  Permutation l l' -> sumZ f l = sumZ f l'.
Proof.
  induction 1; simpl; lia.
Qed.

(* ================================================================= *)
(** ** The sums of [cosineSim] *)

(** The terms that [cosineSim] iterates over. *)
Lemma cosine_sums_fold (a b terms : list str) : forall d ma mb,
  clean terms ->
  fold_left
    (fun '(dot, magA, magB) t =>
       let x := or_ (get (counts a) t) (Num (Int 0)) in
       let y := or_ (get (counts b) t) (Num (Int 0)) in
       (add dot (times x y), add magA (times x x), add magB (times y y)))
    terms (Int d, Int ma, Int mb)
  = (Int (d + sumZ (fun t => count t a * count t b) terms),
     Int (ma + sumZ (fun t => count t a * count t a) terms),
     Int (mb + sumZ (fun t => count t b * count t b) terms))%Z.
Proof.
  induction terms as [|t terms IH]; intros d ma mb C; simpl.
  - now rewrite !Z.add_0_r.
  - rewrite !get_counts by (apply C; now left). simpl.
    rewrite IH by (intros u Hu; apply C; now right).
    now rewrite !Z.add_assoc.
Qed.

Lemma cosine_sums_clean (a b : list str) :
  clean a -> clean b ->
  let terms := Set_of (Set_of a ++ Set_of b) in
  cosine_sums a b
  = (Int (sumZ (fun t => count t a * count t b) terms),
     Int (sumZ (fun t => count t a * count t a) terms),
     Int (sumZ (fun t => count t b * count t b) terms))%Z.
Proof.
  intros Ca Cb terms. unfold cosine_sums.
  rewrite !freq_counts by assumption.
  set (terms' := Set_of (keys (counts a) ++ keys (counts b))).
  assert (P : Permutation terms' terms).
  { apply NoDup_Permutation; try apply Set_of_NoDup.
    intros t. unfold terms', terms. rewrite !Set_of_In, !in_app_iff.
    split; (intros [H | H]; [left | right]);
      revert H; apply Permutation_in;
      try apply keys_counts; symmetry; apply keys_counts. }
  rewrite cosine_sums_fold.
  - now rewrite !(sumZ_Permutation _ _ _ P).
  - intros t Ht. apply (Permutation_in _ P) in Ht.
    apply -> Set_of_In in Ht. apply in_app_or in Ht.
    destruct Ht as [Ht | Ht]; apply -> Set_of_In in Ht; auto.
Qed.


Lemma sumZ_nonneg (f : str -> Z) (l : list str) :
  (forall t, 0 <= f t)%Z -> (0 <= sumZ f l)%Z.
Proof.
  intros H. induction l as [|t l IH]; simpl; [lia|]. specialize (H t). lia.
Qed.

Lemma sumZ_pos (f : str -> Z) (l : list str) (t : str) :
  (forall u, 0 <= f u)%Z -> In t l -> (1 <= f t)%Z -> (1 <= sumZ f l)%Z.
Proof.
  intros H. induction l as [|u l IH]; simpl; [easy|].
  pose proof (sumZ_nonneg f l H). pose proof (H u).
  intros [-> | Hin] Ht; [lia|]. specialize (IH Hin Ht). lia.
Qed.

Lemma sumZ_zero (f : str -> Z) (l : list str) :
  (forall t, f t = 0%Z) -> sumZ f l = 0%Z.
Proof.
  intros H. induction l as [|t l IH]; simpl; [reflexivity|]. rewrite H, IH. reflexivity.
Qed.

(** The sums for a sequence against itself: three times the same number,
    positive as soon as there is a token. *)
Lemma cosine_sums_self (tokens : list str) :
  clean tokens -> tokens <> [] ->
  let m := sumZ (fun t => count t tokens * count t tokens)%Z (Set_of tokens) in
  cosine_sums tokens tokens = (Int m, Int m, Int m) /\ (1 <= m)%Z.
Proof.
  intros C Hne m. split.
  - rewrite (cosine_sums_clean tokens tokens C C).
    rewrite (Set_of_twice (Set_of tokens) (Set_of_NoDup tokens)). reflexivity.
  - destruct tokens as [|h r]; [contradiction|].
    apply (sumZ_pos _ _ h).
    + intros u. apply Z.square_nonneg.
    + apply Set_of_In. now left.
    + pose proof (count_In h (h :: r) (or_introl eq_refl)). nia.
Qed.

(** Among the words the tokenizer can return, [constructor] is the only
    name that a fresh object inherits. *)
Lemma alnum_not_inherited (t : str) :
  Forall (fun c => alnum c = true) t -> t <> js "constructor" ->
  inherited t = false.
Proof.
  intros Ha Hc.
  assert (Hb : forallb alnum t = true).
  { apply forallb_forall.
    exact (proj1 (Forall_forall (fun c => alnum c = true) t) Ha). }
  destruct (inherited t) eqn:E; [exfalso | reflexivity].
  unfold inherited in E. apply orb_true_iff in E as [E | E].
  - apply Set_has_In in E. unfold Object_prototype_methods in E.
    simpl map in E.
    repeat (destruct E as [E | E];
            [subst t; first [now apply Hc | vm_compute in Hb; discriminate]|]).
    destruct E.
  - apply str_eqb_eq in E. subst t. vm_compute in Hb. discriminate.
Qed.

Lemma tokenize_clean (text : str) :
  ~ In (js "constructor") (tokenize text) -> clean (tokenize text).
Proof.
  intros H t Ht. destruct (tokenize_token text t Ht) as (_ & _ & Ha).
  apply alnum_not_inherited; [assumption|]. intros ->. contradiction.
Qed.

(* ================================================================= *)
(** ** The two scores *)

Lemma cosineSim_of_sums (a b : list str) (dot magA magB : number) :
  cosine_sums a b = (dot, magA, magB) ->
  cosineSim a b
  = (toFloat dot
     / (if float_truthy (PrimFloat.sqrt (toFloat magA) * PrimFloat.sqrt (toFloat magB))
        then PrimFloat.sqrt (toFloat magA) * PrimFloat.sqrt (toFloat magB)
        else 1))%float.
Proof. intros E. unfold cosineSim. now rewrite E. Qed.

Lemma cosineSim_empty_l (b : list str) : clean b -> cosineSim [] b = 0%float.
Proof.
  intros Cb.
  assert (Ca : clean []) by (intros t []).
  pose proof (cosine_sums_clean [] b Ca Cb) as E. cbv zeta in E.
  rewrite !(sumZ_zero (fun t => count t [] * _)%Z) in E by reflexivity.
  rewrite (cosineSim_of_sums _ _ _ _ _ E).
  rewrite float_mul_zero_l_falsy by reflexivity. reflexivity.
Qed.

Lemma cosineSim_empty_r (a : list str) : clean a -> cosineSim a [] = 0%float.
Proof.
  intros Ca.
  assert (Cb : clean []) by (intros t []).
  pose proof (cosine_sums_clean a [] Ca Cb) as E. cbv zeta in E.
  rewrite !(sumZ_zero (fun t => _ * count t [])%Z) in E
    by (intros; simpl; lia).
  rewrite (cosineSim_of_sums _ _ _ _ _ E).
  rewrite float_mul_zero_r_falsy by reflexivity. reflexivity.
Qed.


Lemma jaccard_self (S : list str) :
  NoDup S -> S <> [] -> (size S < 2 ^ 53)%Z -> jaccard S S = 1%float.
Proof.
  intros N Hne B. unfold jaccard.
  rewrite filter_all by (intros x Hx; now apply Set_has_In).
  rewrite Set_of_twice, Set_of_NoDup_id by assumption.
  assert (0 < size S)%Z by (unfold size; destruct S; [contradiction | simpl; lia]).
  destruct (Z.eqb_spec (size S) 0); [lia|].
  apply toFloat_div_self. lia.
Qed.


(* ================================================================= *)
(** ** The size of the sums *)

Lemma sumZ_plus (f g : str -> Z) (l : list str) :
  sumZ (fun t => f t + g t)%Z l = (sumZ f l + sumZ g l)%Z.
Proof. induction l as [|t l IH]; simpl; [reflexivity|]. rewrite IH. lia. Qed.

Lemma sumZ_indicator (x : str) (s : list str) :
  NoDup s -> (0 <= sumZ (fun t => if str_eqb t x then 1 else 0)%Z s <= 1)%Z.
Proof.
  induction 1 as [|u s Hu _ IH]; simpl; [lia|].
  destruct (str_eqb u x) eqn:E; [|lia].
  apply str_eqb_eq in E. subst u.
  assert (Z0 : sumZ (fun t => if str_eqb t x then 1 else 0)%Z s = 0%Z).
  { clear IH. induction s as [|v s IH]; simpl; [reflexivity|].
    destruct (str_eqb v x) eqn:E.
    - apply str_eqb_eq in E. subst v. exfalso. apply Hu. now left.
    - rewrite IH; [reflexivity|]. intros H. apply Hu. now right. }
  lia.
Qed.

(** Over distinct tokens, the counts add up to the length at most. *)
Lemma sumZ_count_le (l s : list str) :
  NoDup s ->
  (0 <= sumZ (fun t => count t l) s <= Z.of_nat (List.length l))%Z.
Proof.
  intros N. induction l as [|x l IH].
  - rewrite (sumZ_zero (fun t => count t [])) by reflexivity. simpl. lia.
  - cbn [count List.length]. rewrite sumZ_plus.
    pose proof (sumZ_indicator x s N). lia.
Qed.

Lemma sumZ_mul_le (f g : str -> Z) (s : list str) :
  (forall t, 0 <= f t)%Z -> (forall t, 0 <= g t)%Z ->
  (0 <= sumZ (fun t => f t * g t) s <= sumZ f s * sumZ g s)%Z.
Proof.
  intros Hf Hg. induction s as [|t s IH]; simpl; [lia|].
  pose proof (Hf t). pose proof (Hg t).
  pose proof (sumZ_nonneg f s Hf). pose proof (sumZ_nonneg g s Hg). nia.
Qed.

(** A sum of products of counts is at most the product of the lengths. *)
Lemma sumZ_counts_le (a b s : list str) :
  NoDup s ->
  (0 <= sumZ (fun t => count t a * count t b) s
   <= Z.of_nat (List.length a) * Z.of_nat (List.length b))%Z.
Proof.
  intros N.
  pose proof (sumZ_mul_le (fun t => count t a) (fun t => count t b) s
                (fun t => count_nonneg t a) (fun t => count_nonneg t b)) as M.
  pose proof (sumZ_count_le a s N). pose proof (sumZ_count_le b s N).
  split; [lia|]. apply Z.le_trans with (1 := proj2 M).
  apply Z.mul_le_mono_nonneg; lia.
Qed.

Lemma length_bound_53 (n n' : Z) :
  (0 <= n < 2 ^ 26)%Z -> (0 <= n' < 2 ^ 26)%Z -> (n * n' < 2 ^ 53)%Z.
Proof. intros H H'. change (2 ^ 53)%Z with (2 ^ 26 * (2 ^ 26 * 2))%Z. nia. Qed.

(* ================================================================= *)
(** ** The specification's statements about the scores *)


(** C7, with the rounding of the cosine.  A non-empty sequence free of
    inherited names gives [dot = magA = magB = m] against itself, for one
    integer [1 <= m] that is at most the square of the length.  As long as
    [m < 2^53], [cosineSim] returns the double [m / (sqrt m * sqrt m)] (the
    divisor is not 0), which is 1 to within 2e-15, above the threshold 0.78:
    each of the square root, the product and the quotient is rounded.  And
    [jaccard(S, S)] is the double 1 for every non-empty set of fewer than
    2^53 elements. *)
Theorem self_similarity (tokens S : list str) :
  clean tokens -> tokens <> [] ->
  NoDup S -> S <> [] -> (size S < 2 ^ 53)%Z ->
  (exists m : Z,
      (1 <= m <= Z.of_nat (List.length tokens) * Z.of_nat (List.length tokens))%Z
      /\ cosine_sums tokens tokens = (Int m, Int m, Int m)
      /\ ((m < 2 ^ 53)%Z ->
          cosineSim tokens tokens
          = (toFloat (Int m)
             / (PrimFloat.sqrt (toFloat (Int m))
                * PrimFloat.sqrt (toFloat (Int m))))%float
          /\ (0.999999999999998 <=? cosineSim tokens tokens)%float = true
          /\ (cosineSim tokens tokens <=? 1.000000000000002)%float = true
          /\ (0.78 <? cosineSim tokens tokens)%float = true))
  /\ jaccard S S = 1%float.
Proof.
  intros C Hne N HS B. split; [|now apply jaccard_self].
  destruct (cosine_sums_self tokens C Hne) as [E Hm].
  set (m := sumZ (fun t => count t tokens * count t tokens)%Z (Set_of tokens)) in *.
  exists m. split; [|split; [exact E|]].
  - split; [exact Hm|].
    exact (proj2 (sumZ_counts_le tokens tokens _ (Set_of_NoDup tokens))).
  - intros L. rewrite (cosineSim_of_sums _ _ _ _ _ E).
    destruct (toFloat_self_quotient m ltac:(lia)) as (T & Lo & Hi & Th).
    rewrite T. repeat split; assumption.
Qed.

(* ================================================================= *)
(** ** Verbatim copies *)

Lemma size_Set_of_ngrams (tokens : list str) :
  (3 <= List.length tokens)%nat ->
  Set_of (ngrams tokens 3) <> []
  /\ (size (Set_of (ngrams tokens 3)) <= Z.of_nat (List.length tokens))%Z.
Proof.
  intros H.
  assert (L : List.length (ngrams tokens 3) = (List.length tokens - 2)%nat)
    by (now rewrite ngrams_3_entries, length_map, length_seq).
  split.
  - intros E. apply Set_of_nil_inv in E.
    rewrite E in L. cbn [List.length] in L. lia.
  - unfold size. apply inj_le.
    pose proof (Set_of_length (ngrams tokens 3)). lia.
Qed.

(** One or two tokens against themselves: the sums are 1, 2 or 4, and the
    cosine is above the threshold for each. *)
Lemma sum_of_squares_short (tokens : list str) :
  tokens <> [] -> (List.length tokens <= 2)%nat ->
  let m := sumZ (fun t => count t tokens * count t tokens)%Z (Set_of tokens) in
  m = 1%Z \/ m = 2%Z \/ m = 4%Z.
Proof.
  intros Hne L.
  destruct tokens as [|t [|u [|? ?]]]; cbn [List.length] in L;
    try lia; try contradiction.
  - left. unfold Set_of. cbn [fold_left Set_add sumZ count].
    rewrite str_eqb_refl. reflexivity.
  - unfold Set_of. cbn [fold_left Set_add].
    destruct (str_eqb u t) eqn:E; cbn [sumZ count];
      rewrite ?str_eqb_refl, ?E, ?(str_eqb_sym t u), ?E; auto.
Qed.

Lemma cosineSim_self_short (tokens : list str) :
  clean tokens -> tokens <> [] -> (List.length tokens <= 2)%nat ->
  (0.78 <? cosineSim tokens tokens)%float = true.
Proof.
  intros C Hne L.
  destruct (cosine_sums_self tokens C Hne) as [E _]. cbv zeta in E.
  rewrite (cosineSim_of_sums _ _ _ _ _ E).
  destruct (sum_of_squares_short tokens Hne L) as [-> | [-> | ->]]; reflexivity.
Qed.

(** C3, for the candidates that have something to compare.  A candidate
    that is one of the references, word for word, is rejected with the
    hint of the code when its token sequence is not empty and either has
    three tokens at least (a trigram) or is free of the word
    [constructor]. *)
Theorem verbatim_copy_rejected (candidate : str) (refs : list str) :
  In candidate refs ->
  tokenize (stripHtml candidate) <> [] ->
  (3 <= List.length (tokenize (stripHtml candidate)))%nat
  \/ ~ In (js "constructor") (tokenize (stripHtml candidate)) ->
  (Z.of_nat (List.length (tokenize (stripHtml candidate))) < 2 ^ 53)%Z ->
  ensureNovelty candidate refs = {| ok := false; hint := Some HINT |}.
Proof.
  intros Hin Hne Hcase B. apply ensureNovelty_rejecting.
  exists candidate. split; [assumption|]. unfold exceeds.
  destruct (le_lt_dec 3 (List.length (tokenize (stripHtml candidate)))) as [L | L].
  - right. unfold jaccard_of.
    destruct (size_Set_of_ngrams _ L) as [N S].
    rewrite jaccard_self; [reflexivity | apply Set_of_NoDup | assumption | lia].
  - left. unfold cosine_of. apply cosineSim_self_short; [|assumption|lia].
    apply tokenize_clean. destruct Hcase as [H | H]; [lia | assumption].
Qed.

(* ================================================================= *)
(** ** The retry loop of [main] *)

Section RetryLoop.
Variable chat : nat -> option str.
Variable isUnique : verdict.
Variable refs : list str.

Lemma retry_rejected (fuel attempts : nat) (alt : str) :
  ok isUnique = false -> (attempts < 5)%nat ->
  chat attempts = Some alt -> ok (ensureNovelty alt refs) = false ->
  retry chat (S fuel) isUnique refs attempts
  = retry chat fuel isUnique refs (S attempts).
Proof.
  intros U A C R. cbn [retry]. rewrite U, C, R.
  apply Nat.ltb_lt in A. now rewrite A.
Qed.

Lemma retry_bound_reached (fuel attempts : nat) :
  (5 <= attempts)%nat -> retry chat fuel isUnique refs attempts = Left attempts.
Proof.
  intros A. apply Nat.ltb_ge in A.
  destruct fuel; cbn [retry]; now rewrite A, andb_false_r.
Qed.

(** The fuel [5 - attempts] is enough: the loop ends by itself. *)
Lemma retry_ends (fuel : nat) : forall attempts,
  (5 - attempts <= fuel)%nat ->
  retry chat fuel isUnique refs attempts <> OutOfFuel.
Proof.
  induction fuel as [|fuel IH]; intros attempts F; cbn [retry].
  - assert (A : (attempts <? 5)%nat = false) by (apply Nat.ltb_ge; lia).
    rewrite A, andb_false_r. discriminate.
  - destruct (negb (ok isUnique) && (attempts <? 5)%nat); [|discriminate].
    destruct (chat attempts) as [alt|]; [|discriminate].
    destruct (ok (ensureNovelty alt refs)); [discriminate|].
    apply IH. lia.
Qed.
End RetryLoop.

(** [main] always comes to an end: its loop never runs for ever, so the
    run writes a post or fails. *)
Theorem main_terminates (sha1_hex : str -> str) (todayISO : str)
    (chat : nat -> option str) (posts : list post) :
  main sha1_hex todayISO chat posts <> Diverged.
Proof.
  unfold main. destruct (chat 0%nat) as [generated|]; [|discriminate].
  cbv zeta.
  pose proof (retry_ends chat (ensureNovelty generated (map html (slice posts 0 15)))
                (map html (slice posts 0 15)) 4 1 ltac:(lia)) as H.
  destruct (retry chat 4 _ _ 1); try discriminate. contradiction.
Qed.

(** C2, with the candidate the code writes.  When the first answer of the
    model and its four rewrites are all rejected by the guard, the loop
    stops after these five generation attempts and [main] writes the first
    candidate, [generated], with the title and hashtags derived from it. *)
Theorem main_exhausted_writes_first (sha1_hex : str -> str) (todayISO : str)
    (chat : nat -> option str) (posts : list post) (cs : list str) :
  List.length cs = 5%nat ->
  (forall n, (n < 5)%nat -> chat n = nth_error cs n) ->
  Forall (fun c => ok (ensureNovelty c (map html (slice posts 0 15))) = false) cs ->
  main sha1_hex todayISO chat posts
  = Written Exhausted 5 (hd [] cs)
      (writePost sha1_hex todayISO posts (hd [] cs)
         (deriveTitle (hd [] cs)) (deriveHashtags (hd [] cs))).
Proof.
  intros Hlen Hchat Hrej.
  destruct cs as [|c0 [|c1 [|c2 [|c3 [|c4 [|? ?]]]]]]; try discriminate.
  inversion Hrej as [|? ? R0 Hrej1]; subst.
  inversion Hrej1 as [|? ? R1 Hrej2]; subst.
  inversion Hrej2 as [|? ? R2 Hrej3]; subst.
  inversion Hrej3 as [|? ? R3 Hrej4]; subst.
  inversion Hrej4 as [|? ? R4 _]; subst.
  unfold main. rewrite (Hchat 0%nat) by lia. cbn [nth_error hd]. cbv zeta.
  rewrite (retry_rejected chat _ _ 3 1 c1), (retry_rejected chat _ _ 2 2 c2),
    (retry_rejected chat _ _ 1 3 c3), (retry_rejected chat _ _ 0 4 c4),
    retry_bound_reached;
    try assumption; try lia; try (now rewrite Hchat by lia).
  now rewrite R0.
Qed.

(* ================================================================= *)
(** ** Concrete runs *)

(** C1: the hint of a rejecting verdict is not the sentence the
    specification quotes. *)
Lemma rejecting_hint_differs_from_spec_hint :
  ok (ensureNovelty (js "alpha beta gamma") [js "alpha beta gamma"]) = false
  /\ hint (ensureNovelty (js "alpha beta gamma") [js "alpha beta gamma"])
     <> Some spec_hint.
Proof.
  split; [vm_compute; reflexivity | vm_compute; discriminate].
Qed.

(** C2: after five rejections the feed starts with the first candidate,
    not with the one generated last. *)
Lemma main_exhausted_discards_last_candidate :
  main demo_sha1 demo_today demo_chat demo_posts
  = Written Exhausted 5 (js "alpha beta gamma delta")
      (writePost demo_sha1 demo_today demo_posts (js "alpha beta gamma delta")
         (js "alpha beta gamma delta") (map js ["ArtificialIntelligence"; "UserExperience"; "FutureOfWork"]%string))
  /\ demo_chat 4 = Some (js "Alpha! Beta! Gamma! Delta!")
  /\ js "alpha beta gamma delta" <> js "Alpha! Beta! Gamma! Delta!".
Proof.
  split; [vm_compute; reflexivity|].
  split; [reflexivity | vm_compute; discriminate].
Qed.

(** C3: a text made of stop words only is accepted although it is one of
    the references. *)
Lemma verbatim_stop_words_accepted :
  In (js "If it is to be, then be it.") [js "If it is to be, then be it."]
  /\ ensureNovelty (js "If it is to be, then be it.")
                   [js "If it is to be, then be it."]
     = {| ok := true; hint := None |}.
Proof. split; [now left | vm_compute; reflexivity]. Qed.


(** C5: an empty sequence against one that holds the word [constructor]
    gives NaN, not 0. *)
Theorem cosineSim_empty_against_constructor :
  tokenize (js "") = []
  /\ tokenize (js "constructor") = [js "constructor"]
  /\ cosineSim [] [js "constructor"] = nan
  /\ cosineSim [] [js "constructor"] <> 0%float.
Proof.
  repeat split; try (vm_compute; reflexivity).
  intros H. apply (f_equal PrimFloat.is_nan) in H. vm_compute in H. discriminate.
Qed.

(** C7: two distinct tokens against themselves give a cosine below 1. *)
Lemma cosineSim_self_below_one :
  map js ["x"; "y"]%string <> []
  /\ (cosineSim (map js ["x"; "y"]%string) (map js ["x"; "y"]%string) <? 1)%float
     = true.
Proof. split; [discriminate | vm_compute; reflexivity]. Qed.

(* ================================================================= *)
(** ** Instances *)

Lemma clean_x_y_z : clean (map js ["x"; "y"; "z"]%string).
Proof.
  intros t H. simpl in H.
  destruct H as [<- | [<- | [<- | []]]]; reflexivity.
Defined.

Lemma main_exhausted_writes_first_witness :
  List.length demo_candidates = 5%nat
  /\ Forall (fun c => ok (ensureNovelty c (map html (slice demo_posts 0 15))) = false)
       demo_candidates
  /\ main demo_sha1 demo_today demo_chat demo_posts
     = Written Exhausted 5 (hd [] demo_candidates)
         (writePost demo_sha1 demo_today demo_posts (hd [] demo_candidates)
            (deriveTitle (hd [] demo_candidates))
            (deriveHashtags (hd [] demo_candidates))).
Proof.
  assert (R : Forall (fun c => ok (ensureNovelty c (map html (slice demo_posts 0 15))) = false)
                demo_candidates)
    by (repeat constructor; vm_compute; reflexivity).
  split; [reflexivity|]. split; [exact R|].
  apply (main_exhausted_writes_first demo_sha1 demo_today demo_chat demo_posts
           demo_candidates eq_refl (fun n _ => eq_refl) R).
Defined.

Lemma verbatim_copy_rejected_witness :
  In (js "Ship the constructor pattern") [js "older"; js "Ship the constructor pattern"]
  /\ ensureNovelty (js "Ship the constructor pattern")
                   [js "older"; js "Ship the constructor pattern"]
     = {| ok := false; hint := Some HINT |}.
Proof.
  assert (Hin : In (js "Ship the constructor pattern")
                   [js "older"; js "Ship the constructor pattern"])
    by (right; left; reflexivity).
  split; [exact Hin|].
  apply (verbatim_copy_rejected _ _ Hin).
  - vm_compute. discriminate.
  - left. vm_compute. lia.
  - vm_compute. reflexivity.
Defined.


Lemma ensureNovelty_permutation_witness :
  Permutation [js "one two three"; js "alpha beta gamma"]
              [js "alpha beta gamma"; js "one two three"]
  /\ ensureNovelty (js "alpha beta gamma") [js "one two three"; js "alpha beta gamma"]
     = ensureNovelty (js "alpha beta gamma") [js "alpha beta gamma"; js "one two three"].
Proof.
  split; [apply perm_swap|].
  apply (ensureNovelty_permutation _ _ _ (perm_swap _ _ _)).
Defined.

Lemma self_similarity_witness :
  (0.999999999999998
   <=? cosineSim (map js ["x"; "y"; "z"]%string) (map js ["x"; "y"; "z"]%string))%float
  = true
  /\ (cosineSim (map js ["x"; "y"; "z"]%string) (map js ["x"; "y"; "z"]%string)
      <=? 1.000000000000002)%float = true
  /\ jaccard [js "x y z"] [js "x y z"] = 1%float.
Proof.
  destruct (self_similarity (map js ["x"; "y"; "z"]%string) [js "x y z"]
              clean_x_y_z)
    as [(m & [_ Hm] & _ & Hq) J].
  - discriminate.
  - repeat constructor. intros [].
  - discriminate.
  - vm_compute. reflexivity.
  - change (Z.of_nat (List.length (map js ["x"; "y"; "z"]%string))) with 3%Z in Hm.
    destruct Hq as (_ & Lo & Hi & _); [lia|].
    repeat split; assumption.
Defined.

(* ================================================================= *)
(** ** Further properties *)

(** Empty inputs.  Against the empty sequence every sequence free of
    inherited names has cosine 0, on either side, and two empty sets have
    Jaccard similarity 0: both denominators fall back to 1. *)
Theorem similarity_of_empty_input (tokens : list str) :
  clean tokens ->
  cosineSim [] tokens = 0%float
  /\ cosineSim tokens [] = 0%float
  /\ jaccard [] [] = 0%float.
Proof.
  intros C. split; [now apply cosineSim_empty_l|].
  split; [now apply cosineSim_empty_r | reflexivity].
Qed.

Lemma similarity_of_empty_input_witness :
  clean (map js ["x"; "y"; "z"]%string)
  /\ cosineSim [] (map js ["x"; "y"; "z"]%string) = 0%float
  /\ cosineSim (map js ["x"; "y"; "z"]%string) [] = 0%float
  /\ jaccard [] [] = 0%float.
Proof.
  split; [exact clean_x_y_z|].
  exact (similarity_of_empty_input _ clean_x_y_z).
Defined.

(** [freq] maps each distinct token to the number of its occurrences, and
    holds nothing else.  [Object.keys] lists the tokens that are array
    indices first, in ascending order, then the other tokens in the order
    of their first occurrence. *)
Theorem freq_counts_occurrences (tokens : list str) :
  clean tokens ->
  keys (freq tokens)
  = index_keys (Set_of tokens)
    ++ filter (fun k => negb (is_index k)) (Set_of tokens)
  /\ StronglySorted index_le (index_keys (Set_of tokens))
  /\ Permutation (index_keys (Set_of tokens)) (filter is_index (Set_of tokens))
  /\ (forall t, In t tokens -> get (freq tokens) t = Num (Int (count t tokens))
                               /\ (1 <= count t tokens)%Z)
  /\ (forall t, ~ In t tokens -> inherited t = false ->
                get (freq tokens) t = Undefined)
  /\ keys (freq (map js ["b"; "2"; "a"; "10"; "2"]%string))
     = map js ["2"; "10"; "b"; "a"]%string.
Proof.
  intros C. rewrite (freq_counts tokens C).
  split; [unfold keys; now rewrite counts_names|].
  split; [apply index_keys_sorted|].
  split; [apply index_keys_Permutation|].
  split; [|split; [|vm_compute; reflexivity]].
  - intros t Ht. split; [|now apply count_In].
    unfold get, counts. rewrite own_map.
    assert (E : Set_has (Set_of tokens) t = true)
      by (apply Set_has_In, Set_of_In; exact Ht).
    now rewrite E.
  - intros t Ht Hi. unfold get, counts. rewrite own_map.
    assert (E : Set_has (Set_of tokens) t = false).
    { apply Set_has_not_In. intros H. apply Ht. now apply Set_of_In. }
    now rewrite E, Hi.
Qed.

Lemma freq_counts_occurrences_witness :
  keys (freq (map js ["x"; "7"; "x"]%string)) = map js ["7"; "x"]%string
  /\ get (freq (map js ["x"; "7"; "x"]%string)) (js "x") = Num (Int 2).
Proof.
  assert (C : clean (map js ["x"; "7"; "x"]%string)).
  { intros t H. simpl in H. destruct H as [<- | [<- | [<- | []]]]; reflexivity. }
  destruct (freq_counts_occurrences _ C) as (K & _ & _ & G & _).
  split; [rewrite K; vm_compute; reflexivity|].
  exact (proj1 (G (js "x") (or_introl eq_refl))).
Defined.

(** With no reference the guard accepts. *)
Theorem ensureNovelty_no_reference (candidate : str) :
  ensureNovelty candidate [] = {| ok := true; hint := None |}.
Proof. reflexivity. Qed.

(** *** Symmetry *)

Lemma SFmul_comm (x y : spec_float) : SF64mul x y = SF64mul y x.
Proof.
  unfold SF64mul, SFmul.
  destruct x as [sx|sx| |sx mx ex], y as [sy|sy| |sy my ey];
    try reflexivity; try (now rewrite xorb_comm).
  now rewrite xorb_comm, Pos.mul_comm, Z.add_comm.
Qed.

Lemma float_mul_comm (x y : float) : (x * y)%float = (y * x)%float.
Proof.
  apply Prim2SF_inj. rewrite !FloatAxioms.mul_spec. apply SFmul_comm.
Qed.

Lemma sumZ_ext (f g : str -> Z) (l : list str) :
  (forall t, f t = g t) -> sumZ f l = sumZ g l.
Proof.
  intros H. induction l as [|t l IH]; simpl; [reflexivity|]. now rewrite H, IH.
Qed.

Lemma Set_of_app_Permutation (l l' : list str) :
  Permutation (Set_of (l ++ l')) (Set_of (l' ++ l)).
Proof.
  apply NoDup_Permutation; try apply Set_of_NoDup.
  intros x. rewrite !Set_of_In, !in_app_iff. tauto.
Qed.

(** Both measures are symmetric: [jaccard] for all sets, [cosineSim] for
    token sequences free of inherited names and shorter than 2^26 tokens.
    The three sums are then below 2^53, so that the loop adds them without
    rounding in whatever order it meets the terms, and those of [(b, a)]
    are those of [(a, b)] with the two magnitudes exchanged. *)
Theorem similarity_symmetric (a b aSet bSet : list str) :
  clean a -> clean b ->
  (Z.of_nat (List.length a) < 2 ^ 26)%Z ->
  (Z.of_nat (List.length b) < 2 ^ 26)%Z ->
  (exists dot magA magB : Z,
      cosine_sums a b = (Int dot, Int magA, Int magB)
      /\ cosine_sums b a = (Int dot, Int magB, Int magA)
      /\ (0 <= dot < 2 ^ 53 /\ 0 <= magA < 2 ^ 53 /\ 0 <= magB < 2 ^ 53)%Z)
  /\ cosineSim a b = cosineSim b a
  /\ jaccard aSet bSet = jaccard bSet aSet.
Proof.
  intros Ca Cb La Lb.
  pose proof (cosine_sums_clean a b Ca Cb) as E1.
  pose proof (cosine_sums_clean b a Cb Ca) as E2. cbv zeta in E1, E2.
  pose proof (Set_of_app_Permutation (Set_of b) (Set_of a)) as P.
  rewrite (sumZ_Permutation _ _ _ P) in E2.
  rewrite (sumZ_Permutation (fun t => count t a * count t a)%Z _ _ P) in E2.
  rewrite (sumZ_Permutation (fun t => count t b * count t b)%Z _ _ P) in E2.
  rewrite (sumZ_ext (fun t => count t b * count t a)%Z
                    (fun t => count t a * count t b)%Z) in E2
    by (intros; apply Z.mul_comm).
  set (terms := Set_of (Set_of a ++ Set_of b)) in *.
  assert (N : NoDup terms) by apply Set_of_NoDup.
  split; [|split].
  - do 3 eexists. split; [exact E1|]. split; [exact E2|].
    pose proof (sumZ_counts_le a b terms N).
    pose proof (sumZ_counts_le a a terms N).
    pose proof (sumZ_counts_le b b terms N).
    pose proof (length_bound_53 _ _ (conj (Nat2Z.is_nonneg _) La)
                  (conj (Nat2Z.is_nonneg _) Lb)).
    pose proof (length_bound_53 _ _ (conj (Nat2Z.is_nonneg _) La)
                  (conj (Nat2Z.is_nonneg _) La)).
    pose proof (length_bound_53 _ _ (conj (Nat2Z.is_nonneg _) Lb)
                  (conj (Nat2Z.is_nonneg _) Lb)).
    lia.
  - rewrite (cosineSim_of_sums _ _ _ _ _ E1), (cosineSim_of_sums _ _ _ _ _ E2).
    now rewrite (float_mul_comm (PrimFloat.sqrt (toFloat (Int (sumZ (fun t => count t a * count t a)%Z _))))).
  - unfold jaccard.
    assert (I : List.length (Set_of (filter (Set_has bSet) aSet))
                = List.length (Set_of (filter (Set_has aSet) bSet))).
    { apply Permutation_length. apply NoDup_Permutation; try apply Set_of_NoDup.
      intros x. rewrite !Set_of_In, !filter_In, !Set_has_In. tauto. }
    assert (U : List.length (Set_of (aSet ++ bSet))
                = List.length (Set_of (bSet ++ aSet)))
      by (apply Permutation_length, Set_of_app_Permutation).
    unfold size. now rewrite I, U.
Qed.

Lemma similarity_symmetric_witness :
  cosineSim (map js ["x"; "y"; "z"]%string) (map js ["x"; "y"; "x"]%string)
  = cosineSim (map js ["x"; "y"; "x"]%string) (map js ["x"; "y"; "z"]%string).
Proof.
  assert (C : clean (map js ["x"; "y"; "x"]%string)).
  { intros t H. simpl in H. destruct H as [<- | [<- | [<- | []]]]; reflexivity. }
  refine (proj1 (proj2 (similarity_symmetric _ _ [] [] clean_x_y_z C _ _)));
    vm_compute; reflexivity.
Defined.

(** *** Tokens that name a method of [Object.prototype] *)

Lemma own_put (o : object) (k t : str) (v : value) :
  own (put o k v) t = if str_eqb t k then Some v else own o t.
Proof.
  induction o as [|[k' v'] o IH]; simpl; [reflexivity|].
  destruct (str_eqb k k') eqn:E; simpl.
  - apply str_eqb_eq in E. subst k'. destruct (str_eqb t k); reflexivity.
  - rewrite IH. destruct (str_eqb t k') eqn:E'; [|reflexivity].
    apply str_eqb_eq in E'. subst k'.
    now rewrite (str_eqb_sym t k), E.
Qed.

Lemma method_not_proto_key (t : str) :
  Set_has Object_prototype_methods t = true -> str_eqb t proto_key = false.
Proof.
  intros H. apply Set_has_In in H. unfold Object_prototype_methods in H.
  simpl map in H.
  repeat (destruct H as [H | H]; [subst t; reflexivity|]).
  destruct H.
Qed.

Lemma method_inherited (t : str) :
  Set_has Object_prototype_methods t = true -> inherited t = true.
Proof. intros H. unfold inherited. now rewrite H. Qed.

(** In the frequency object, such a token never gets a count. *)
Lemma freq_method (tokens : list str) : forall t,
  Set_has Object_prototype_methods t = true ->
  own (freq tokens) t = if Set_has tokens t then Some Other else None.
Proof.
  induction tokens as [|k tokens IH] using rev_ind; intros t M; [reflexivity|].
  unfold freq. rewrite fold_left_app. fold (freq tokens). cbn [fold_left].
  assert (S : Set_has (tokens ++ [k]) t = Set_has tokens t || str_eqb t k).
  { unfold Set_has. rewrite existsb_app. simpl. now rewrite orb_false_r. }
  rewrite S. unfold set.
  destruct (str_eqb k proto_key) eqn:P.
  - apply str_eqb_eq in P. subst k.
    rewrite (method_not_proto_key t M), orb_false_r. now apply IH.
  - rewrite own_put. destruct (str_eqb t k) eqn:E.
    + apply str_eqb_eq in E. subst k. rewrite orb_true_r.
      unfold get. rewrite (IH t M), (method_inherited t M).
      destruct (Set_has tokens t); reflexivity.
    + rewrite orb_false_r. now apply IH.
Qed.

Lemma own_keys (o : object) (t : str) (v : value) :
  own o t = Some v -> In t (keys o).
Proof.
  intros H. apply keys_In. revert H.
  induction o as [|[k' v'] o IH]; simpl; [discriminate|].
  destruct (str_eqb t k') eqn:E.
  - apply str_eqb_eq in E. intros _. now left.
  - intros H. right. now apply IH.
Qed.

Lemma get_freq_method (tokens : list str) (t : str) :
  Set_has Object_prototype_methods t = true ->
  or_ (get (freq tokens) t) (Num (Int 0)) = Other.
Proof.
  intros M. unfold get. rewrite (freq_method tokens t M), (method_inherited t M).
  destruct (Set_has tokens t); reflexivity.
Qed.

Lemma cosine_fold_nan (A B : object) (terms : list str) :
  fold_left
    (fun '(dot, magA, magB) t =>
       let x := or_ (get A t) (Num (Int 0)) in
       let y := or_ (get B t) (Num (Int 0)) in
       (add dot (times x y), add magA (times x x), add magB (times y y)))
    terms (NaN, NaN, NaN)
  = (NaN, NaN, NaN).
Proof. induction terms as [|t terms IH]; simpl; [reflexivity | exact IH]. Qed.

Lemma cosine_fold_method (A B : object) (terms : list str) (t : str) :
  In t terms ->
  or_ (get A t) (Num (Int 0)) = Other -> or_ (get B t) (Num (Int 0)) = Other ->
  forall acc,
    fold_left
      (fun '(dot, magA, magB) t =>
         let x := or_ (get A t) (Num (Int 0)) in
         let y := or_ (get B t) (Num (Int 0)) in
         (add dot (times x y), add magA (times x x), add magB (times y y)))
      terms acc
    = (NaN, NaN, NaN).
Proof.
  intros Hin HA HB. induction terms as [|u terms IH]; [destruct Hin|].
  intros [[dot magA] magB]. cbn [fold_left].
  destruct Hin as [-> | Hin]; [|now apply IH].
  rewrite HA, HB. unfold times. simpl ToNumber.
  replace (add dot (mul NaN NaN)) with NaN by (now destruct dot).
  replace (add magA (mul NaN NaN)) with NaN by (now destruct magA).
  replace (add magB (mul NaN NaN)) with NaN by (now destruct magB).
  apply cosine_fold_nan.
Qed.

Lemma float_div_nan_l (d : float) : (nan / d)%float = nan.
Proof.
  apply Prim2SF_inj. rewrite FloatAxioms.div_spec.
  change (Prim2SF nan) with S754_nan. reflexivity.
Qed.

Lemma cosineSim_method_nan (a b : list str) (t : str) :
  In t (a ++ b) -> Set_has Object_prototype_methods t = true ->
  cosineSim a b = nan /\ (0.78 <? cosineSim a b)%float = false.
Proof.
  intros Hin M.
  assert (E : cosine_sums a b = (NaN, NaN, NaN)).
  { unfold cosine_sums.
    apply (cosine_fold_method _ _ _ t); try (now apply get_freq_method).
    apply Set_of_In. apply in_app_or in Hin. apply in_or_app.
    destruct Hin as [H | H]; [left | right];
      apply (own_keys _ _ Other); rewrite (freq_method _ t M);
      apply Set_has_In in H; now rewrite H. }
  assert (N : cosineSim a b = nan).
  { rewrite (cosineSim_of_sums _ _ _ _ _ E). apply float_div_nan_l. }
  split; [exact N | now rewrite N].
Qed.

(** A token that names a method of [Object.prototype], [constructor] for
    one, on either side turns the cosine into NaN, so that the cosine
    threshold cannot reject. *)
Theorem cosineSim_nan_of_method_name (a b : list str) (t : str) :
  In t (a ++ b) -> Set_has Object_prototype_methods t = true ->
  cosineSim a b = nan /\ (0.78 <? cosineSim a b)%float = false.
Proof. apply cosineSim_method_nan. Qed.

Lemma cosineSim_nan_of_method_name_witness :
  cosineSim (tokenize (js "Ship the constructor pattern"))
            (tokenize (js "Ship the constructor pattern")) = nan.
Proof.
  apply (cosineSim_nan_of_method_name _ _ (js "constructor")).
  - vm_compute. right. left. reflexivity.
  - reflexivity.
Defined.

(* ================================================================= *)
(** ** Tokenizing texts in pieces *)

Lemma filter_andb {A : Type} (p q : A -> bool) (l : list A) :
  filter (fun x => p x && q x) l = filter q (filter p l).
Proof.
  induction l as [|x l IH]; simpl; [reflexivity|].
  destruct (p x); simpl; [|exact IH].
  destruct (q x); now rewrite IH.
Qed.

Lemma tokenize_normalize (text : str) :
  tokenize text
  = filter (fun t => negb (Set_has STOP t))
      (filter nonempty (split_ws (normalize text))).
Proof. unfold tokenize. apply filter_andb. Qed.

Lemma normalize_app (a b : str) : normalize (a ++ b) = normalize a ++ normalize b.
Proof.
  unfold normalize, replace_class, toLowerCase. now rewrite !flat_map_app.
Qed.

Lemma split_go_in_run (b : str) :
  filter nonempty (split_go true [] b) = filter nonempty (split_go false [] b).
Proof.
  destruct b as [|c r]; simpl; [reflexivity|].
  destruct (is_space c); reflexivity.
Qed.

Lemma split_go_app_space (a : str) : forall sep cur c b,
  is_space c = true -> (sep = true -> cur = []) ->
  filter nonempty (split_go sep cur (a ++ c :: b))
  = filter nonempty (split_go sep cur a) ++ filter nonempty (split_go false [] b).
Proof.
  induction a as [|x a IH]; intros sep cur c b Hc Hs; simpl.
  - rewrite Hc. destruct sep.
    + rewrite (Hs eq_refl). simpl. apply split_go_in_run.
    + simpl. rewrite split_go_in_run. now destruct (nonempty (rev cur)).
  - destruct (is_space x).
    + destruct sep.
      * now apply IH.
      * simpl. rewrite (IH true [] c b Hc) by reflexivity.
        now destruct (nonempty (rev cur)).
    + apply IH; [assumption | discriminate].
Qed.

Lemma tokenize_split_at (a b : str) (c : char) :
  separator c = true -> tokenize (a ++ c :: b) = tokenize a ++ tokenize b.
Proof.
  intros Hc. rewrite !tokenize_normalize.
  change (a ++ c :: b) with (a ++ [c] ++ b). rewrite !normalize_app.
  unfold separator in Hc.
  destruct (normalize [c]) as [|d [|? ?]]; try discriminate.
  unfold split_ws. simpl app.
  rewrite (split_go_app_space _ false [] d _ Hc) by discriminate.
  now rewrite filter_app.
Qed.

(** Two texts with a separator between them (white space, punctuation, a
    markdown marker, a character outside ASCII) give the tokens of the
    first, then the tokens of the second. *)
Theorem tokenize_app_separator (a b : str) (c : char) :
  separator c = true -> tokenize (a ++ c :: b) = tokenize a ++ tokenize b.
Proof. apply tokenize_split_at. Qed.

Lemma tokenize_app_separator_witness :
  tokenize (js "Ship it" ++ 10 :: js "today") = tokenize (js "Ship it") ++ tokenize (js "today").
Proof. apply (tokenize_app_separator _ _ 10). reflexivity. Defined.

Lemma is_space_cases (c : char) :
  is_space c = true ->
  c = 9 \/ c = 10 \/ c = 11 \/ c = 12 \/ c = 13 \/ c = 32 \/ c = 0xA0
  \/ c = 0x1680 \/ (0x2000 <= c <= 0x200A) \/ c = 0x2028 \/ c = 0x2029
  \/ c = 0x202F \/ c = 0x205F \/ c = 0x3000 \/ c = 0xFEFF.
Proof.
  unfold is_space, in_range.
  rewrite !orb_true_iff, !andb_true_iff, !N.leb_le, !N.eqb_eq. lia.
Qed.

Lemma is_space_separator (c : char) : is_space c = true -> separator c = true.
Proof.
  intros H. pose proof (is_space_cases c H) as C.
  assert (U : is_upper c = false).
  { unfold is_upper, in_range. apply andb_false_iff.
    rewrite !N.leb_gt. lia. }
  assert (K : (c =? 0x212A) = false) by (apply N.eqb_neq; lia).
  assert (I : (c =? 0x130) = false) by (apply N.eqb_neq; lia).
  assert (M : is_md_marker c = false).
  { unfold is_md_marker. rewrite !orb_false_iff, !N.eqb_neq. lia. }
  unfold separator, normalize, toLowerCase, replace_class, lower_unit.
  simpl. rewrite U, K, I. simpl. rewrite M. simpl.
  unfold not_word_or_space. rewrite H, orb_true_r. simpl. exact H.
Qed.

Lemma tokenize_spaces (s : str) : Forall (fun c => is_space c = true) s -> tokenize s = [].
Proof.
  induction 1 as [|c s Hc _ IH]; [reflexivity|].
  change (c :: s) with ([] ++ c :: s).
  rewrite (tokenize_split_at [] s c (is_space_separator c Hc)). exact IH.
Qed.

Lemma tokenize_spaces_l (sp s : str) :
  Forall (fun c => is_space c = true) sp -> tokenize (sp ++ s) = tokenize s.
Proof.
  induction 1 as [|c sp Hc _ IH]; [reflexivity|].
  change ((c :: sp) ++ s) with ([] ++ c :: (sp ++ s)).
  rewrite (tokenize_split_at [] (sp ++ s) c (is_space_separator c Hc)).
  exact IH.
Qed.

Lemma tokenize_spaces_r (s sp : str) :
  Forall (fun c => is_space c = true) sp -> tokenize (s ++ sp) = tokenize s.
Proof.
  intros H. destruct sp as [|c sp]; [now rewrite app_nil_r|].
  inversion H as [|? ? Hc Hsp]; subst.
  rewrite (tokenize_split_at s sp c (is_space_separator c Hc)).
  now rewrite (tokenize_spaces sp Hsp), app_nil_r.
Qed.

Lemma drop_while_split (p : char -> bool) (s : str) :
  exists pre, s = pre ++ drop_while p s /\ Forall (fun c => p c = true) pre.
Proof.
  induction s as [|c s (pre & E & F)]; simpl.
  - exists []. split; [reflexivity | constructor].
  - destruct (p c) eqn:P.
    + exists (c :: pre). split; [simpl; now f_equal | now constructor].
    + exists []. split; [reflexivity | constructor].
Qed.

Lemma trim_split (s : str) :
  exists pre post,
    s = pre ++ trim s ++ post
    /\ Forall (fun c => is_space c = true) pre
    /\ Forall (fun c => is_space c = true) post.
Proof.
  destruct (drop_while_split is_space s) as (pre & E1 & F1).
  destruct (drop_while_split is_space (rev (drop_while is_space s)))
    as (pre2 & E2 & F2).
  exists pre, (rev pre2). repeat split; [|assumption | now apply Forall_rev].
  unfold trim. rewrite E1 at 1. f_equal.
  rewrite <- (rev_involutive (drop_while is_space s)) at 1.
  rewrite E2 at 1. now rewrite rev_app_distr.
Qed.

(** [trim] does not change the tokens. *)
Lemma tokenize_trim (s : str) : tokenize (trim s) = tokenize s.
Proof.
  destruct (trim_split s) as (pre & post & E & F1 & F2).
  rewrite E at 2. now rewrite tokenize_spaces_l, tokenize_spaces_r.
Qed.

(* ================================================================= *)
(** ** Lines *)

Lemma split_lines_go_cons (s : str) : forall cur, split_lines_go cur s <> [].
Proof.
  induction s as [|c s IH]; intros cur; simpl; [discriminate|].
  destruct (c =? 10); [discriminate | apply IH].
Qed.

Lemma join_cons (sep x : str) (l : list str) :
  l <> [] -> join sep (x :: l) = x ++ sep ++ join sep l.
Proof. destruct l; [contradiction | reflexivity]. Qed.

Lemma join_split_lines_go (s : str) : forall cur,
  join [10] (split_lines_go cur s) = rev cur ++ s.
Proof.
  induction s as [|c s IH]; intros cur; simpl split_lines_go.
  - simpl. now rewrite app_nil_r.
  - destruct (N.eqb_spec c 10) as [-> | N].
    + rewrite join_cons by apply split_lines_go_cons. now rewrite IH.
    + rewrite IH. simpl. now rewrite <- app_assoc.
Qed.

(** Splitting into lines and joining them again gives the text back. *)
Lemma join_split_lines (s : str) : join [10] (split_lines s) = s.
Proof. apply (join_split_lines_go s []). Qed.

Lemma split_lines_go_Forall (P : char -> Prop) (s : str) : forall cur,
  Forall P cur -> Forall P s -> Forall (Forall P) (split_lines_go cur s).
Proof.
  induction s as [|c s IH]; intros cur Hcur Hs; simpl.
  - constructor; [now apply Forall_rev | constructor].
  - inversion Hs; subst. destruct (c =? 10).
    + constructor; [now apply Forall_rev | apply IH; auto].
    + apply IH; auto.
Qed.

Lemma split_lines_Forall (P : char -> Prop) (s : str) :
  Forall P s -> Forall (Forall P) (split_lines s).
Proof. intros H. apply split_lines_go_Forall; auto. Qed.

Lemma split_lines_go_no_newline (s : str) : forall cur,
  Forall (fun c => c <> 10) cur ->
  Forall (Forall (fun c => c <> 10)) (split_lines_go cur s).
Proof.
  induction s as [|c s IH]; intros cur Hcur; simpl.
  - constructor; [now apply Forall_rev | constructor].
  - destruct (N.eqb_spec c 10).
    + constructor; [now apply Forall_rev | apply IH; constructor].
    + apply IH. now constructor.
Qed.

Lemma drop_while_Forall (P : char -> Prop) (p : char -> bool) (s : str) :
  Forall P s -> Forall P (drop_while p s).
Proof.
  induction 1 as [|c s Hc Hs IH]; simpl; [constructor|].
  destruct (p c); [assumption | now constructor].
Qed.

Lemma trim_Forall (P : char -> Prop) (s : str) : Forall P s -> Forall P (trim s).
Proof.
  intros H. unfold trim.
  apply Forall_rev, drop_while_Forall, Forall_rev, drop_while_Forall, H.
Qed.

Lemma strip_bullet_Forall (P : char -> Prop) (l : str) :
  Forall P l -> Forall P (strip_bullet l).
Proof.
  intros H. destruct l as [|b [|c r]]; simpl; try constructor.
  inversion H as [|? ? _ H']; subst.
  destruct (is_space c); [now inversion H' | assumption].
Qed.

Lemma tokenize_join (c : char) (ls : list str) :
  separator c = true -> tokenize (join [c] ls) = List.concat (map tokenize ls).
Proof.
  intros Hc. induction ls as [|x ls IH]; [reflexivity|].
  destruct ls as [|y ls].
  - simpl. now rewrite app_nil_r.
  - rewrite join_cons by discriminate.
    change (x ++ [c] ++ join [c] (y :: ls)) with (x ++ c :: join [c] (y :: ls)).
    rewrite tokenize_split_at by assumption. now rewrite IH.
Qed.

(** The tokens of a text are the tokens of its lines. *)
Lemma tokenize_lines (text : str) :
  tokenize text = List.concat (map tokenize (split_lines text)).
Proof.
  rewrite <- (join_split_lines text) at 1. now apply tokenize_join.
Qed.

(* ================================================================= *)
(** ** Escaping and stripping *)

Lemma escapeHtml_plain (s : str) :
  Forall (fun c => plain c = true) s -> escapeHtml s = s.
Proof.
  induction 1 as [|c s Hc _ IH]; [reflexivity|].
  unfold escapeHtml in *. simpl. rewrite IH.
  unfold plain in Hc. apply negb_true_iff in Hc.
  rewrite !orb_false_iff in Hc. destruct Hc as [[[H1 H2] H3] H4].
  unfold escape_unit. now rewrite H1, H2, H3, H4.
Qed.

Lemma stripHtml_go_no_lt (x y : str) :
  Forall (fun c => (c =? 60) = false) x ->
  stripHtml_go 0 (x ++ y) = x ++ stripHtml_go 0 y.
Proof.
  induction 1 as [|c x Hc _ IH]; [reflexivity|].
  simpl. now rewrite Hc, IH.
Qed.

Lemma plain_no_lt (s : str) :
  Forall (fun c => plain c = true) s -> Forall (fun c => (c =? 60) = false) s.
Proof.
  apply Forall_impl. intros c H. unfold plain in H.
  apply negb_true_iff in H. rewrite !orb_false_iff in H. tauto.
Qed.

Lemma stripHtml_paragraph (l y : str) :
  Forall (fun c => plain c = true) l ->
  stripHtml_go 0 ((js "<p>" ++ escapeHtml l ++ js "</p>") ++ y)
  = 32 :: l ++ 32 :: stripHtml_go 0 y.
Proof.
  intros H. rewrite (escapeHtml_plain l H).
  change (stripHtml_go 0 ((js "<p>" ++ l ++ js "</p>") ++ y))
    with (32 :: stripHtml_go 0 ((l ++ js "</p>") ++ y)).
  rewrite <- app_assoc, stripHtml_go_no_lt by now apply plain_no_lt.
  reflexivity.
Qed.

Lemma stripHtml_item (l y : str) :
  Forall (fun c => plain c = true) l ->
  stripHtml_go 0 ((js "<li>" ++ escapeHtml l ++ js "</li>") ++ y)
  = 32 :: l ++ 32 :: stripHtml_go 0 y.
Proof.
  intros H. rewrite (escapeHtml_plain l H).
  change (stripHtml_go 0 ((js "<li>" ++ l ++ js "</li>") ++ y))
    with (32 :: stripHtml_go 0 ((l ++ js "</li>") ++ y)).
  rewrite <- app_assoc, stripHtml_go_no_lt by now apply plain_no_lt.
  reflexivity.
Qed.

Lemma stripHtml_paragraph_line (l : str) :
  Forall (fun c => plain c = true) l ->
  stripHtml (js "<p>" ++ escapeHtml l ++ js "</p>") = 32 :: l ++ [32].
Proof.
  intros H. unfold stripHtml.
  rewrite <- (app_nil_r (js "<p>" ++ _ ++ js "</p>")).
  now rewrite stripHtml_paragraph.
Qed.

Lemma stripHtml_item_line (l : str) :
  Forall (fun c => plain c = true) l ->
  stripHtml (js "<li>" ++ escapeHtml l ++ js "</li>") = 32 :: l ++ [32].
Proof.
  intros H. unfold stripHtml.
  rewrite <- (app_nil_r (js "<li>" ++ _ ++ js "</li>")).
  now rewrite stripHtml_item.
Qed.

Lemma tokenize_between_spaces (l : str) : tokenize (32 :: l ++ [32]) = tokenize l.
Proof.
  change (32 :: l ++ [32]) with ([32] ++ l ++ [32]).
  rewrite tokenize_spaces_l, tokenize_spaces_r; auto.
Qed.

Lemma tokenize_strip_bullet (l : str) :
  is_bullet l = true -> tokenize (strip_bullet l) = tokenize l.
Proof.
  destruct l as [|b r]; [discriminate|]. simpl is_bullet. intros B.
  assert (S : separator b = true).
  { rewrite !orb_true_iff, !N.eqb_eq in B.
    destruct B as [[-> | ->] | ->]; reflexivity. }
  change (b :: r) with ([] ++ b :: r) at 2.
  rewrite (tokenize_split_at [] r b S). simpl app.
  destruct r as [|c r]; [reflexivity|]. simpl strip_bullet.
  destruct (is_space c) eqn:E; [|reflexivity].
  change (c :: r) with ([] ++ c :: r).
  now rewrite (tokenize_split_at [] r c (is_space_separator c E)).
Qed.

(* ================================================================= *)
(** ** What the guard reads in a stored post *)

Lemma stripHtml_no_lt (s : str) :
  Forall (fun c => (c =? 60) = false) s -> stripHtml s = s.
Proof.
  intros H. unfold stripHtml.
  rewrite <- (app_nil_r s) at 1. rewrite stripHtml_go_no_lt by assumption.
  apply app_nil_r.
Qed.

(** Every line that [toHtml] produces closes the tags it opens. *)
Lemma toHtml_go_closed (ls : list str) : forall inList,
  Forall (Forall (fun c => plain c = true)) ls ->
  Forall (fun h => forall y,
            stripHtml_go 0 (h ++ y) = stripHtml_go 0 h ++ stripHtml_go 0 y)
         (toHtml_go inList ls).
Proof.
  assert (U : forall inList : bool,
             Forall (fun h => forall y,
                       stripHtml_go 0 (h ++ y) = stripHtml_go 0 h ++ stripHtml_go 0 y)
                    (if inList then [] else [ul_open]))
    by (intros []; repeat constructor; intros y; reflexivity).
  assert (V : forall inList : bool,
             Forall (fun h => forall y,
                       stripHtml_go 0 (h ++ y) = stripHtml_go 0 h ++ stripHtml_go 0 y)
                    (if inList then [js "</ul>"] else []))
    by (intros []; repeat constructor; intros y; reflexivity).
  induction ls as [|l ls IH]; intros inList H; cbn [toHtml_go].
  - apply V.
  - inversion H as [|? ? Hl Hls]; subst.
    destruct (is_bullet l).
    + apply Forall_app. split; [apply U|].
      constructor; [|now apply IH]. intros y.
      pose proof (strip_bullet_Forall _ l Hl) as Hb.
      rewrite stripHtml_item by assumption.
      fold (stripHtml (js "<li>" ++ escapeHtml (strip_bullet l) ++ js "</li>")).
      rewrite stripHtml_item_line by assumption.
      now rewrite <- app_comm_cons, <- app_assoc.
    + destruct (nonempty l).
      * constructor; [|now apply IH]. intros y.
        rewrite stripHtml_paragraph by assumption.
        fold (stripHtml (js "<p>" ++ escapeHtml l ++ js "</p>")).
        rewrite stripHtml_paragraph_line by assumption.
        now rewrite <- app_comm_cons, <- app_assoc.
      * apply Forall_app. split; [apply V | now apply IH].
Qed.

Lemma toHtml_go_tokens (ls : list str) : forall inList,
  Forall (Forall (fun c => plain c = true)) ls ->
  List.concat (map (fun h => tokenize (stripHtml h)) (toHtml_go inList ls))
  = List.concat (map tokenize ls).
Proof.
  assert (U : forall inList : bool,
             List.concat (map (fun h => tokenize (stripHtml h))
                            (if inList then [] else [ul_open])) = [])
    by (intros []; reflexivity).
  assert (V : forall inList : bool,
             List.concat (map (fun h => tokenize (stripHtml h))
                            (if inList then [js "</ul>"] else [])) = [])
    by (intros []; reflexivity).
  induction ls as [|l ls IH]; intros inList H; cbn [toHtml_go].
  - apply V.
  - inversion H as [|? ? Hl Hls]; subst.
    cbn [map List.concat].
    destruct (is_bullet l) eqn:B.
    + rewrite map_app, concat_app, U. cbn [map List.concat app].
      pose proof (strip_bullet_Forall _ l Hl) as Hb.
      rewrite stripHtml_item_line by assumption.
      rewrite tokenize_between_spaces, tokenize_strip_bullet by assumption.
      now rewrite IH.
    + destruct (nonempty l) eqn:N.
      * cbn [map List.concat].
        rewrite stripHtml_paragraph_line by assumption.
        rewrite tokenize_between_spaces. now rewrite IH.
      * destruct l; [|discriminate].
        rewrite map_app, concat_app, V, IH by assumption. reflexivity.
Qed.

Lemma stripHtml_join (hs : list str) :
  Forall (fun h => forall y,
            stripHtml_go 0 (h ++ y) = stripHtml_go 0 h ++ stripHtml_go 0 y) hs ->
  stripHtml (join [10] hs) = join [10] (map stripHtml hs).
Proof.
  induction 1 as [|h hs Hh _ IH]; [reflexivity|].
  destruct hs as [|h' hs]; [reflexivity|].
  rewrite (join_cons [10] h (h' :: hs)) by discriminate.
  change (map stripHtml (h :: h' :: hs))
    with (stripHtml h :: stripHtml h' :: map stripHtml hs).
  rewrite (join_cons [10] (stripHtml h)) by discriminate.
  unfold stripHtml at 1. rewrite Hh.
  change (stripHtml_go 0 ([10] ++ join [10] (h' :: hs)))
    with (10 :: stripHtml (join [10] (h' :: hs))).
  rewrite IH. reflexivity.
Qed.

Lemma rendered_tokens (body : str) :
  Forall (fun c => plain c = true) body ->
  tokenize (stripHtml (toHtml body)) = tokenize body
  /\ tokenize (stripHtml body) = tokenize body.
Proof.
  intros H. split.
  - assert (L : Forall (Forall (fun c => plain c = true))
                  (map trim (split_lines body))).
    { apply Forall_map. eapply Forall_impl; [|apply split_lines_Forall, H].
      intros l. apply trim_Forall. }
    unfold toHtml.
    rewrite stripHtml_join by (apply toHtml_go_closed, L).
    rewrite tokenize_join by reflexivity.
    rewrite map_map, (toHtml_go_tokens _ false L), map_map.
    rewrite (map_ext _ tokenize tokenize_trim).
    symmetry. apply tokenize_lines.
  - now rewrite stripHtml_no_lt by now apply plain_no_lt.
Qed.

(** The guard reads a stored post as the text it was made from: when the
    text has none of the four characters that [escapeHtml] rewrites, the
    tokens of its rendering, markup stripped, are the tokens of the text. *)
Theorem stored_post_tokens (body : str) :
  Forall (fun c => plain c = true) body ->
  tokenize (stripHtml (toHtml body)) = tokenize body
  /\ tokenize (stripHtml body) = tokenize body.
Proof. apply rendered_tokens. Qed.

Lemma stored_post_tokens_witness :
  tokenize (stripHtml (toHtml demo_body)) = tokenize demo_body
  /\ tokenize (stripHtml demo_body) = tokenize demo_body.
Proof.
  apply stored_post_tokens. vm_compute. repeat constructor.
Defined.

Lemma ensureNovelty_rendered (candidate : str) (bodies : list str) :
  Forall (Forall (fun c => plain c = true)) bodies ->
  ensureNovelty candidate (map toHtml bodies) = ensureNovelty candidate bodies.
Proof.
  intros H. unfold ensureNovelty. rewrite !ensureNovelty_loop_existsb.
  set (ct := tokenize (stripHtml candidate)).
  set (tri := Set_of (ngrams ct 3)).
  assert (E : existsb (too_similar ct tri) (map toHtml bodies)
              = existsb (too_similar ct tri) bodies).
  { induction H as [|b bodies Hb _ IH]; [reflexivity|]. simpl.
    rewrite IH. f_equal. unfold too_similar.
    destruct (rendered_tokens b Hb) as [-> ->]. reflexivity. }
  now rewrite E.
Qed.

(** So the guard decides on rendered posts as it would on their texts. *)
Theorem ensureNovelty_on_rendered_posts (candidate : str) (bodies : list str) :
  Forall (Forall (fun c => plain c = true)) bodies ->
  ensureNovelty candidate (map toHtml bodies) = ensureNovelty candidate bodies.
Proof. apply ensureNovelty_rendered. Qed.

Lemma ensureNovelty_on_rendered_posts_witness :
  ensureNovelty demo_line (map toHtml [demo_body; demo_line])
  = ensureNovelty demo_line [demo_body; demo_line].
Proof.
  apply ensureNovelty_on_rendered_posts. vm_compute. repeat constructor.
Defined.

(** Once a post is written, the same text is rejected at the next run: the
    entry that [writePost] puts first holds the rendering of the body, and
    the guard recognizes it (three tokens at least make a trigram). *)
Theorem written_post_blocks_its_text (sha1_hex : str -> str) (todayISO : str)
    (posts : list post) (body title_ : str) (hashtags_ : list str) :
  Forall (fun c => plain c = true) body ->
  (3 <= List.length (tokenize body))%nat ->
  (Z.of_nat (List.length (tokenize body)) < 2 ^ 53)%Z ->
  ensureNovelty body
    (map html (slice (writePost sha1_hex todayISO posts body title_ hashtags_) 0 15))
  = {| ok := false; hint := Some HINT |}.
Proof.
  intros P L B. apply ensureNovelty_rejecting.
  exists (toHtml body). split; [now left|].
  right. unfold jaccard_of.
  destruct (rendered_tokens body P) as [-> ->].
  destruct (size_Set_of_ngrams _ L) as [N S].
  rewrite jaccard_self; [reflexivity | apply Set_of_NoDup | assumption | lia].
Qed.

Lemma written_post_blocks_its_text_witness :
  ensureNovelty demo_line
    (map html (slice (writePost demo_sha1 demo_today demo_posts
                        demo_line (js "Speed") []) 0 15))
  = {| ok := false; hint := Some HINT |}.
Proof.
  apply written_post_blocks_its_text.
  - vm_compute. repeat constructor.
  - vm_compute. lia.
  - vm_compute. reflexivity.
Defined.

(* ================================================================= *)
(** ** Markup stripping *)

Lemma stripHtml_go_length (s : str) : forall k,
  (List.length (stripHtml_go k s) <= List.length s)%nat.
Proof.
  induction s as [|c s IH]; intros k; simpl; [lia|].
  destruct k as [|k]; [|specialize (IH k); lia].
  destruct (c =? 60); [destruct (tag_rest s) as [k|]|]; simpl;
    first [specialize (IH k) | specialize (IH O)]; lia.
Qed.

Lemma no_tag_stripHtml (s : str) : no_tag s -> stripHtml_go 0 s = s.
Proof.
  induction s as [|c s IH]; simpl; [reflexivity|].
  intros [H N]. destruct (N.eqb_spec c 60) as [E | E].
  - rewrite (H E). now rewrite IH.
  - now rewrite IH.
Qed.

Lemma tag_rest_no_gt (x : str) : Forall (fun c => c <> 62) x -> tag_rest x = None.
Proof.
  induction 1 as [|c x Hc Hx IH]; simpl; [reflexivity|].
  destruct (N.eqb_spec c 62); [contradiction|].
  destruct x as [|d x]; [reflexivity|].
  inversion Hx; subst. destruct (N.eqb_spec d 62); [contradiction|].
  now rewrite IH.
Qed.

Lemma tag_rest_None (r : str) :
  tag_rest r = None ->
  r = [] \/ (exists r', r = 62 :: r') \/ Forall (fun c => c <> 62) r.
Proof.
  induction r as [|c r IH]; [now left|]. simpl.
  destruct (N.eqb_spec c 62) as [-> | Hc]; [intros _; right; left; eauto|].
  destruct r as [|d r]; [intros _; right; right; repeat constructor; assumption|].
  destruct (N.eqb_spec d 62) as [-> | Hd]; [discriminate|].
  intros H. destruct (tag_rest (d :: r)) eqn:E; [discriminate|].
  destruct (IH eq_refl) as [F | [[r' F] | F]]; try discriminate.
  - injection F as -> _. contradiction.
  - right; right. now constructor.
Qed.

Lemma stripHtml_go_no_gt (s : str) : forall k,
  Forall (fun c => c <> 62) s -> Forall (fun c => c <> 62) (stripHtml_go k s).
Proof.
  induction s as [|c s IH]; intros k H; simpl; [constructor|].
  inversion H; subst.
  destruct k as [|k]; [|now apply IH].
  destruct (c =? 60); [destruct (tag_rest s)|];
    constructor; try (now apply IH); try assumption. lia.
Qed.

Lemma stripHtml_go_tag_rest (r : str) :
  tag_rest r = None -> tag_rest (stripHtml_go 0 r) = None.
Proof.
  intros H. destruct (tag_rest_None r H) as [-> | [[r' ->] | F]].
  - reflexivity.
  - reflexivity.
  - apply tag_rest_no_gt. now apply stripHtml_go_no_gt.
Qed.

Lemma stripHtml_go_no_tag (s : str) : forall k, no_tag (stripHtml_go k s).
Proof.
  induction s as [|c s IH]; intros k; simpl; [exact I|].
  destruct k as [|k]; [|apply IH].
  destruct (N.eqb_spec c 60) as [-> | E].
  - destruct (tag_rest s) as [k|] eqn:T; simpl.
    + split; [discriminate | apply IH].
    + split; [intros _; now apply stripHtml_go_tag_rest | apply IH].
  - simpl. split; [contradiction | apply IH].
Qed.

(** [stripHtml] never lengthens a text, leaves no tag behind (a second pass
    changes nothing), and leaves a text without [<] as it is. *)
Theorem stripHtml_strips (s : str) :
  (List.length (stripHtml s) <= List.length s)%nat
  /\ no_tag (stripHtml s)
  /\ stripHtml (stripHtml s) = stripHtml s
  /\ (Forall (fun c => c <> 60) s -> stripHtml s = s).
Proof.
  split; [apply stripHtml_go_length|].
  split; [apply stripHtml_go_no_tag|].
  split; [apply no_tag_stripHtml, stripHtml_go_no_tag|].
  intros H. apply stripHtml_no_lt.
  eapply Forall_impl; [|exact H]. intros c Hc. now apply N.eqb_neq.
Qed.

(* ================================================================= *)
(** ** Escaping *)

Lemma escape_unit_cases (c : char) :
  (c = 38 /\ escape_unit c = js "&amp;")
  \/ (c = 60 /\ escape_unit c = js "&lt;")
  \/ (c = 62 /\ escape_unit c = js "&gt;")
  \/ (c = 34 /\ escape_unit c = js "&quot;")
  \/ (c <> 38 /\ c <> 60 /\ c <> 62 /\ c <> 34 /\ escape_unit c = [c]).
Proof.
  unfold escape_unit.
  destruct (N.eqb_spec c 38); [now left|].
  destruct (N.eqb_spec c 60); [now right; left|].
  destruct (N.eqb_spec c 62); [now right; right; left|].
  destruct (N.eqb_spec c 34); [now right; right; right; left|].
  right; right; right; right. auto.
Qed.

(** The output of [escapeHtml] has no [<], [>] or double quote. *)
Lemma escapeHtml_safe (s : str) :
  Forall (fun c => c <> 60 /\ c <> 62 /\ c <> 34) (escapeHtml s).
Proof.
  unfold escapeHtml. apply Forall_flat_map. apply Forall_forall. intros c _.
  destruct (escape_unit_cases c) as [[_ ->] | [[_ ->] | [[_ ->] | [[_ ->] | (A & B & C & D & ->)]]]];
    repeat constructor; try discriminate; assumption.
Qed.

(** [escapeHtml] never maps two texts to the same output. *)
Lemma escapeHtml_injective (s : str) : forall t,
  escapeHtml s = escapeHtml t -> s = t.
Proof.
  unfold escapeHtml.
  induction s as [|c s IH]; intros [|d t] E; cbn [flat_map] in E.
  - reflexivity.
  - exfalso.
    destruct (escape_unit_cases d) as [[_ H] | [[_ H] | [[_ H] | [[_ H] | (_ & _ & _ & _ & H)]]]];
      rewrite H in E; discriminate.
  - exfalso.
    destruct (escape_unit_cases c) as [[_ H] | [[_ H] | [[_ H] | [[_ H] | (_ & _ & _ & _ & H)]]]];
      rewrite H in E; discriminate.
  - destruct (escape_unit_cases c) as [[-> H] | [[-> H] | [[-> H] | [[-> H] | (A & B & C & D & H)]]]];
      destruct (escape_unit_cases d) as [[-> H'] | [[-> H'] | [[-> H'] | [[-> H'] | (A' & B' & C' & D' & H')]]]];
      rewrite ?H, ?H' in E; cbn in E;
      try discriminate;
      try (injection E as E; f_equal; now apply IH);
      try (injection E as -> E; f_equal; now apply IH);
      try (injection E as E1 E; congruence).
Qed.

(** What [escapeHtml] guarantees: an output free of [<], [>] and double
    quotes, from which the text can be told (two texts never share an
    output), and which is the text itself when there was nothing to
    escape. *)
Theorem escapeHtml_escapes (s t : str) :
  Forall (fun c => c <> 60 /\ c <> 62 /\ c <> 34) (escapeHtml s)
  /\ (escapeHtml s = escapeHtml t -> s = t)
  /\ (Forall (fun c => plain c = true) s -> escapeHtml s = s).
Proof.
  split; [apply escapeHtml_safe|].
  split; [apply escapeHtml_injective | apply escapeHtml_plain].
Qed.

(* ================================================================= *)
(** ** The structure of a rendering *)

Lemma split_lines_go_app (x r : str) : forall cur,
  Forall (fun c => c <> 10) x ->
  split_lines_go cur (x ++ 10 :: r) = (rev cur ++ x) :: split_lines_go [] r.
Proof.
  induction x as [|c x IH]; intros cur H; simpl.
  - now rewrite app_nil_r.
  - inversion H; subst. destruct (N.eqb_spec c 10); [contradiction|].
    rewrite IH by assumption. simpl. now rewrite <- app_assoc.
Qed.

Lemma split_lines_go_line (x : str) : forall cur,
  Forall (fun c => c <> 10) x -> split_lines_go cur x = [rev cur ++ x].
Proof.
  induction x as [|c x IH]; intros cur H; simpl.
  - now rewrite app_nil_r.
  - inversion H; subst. destruct (N.eqb_spec c 10); [contradiction|].
    rewrite IH by assumption. simpl. now rewrite <- app_assoc.
Qed.

(** [split('\n')] undoes [join('\n')] on lines without a newline. *)
Lemma split_lines_join (hs : list str) :
  hs <> [] -> Forall (Forall (fun c => c <> 10)) hs ->
  split_lines (join [10] hs) = hs.
Proof.
  induction hs as [|h hs IH]; [contradiction|]. intros _ H.
  inversion H as [|? ? Hh Hhs]; subst.
  destruct hs as [|h' hs].
  - simpl. unfold split_lines. now rewrite split_lines_go_line.
  - rewrite (join_cons [10] h (h' :: hs)) by discriminate.
    unfold split_lines. cbn [app]. rewrite split_lines_go_app by assumption.
    cbn [rev app]. f_equal. apply IH; [discriminate | assumption].
Qed.

Lemma escapeHtml_no_newline (s : str) :
  Forall (fun c => c <> 10) s -> Forall (fun c => c <> 10) (escapeHtml s).
Proof.
  intros H. unfold escapeHtml. apply Forall_flat_map.
  eapply Forall_impl; [|exact H]. intros c Hc.
  destruct (escape_unit_cases c)
    as [[_ ->] | [[_ ->] | [[_ ->] | [[_ ->] | (_ & _ & _ & _ & ->)]]]];
    repeat constructor; try discriminate; assumption.
Qed.

Lemma toHtml_go_no_newline (ls : list str) : forall inList,
  Forall (Forall (fun c => c <> 10)) ls ->
  Forall (Forall (fun c => c <> 10)) (toHtml_go inList ls).
Proof.
  assert (U : forall b : bool,
             Forall (Forall (fun c => c <> 10)) (if b then [] else [ul_open])).
  { intros []; repeat constructor; discriminate. }
  assert (V : forall b : bool,
             Forall (Forall (fun c => c <> 10)) (if b then [js "</ul>"] else [])).
  { intros []; repeat constructor; discriminate. }
  induction ls as [|l ls IH]; intros inList H; cbn [toHtml_go]; [apply V|].
  inversion H as [|? ? Hl Hls]; subst.
  destruct (is_bullet l); [|destruct (nonempty l)].
  - apply Forall_app. split; [apply U|]. constructor; [|now apply IH].
    apply Forall_app. split; [repeat constructor; discriminate|].
    apply Forall_app. split; [|repeat constructor; discriminate].
    now apply escapeHtml_no_newline, strip_bullet_Forall.
  - constructor; [|now apply IH].
    apply Forall_app. split; [repeat constructor; discriminate|].
    apply Forall_app. split; [|repeat constructor; discriminate].
    now apply escapeHtml_no_newline.
  - apply Forall_app. split; [apply V | now apply IH].
Qed.

Lemma well_nested_item (b : bool) (x : str) (r : list str) :
  well_nested b ((js "<li>" ++ x) :: r) = b && well_nested b r.
Proof. reflexivity. Qed.

Lemma well_nested_paragraph (b : bool) (x : str) (r : list str) :
  well_nested b ((js "<p>" ++ x) :: r) = well_nested b r.
Proof. reflexivity. Qed.

Lemma toHtml_go_well_nested (ls : list str) : forall inList,
  well_nested inList (toHtml_go inList ls) = true.
Proof.
  induction ls as [|l ls IH]; intros inList; cbn [toHtml_go].
  - now destruct inList.
  - destruct (is_bullet l); [|destruct (nonempty l)].
    + destruct inList; cbn [app].
      * rewrite well_nested_item. apply IH.
      * change (well_nested false (ul_open :: ?x)) with (well_nested true x).
        rewrite well_nested_item. apply IH.
    + rewrite well_nested_paragraph. apply IH.
    + destruct inList; cbn [app].
      * change (well_nested true (js "</ul>" :: ?x)) with (well_nested false x).
        apply IH.
      * apply IH.
Qed.

(** The lines of a rendering are the lines [toHtml] pushed, and they nest:
    every list that is opened is closed before the next one opens and by
    the end, and every list item stands inside a list. *)
Theorem toHtml_well_nested (markdown : str) :
  well_nested false (split_lines (toHtml markdown)) = true.
Proof.
  unfold toHtml.
  set (ls := map trim (split_lines markdown)).
  assert (N : Forall (Forall (fun c => c <> 10)) (toHtml_go false ls)).
  { apply toHtml_go_no_newline. apply Forall_map.
    eapply Forall_impl; [|apply (split_lines_go_no_newline markdown []); constructor].
    intros l. apply trim_Forall. }
  destruct (toHtml_go false ls) as [|h hs] eqn:E; [reflexivity|].
  rewrite split_lines_join by (discriminate || assumption).
  rewrite <- E. apply toHtml_go_well_nested.
Qed.

(* ================================================================= *)
(** ** Titles *)

Lemma drop_while_head (p : char -> bool) (s : str) (c : char) (r : str) :
  drop_while p s = c :: r -> p c = false.
Proof.
  induction s as [|d s IH]; simpl; [discriminate|].
  destruct (p d) eqn:P; [exact IH|].
  intros E. injection E as -> _. exact P.
Qed.

Lemma drop_while_all (p : char -> bool) (s : str) :
  Forall (fun c => p c = true) s -> drop_while p s = [].
Proof. induction 1 as [|c s Hc _ IH]; simpl; [reflexivity|]. now rewrite Hc. Qed.

Lemma trim_head (s : str) (c : char) (r : str) :
  trim s = c :: r -> is_space c = false.
Proof.
  unfold trim. intros E.
  destruct (drop_while_split is_space (rev (drop_while is_space s))) as (pre & E1 & _).
  apply (f_equal (@rev char)) in E1.
  rewrite rev_involutive, rev_app_distr, E in E1. simpl in E1.
  exact (drop_while_head _ _ _ _ E1).
Qed.

Lemma trim_blank (s : str) : Forall (fun c => is_space c = true) s -> trim s = [].
Proof. intros H. unfold trim. now rewrite (drop_while_all _ _ H). Qed.

Lemma firstn_Forall {A : Type} (P : A -> Prop) (n : nat) (l : list A) :
  Forall P l -> Forall P (firstn n l).
Proof.
  intros H. rewrite <- (firstn_skipn n l) in H. now apply Forall_app in H as [H _].
Qed.

Lemma titleFrom_title_like (line : str) : title_like (titleFrom line).
Proof.
  unfold titleFrom, slice. change (100 - 0)%nat with 100%nat. cbn [skipn].
  destruct (trim (replace_class is_title_marker [] line)) as [|d t] eqn:T.
  - repeat split; [simpl; lia | constructor].
  - assert (M : Forall (fun c => is_title_marker c = false) (d :: t)).
    { rewrite <- T. apply trim_Forall. apply Forall_flat_map.
      apply Forall_forall. intros c _.
      destruct (is_title_marker c) eqn:M; repeat constructor. exact M. }
    split; [rewrite length_firstn; lia|]. split.
    + now apply firstn_Forall.
    + cbn [firstn]. exact (trim_head _ _ _ T).
Qed.

Lemma find_all_false {A : Type} (f : A -> bool) (l : list A) :
  Forall (fun x => f x = false) l -> find f l = None.
Proof. induction 1 as [|x l Hx _ IH]; simpl; [reflexivity|]. now rewrite Hx. Qed.

Lemma deriveTitle_blank (text : str) :
  Forall (fun c => is_space c = true) text -> deriveTitle text = default_title.
Proof.
  intros H. unfold deriveTitle. rewrite find_all_false; [vm_compute; reflexivity|].
  eapply Forall_impl; [|apply split_lines_Forall, H].
  intros l Hl. cbv beta in Hl. now rewrite (trim_blank l Hl).
Qed.

(** Every title that [titleFrom] and [deriveTitle] return has at most 100
    code units, none of the markers [#], [*] and [-], and no white space in
    front; a text of white space only (the empty text among them) gets the
    default title. *)
Theorem titles_shape (line text : str) :
  title_like (titleFrom line)
  /\ title_like (deriveTitle text)
  /\ (Forall (fun c => is_space c = true) text -> deriveTitle text = default_title).
Proof.
  split; [apply titleFrom_title_like|]. split; [|apply deriveTitle_blank].
  unfold deriveTitle. destruct (find _ _); apply titleFrom_title_like.
Qed.

(* ================================================================= *)
(** ** Hashtags *)







(* ================================================================= *)
(** ** Texts without a common word *)

(** A quotient with numerator 0 is 0, -0 or NaN: above no threshold. *)
Lemma zero_quotient_not_above (d : float) :
  (0.78 <? toFloat (Int 0) / d)%float = false
  /\ (0.32 <? toFloat (Int 0) / d)%float = false.
Proof.
  rewrite !FloatAxioms.ltb_spec, !FloatAxioms.div_spec.
  change (Prim2SF (toFloat (Int 0))) with (S754_zero false).
  destruct (Prim2SF d) as [s|s| |s m e]; split; try destruct s;
    vm_compute; reflexivity.
Qed.

Lemma sumZ_disjoint (a b terms : list str) :
  (forall t, In t a -> ~ In t b) ->
  sumZ (fun t => count t a * count t b)%Z terms = 0%Z.
Proof.
  intros D. apply sumZ_zero. intros t.
  destruct (in_dec (list_eq_dec N.eq_dec) t a) as [Ha | Ha].
  - rewrite (count_not_In t b) by auto. lia.
  - rewrite (count_not_In t a) by assumption. lia.
Qed.

Lemma cosineSim_disjoint (a b : list str) :
  Forall (Forall (fun c => alnum c = true)) a ->
  Forall (Forall (fun c => alnum c = true)) b ->
  (forall t, In t a -> ~ In t b) ->
  (0.78 <? cosineSim a b)%float = false.
Proof.
  intros Ha Hb D.
  destruct (in_dec (list_eq_dec N.eq_dec) (js "constructor") (a ++ b)) as [I | N].
  - now apply (cosineSim_method_nan a b (js "constructor") I).
  - assert (C : forall l, Forall (Forall (fun c => alnum c = true)) l ->
                          ~ In (js "constructor") l -> clean l).
    { intros l Hl Hn t Ht. rewrite Forall_forall in Hl.
      apply alnum_not_inherited; [now apply Hl | now intros ->]. }
    assert (Ca : clean a) by (apply C; [assumption|]; intros H; apply N, in_or_app; now left).
    assert (Cb : clean b) by (apply C; [assumption|]; intros H; apply N, in_or_app; now right).
    pose proof (cosine_sums_clean a b Ca Cb) as E. cbv zeta in E.
    rewrite (sumZ_disjoint a b _ D) in E.
    rewrite (cosineSim_of_sums _ _ _ _ _ E). apply zero_quotient_not_above.
Qed.

Lemma filter_none {A : Type} (p : A -> bool) (l : list A) :
  (forall x, In x l -> p x = false) -> filter p l = [].
Proof.
  induction l as [|x l IH]; simpl; intros H; [reflexivity|].
  rewrite (H x) by now left. apply IH. intros y Hy. apply H. now right.
Qed.

Lemma jaccard_disjoint (aSet bSet : list str) :
  (forall x, In x aSet -> ~ In x bSet) ->
  (0.32 <? jaccard aSet bSet)%float = false.
Proof.
  intros D. unfold jaccard.
  rewrite filter_none by (intros x Hx; apply Set_has_not_In; auto).
  change (size (Set_of [])) with 0%Z. apply zero_quotient_not_above.
Qed.

Lemma ngrams_3_first (tokens : list str) (x : str) :
  In x (ngrams tokens 3) -> exists t rest, x = t ++ 32 :: rest /\ In t tokens.
Proof.
  rewrite ngrams_3_entries. intros H. apply in_map_iff in H as (i & <- & Hi).
  apply in_seq in Hi.
  exists (nth i tokens []), (nth (i + 1) tokens [] ++ [32] ++ nth (i + 2) tokens []).
  split; [reflexivity | apply nth_In; lia].
Qed.

Lemma prefix_before_space (u : str) : forall v x y,
  Forall (fun c => c <> 32) u -> Forall (fun c => c <> 32) v ->
  u ++ 32 :: x = v ++ 32 :: y -> u = v.
Proof.
  induction u as [|c u IH]; intros [|d v] x y Hu Hv E; simpl in E.
  - reflexivity.
  - injection E as E _. inversion Hv; subst. contradiction.
  - injection E as E _. inversion Hu; subst. contradiction.
  - injection E as -> E. inversion Hu; inversion Hv; subst.
    f_equal. now apply (IH v x y).
Qed.

Lemma alnum_no_space (t : str) :
  Forall (fun c => alnum c = true) t -> Forall (fun c => c <> 32) t.
Proof. apply Forall_impl. intros c H ->. discriminate. Qed.

Lemma trigrams_disjoint (a b : list str) :
  Forall (Forall (fun c => alnum c = true)) a ->
  Forall (Forall (fun c => alnum c = true)) b ->
  (forall t, In t a -> ~ In t b) ->
  forall x, In x (Set_of (ngrams a 3)) -> ~ In x (Set_of (ngrams b 3)).
Proof.
  intros Ha Hb D x Hx Hy.
  apply -> Set_of_In in Hx. apply -> Set_of_In in Hy.
  destruct (ngrams_3_first a x Hx) as (t & r & -> & Ht).
  destruct (ngrams_3_first b _ Hy) as (u & s & E & Hu).
  rewrite Forall_forall in Ha, Hb.
  assert (t = u) by (apply (prefix_before_space t u r s);
                     [apply alnum_no_space | apply alnum_no_space |]; auto).
  subst u. exact (D t Ht Hu).
Qed.

Lemma tokenize_alnum (text : str) :
  Forall (Forall (fun c => alnum c = true)) (tokenize text).
Proof. apply Forall_forall. intros t Ht. now apply (tokenize_token text t). Qed.

Lemma ensureNovelty_disjoint (candidate : str) (refs : list str) :
  (forall r t, In r refs -> In t (tokenize (stripHtml candidate)) ->
               ~ In t (tokenize (stripHtml r))) ->
  ensureNovelty candidate refs = accepting.
Proof.
  intros D. unfold ensureNovelty. rewrite ensureNovelty_loop_existsb.
  destruct (existsb _ refs) eqn:E; [|reflexivity].
  apply existsb_exists in E as (r & Hr & T). unfold too_similar in T.
  rewrite cosineSim_disjoint, jaccard_disjoint in T;
    try apply tokenize_alnum; try (intros t; now apply D).
  - discriminate.
  - apply trigrams_disjoint; try apply tokenize_alnum. intros t. now apply D.
Qed.

(** A candidate none of whose tokens occurs in a reference is accepted:
    both scores are a quotient with numerator 0 (or NaN, for the cosine of a
    text with the word [constructor]). *)
Theorem disjoint_vocabulary_accepted (candidate : str) (refs : list str) :
  (forall r t, In r refs -> In t (tokenize (stripHtml candidate)) ->
               ~ In t (tokenize (stripHtml r))) ->
  ensureNovelty candidate refs = accepting.
Proof. apply ensureNovelty_disjoint. Qed.

Lemma disjoint_vocabulary_accepted_witness :
  ensureNovelty demo_fresh (map html demo_posts) = accepting.
Proof.
  apply disjoint_vocabulary_accepted.
  intros r t [<- | []] Ht. vm_compute in Ht. vm_compute.
  intuition (subst; discriminate).
Defined.

(* ================================================================= *)
(** ** Tokens, joined and tokenized again *)

Lemma flat_map_id {A : Type} (f : A -> list A) (l : list A) :
  Forall (fun x => f x = [x]) l -> flat_map f l = l.
Proof. induction 1 as [|x l Hx _ IH]; simpl; [reflexivity|]. now rewrite Hx, IH. Qed.

Lemma alnum_normalize (t : str) :
  Forall (fun c => alnum c = true) t -> normalize t = t.
Proof.
  intros H.
  assert (L : toLowerCase t = t).
  { apply flat_map_id. eapply Forall_impl; [|exact H]. intros c Hc.
    unfold lower_unit.
    assert (U : is_upper c = false) by (revert Hc; char_cases).
    assert (K : (c =? 0x212A) = false) by (revert Hc; char_cases).
    assert (D : (c =? 0x130) = false) by (revert Hc; char_cases).
    now rewrite U, K, D. }
  assert (M : replace_class is_md_marker [32] t = t).
  { apply flat_map_id. eapply Forall_impl; [|exact H]. intros c Hc.
    assert (M : is_md_marker c = false) by (revert Hc; char_cases).
    now rewrite M. }
  assert (W : replace_class not_word_or_space [32] t = t).
  { apply flat_map_id. eapply Forall_impl; [|exact H]. intros c Hc.
    assert (W : is_word c = true) by (revert Hc; char_cases).
    unfold not_word_or_space. now rewrite W. }
  unfold normalize. now rewrite L, M, W.
Qed.

Lemma split_go_word (t : str) : forall cur,
  Forall (fun c => is_space c = false) t -> split_go false cur t = [rev cur ++ t].
Proof.
  induction t as [|c t IH]; intros cur H; simpl.
  - now rewrite app_nil_r.
  - inversion H as [|? ? Hc Ht]; subst. rewrite Hc, IH by assumption.
    simpl. now rewrite <- app_assoc.
Qed.

Lemma alnum_not_space (c : char) : alnum c = true -> is_space c = false.
Proof.
  intros H. destruct (is_space c) eqn:S; [|reflexivity].
  apply is_space_cases in S. revert H. char_cases.
Qed.

(** A token is the one token of itself. *)
Lemma tokenize_token_fixed (t : str) :
  t <> [] -> ~ In t STOP -> Forall (fun c => alnum c = true) t ->
  tokenize t = [t].
Proof.
  intros Hne Hs Ha. rewrite tokenize_normalize, (alnum_normalize t Ha).
  unfold split_ws. rewrite split_go_word
    by (eapply Forall_impl; [|exact Ha]; apply alnum_not_space).
  cbn [rev app filter].
  assert (N : nonempty t = true) by (destruct t; [contradiction | reflexivity]).
  rewrite N. cbn [filter].
  apply Set_has_not_In in Hs. now rewrite Hs.
Qed.

Lemma tokenize_joined (l : list str) :
  Forall (fun t => t <> [] /\ ~ In t STOP /\ Forall (fun c => alnum c = true) t) l ->
  tokenize (join [32] l) = l.
Proof.
  intros H. rewrite tokenize_join by reflexivity.
  induction H as [|t l (A & B & C) _ IH]; [reflexivity|].
  cbn [map List.concat]. now rewrite (tokenize_token_fixed t A B C), IH.
Qed.

Lemma tokenize_tokens (text : str) :
  Forall (fun t => t <> [] /\ ~ In t STOP /\ Forall (fun c => alnum c = true) t)
    (tokenize text).
Proof. apply Forall_forall. intros t. apply tokenize_token. Qed.

(** Joining the tokens of a text by spaces and tokenizing again gives the
    same tokens, and every trigram of [ngrams] tokenizes to the three tokens
    it was made from: two trigrams are the same string only when they are
    the same three tokens. *)
Theorem tokens_round_trip (text : str) (i : nat) :
  let tokens := tokenize text in
  tokenize (join [32] tokens) = tokens
  /\ ((i + 2 < List.length tokens)%nat ->
      tokenize (nth i (ngrams tokens 3) [])
      = [nth i tokens []; nth (i + 1) tokens []; nth (i + 2) tokens []]).
Proof.
  intros tokens. split; [apply tokenize_joined, tokenize_tokens|].
  intros Hi. rewrite ngrams_3_entries.
  set (f := fun i => nth i tokens [] ++ [32] ++ nth (i + 1) tokens [] ++ [32]
                     ++ nth (i + 2) tokens []).
  rewrite (nth_indep _ [] (f O)) by (rewrite length_map, length_seq; lia).
  rewrite map_nth, seq_nth by lia. cbn [Nat.add]. unfold f.
  change (nth i tokens [] ++ [32] ++ nth (i + 1) tokens [] ++ [32]
          ++ nth (i + 2) tokens [])
    with (join [32] [nth i tokens []; nth (i + 1) tokens []; nth (i + 2) tokens []]).
  apply tokenize_joined.
  pose proof (tokenize_tokens text) as T. fold tokens in T.
  rewrite Forall_forall in T.
  repeat constructor; try (apply T, nth_In; lia).
Qed.

(* ================================================================= *)
(** ** The runs of [main] *)

Section Retry.
Variable chat : nat -> option str.
Variable isUnique : verdict.
Variable refs : list str.

Local Abbreviation rejected_from attempts k :=
  (forall i, (attempts <= i < k)%nat ->
     exists c, chat i = Some c /\ ok (ensureNovelty c refs) = false).

Lemma retry_accepts (k : nat) (alt : str) : forall fuel attempts,
  ok isUnique = false -> (attempts <= k < 5)%nat -> (k - attempts < fuel)%nat ->
  rejected_from attempts k ->
  chat k = Some alt -> ok (ensureNovelty alt refs) = true ->
  retry chat fuel isUnique refs attempts = Returned k alt.
Proof.
  induction fuel as [|fuel IH]; intros a U A F R C K; [lia|].
  cbn [retry]. rewrite U.
  assert (L : (a <? 5)%nat = true) by (apply Nat.ltb_lt; lia). rewrite L.
  cbn [negb andb].
  destruct (Nat.eq_dec a k) as [-> | N].
  - now rewrite C, K.
  - destruct (R a) as (c & Hc & Hr); [lia|]. rewrite Hc, Hr.
    apply IH; try assumption; try lia. intros i Hi. apply R. lia.
Qed.

Lemma retry_throws (k : nat) : forall fuel attempts,
  ok isUnique = false -> (attempts <= k < 5)%nat -> (k - attempts < fuel)%nat ->
  rejected_from attempts k ->
  chat k = None ->
  retry chat fuel isUnique refs attempts = Thrown.
Proof.
  induction fuel as [|fuel IH]; intros a U A F R C; [lia|].
  cbn [retry]. rewrite U.
  assert (L : (a <? 5)%nat = true) by (apply Nat.ltb_lt; lia). rewrite L.
  cbn [negb andb].
  destruct (Nat.eq_dec a k) as [-> | N].
  - now rewrite C.
  - destruct (R a) as (c & Hc & Hr); [lia|]. rewrite Hc, Hr.
    apply IH; try assumption; try lia. intros i Hi. apply R. lia.
Qed.

Lemma retry_Returned (fuel : nat) : forall attempts k alt,
  retry chat fuel isUnique refs attempts = Returned k alt ->
  (attempts <= k < 5)%nat /\ ok isUnique = false
  /\ chat k = Some alt /\ ok (ensureNovelty alt refs) = true
  /\ rejected_from attempts k.
Proof.
  induction fuel as [|fuel IH]; intros a k alt; cbn [retry].
  - destruct (negb (ok isUnique) && (a <? 5)%nat); discriminate.
  - destruct (ok isUnique) eqn:U; cbn [negb andb]; [discriminate|].
    destruct (Nat.ltb_spec a 5) as [L | L]; [|discriminate].
    destruct (chat a) as [c|] eqn:C; [|discriminate].
    destruct (ok (ensureNovelty c refs)) eqn:K.
    + intros E. injection E as <- <-.
      repeat split; try assumption; try lia; intros i Hi; lia.
    + intros E. destruct (IH _ _ _ E) as (A & _ & Ck & Kk & R).
      repeat split; try assumption; try lia.
      intros i Hi. destruct (Nat.eq_dec i a) as [-> | N]; [eauto|].
      apply R. lia.
Qed.

Lemma retry_Thrown (fuel : nat) : forall attempts,
  retry chat fuel isUnique refs attempts = Thrown ->
  exists k, (attempts <= k < 5)%nat /\ ok isUnique = false
            /\ chat k = None /\ rejected_from attempts k.
Proof.
  induction fuel as [|fuel IH]; intros a; cbn [retry].
  - destruct (negb (ok isUnique) && (a <? 5)%nat); discriminate.
  - destruct (ok isUnique) eqn:U; cbn [negb andb]; [discriminate|].
    destruct (Nat.ltb_spec a 5) as [L | L]; [|discriminate].
    destruct (chat a) as [c|] eqn:C.
    + destruct (ok (ensureNovelty c refs)) eqn:K; [discriminate|].
      intros E. destruct (IH _ E) as (k & A & _ & Ck & R).
      exists k. repeat split; try assumption; try lia.
      intros i Hi. destruct (Nat.eq_dec i a) as [-> | N]; [eauto|].
      apply R. lia.
    + intros _. exists a. repeat split; try assumption; try lia;
        intros i Hi; lia.
Qed.

Lemma retry_Left (fuel : nat) : forall attempts k,
  (attempts <= 5)%nat ->
  retry chat fuel isUnique refs attempts = Left k ->
  (ok isUnique = true /\ k = attempts)
  \/ (ok isUnique = false /\ k = 5%nat /\ rejected_from attempts 5).
Proof.
  induction fuel as [|fuel IH]; intros a k A; cbn [retry].
  - destruct (ok isUnique) eqn:U; cbn [negb andb].
    + intros E. injection E as <-. now left.
    + destruct (Nat.ltb_spec a 5) as [L | L]; [discriminate|].
      intros E. injection E as <-. right.
      repeat split; try lia; intros i Hi; lia.
  - destruct (ok isUnique) eqn:U; cbn [negb andb].
    + intros E. injection E as <-. now left.
    + destruct (Nat.ltb_spec a 5) as [L | L].
      * destruct (chat a) as [c|] eqn:C; [|discriminate].
        destruct (ok (ensureNovelty c refs)) eqn:K; [discriminate|].
        intros E. destruct (IH _ _ L E) as [[U' _] | (_ & -> & R)]; [congruence|].
        right. repeat split; try reflexivity.
        intros i Hi. destruct (Nat.eq_dec i a) as [-> | N]; [eauto|].
        apply R. lia.
      * intros E. injection E as <-. right.
        repeat split; try lia; intros i Hi; lia.
Qed.
End Retry.

Section Runs.
Variable sha1_hex : str -> str.
Variable todayISO : str.
Variable chat : nat -> option str.
Variable posts : list post.

Local Abbreviation refs := (map html (slice posts 0 15)).

Lemma main_accepts_at (k : nat) (body : str) :
  (k < 5)%nat -> rejected_before chat refs k ->
  chat k = Some body -> ok (ensureNovelty body refs) = true ->
  main sha1_hex todayISO chat posts
  = Written Accepted (S k) body
      (writePost sha1_hex todayISO posts body
         (match k with O => deriveTitle body | S _ => titleFrom body end)
         (deriveHashtags body)).
Proof.
  intros Hk R C K. unfold main. destruct k as [|k].
  - rewrite C. cbv zeta. cbn [retry]. rewrite K. reflexivity.
  - destruct (R O) as (g & Cg & Kg); [lia|]. rewrite Cg. cbv zeta.
    rewrite (retry_accepts chat _ refs (S k) body 4 1); try assumption; try lia.
    + reflexivity.
    + intros i Hi. apply R. lia.
Qed.

(** The run is accepted at the first answer of the model that passes the
    guard, when it is one of the first five: [main] has then called the
    model [k + 1] times and writes this answer.  Its title is the one of
    [deriveTitle] when it is the first answer, and [titleFrom] of the whole
    text when it is a rewrite. *)
Theorem main_accepts (k : nat) (body : str) :
  (k < 5)%nat -> rejected_before chat refs k ->
  chat k = Some body -> ok (ensureNovelty body refs) = true ->
  main sha1_hex todayISO chat posts
  = Written Accepted (S k) body
      (writePost sha1_hex todayISO posts body
         (match k with O => deriveTitle body | S _ => titleFrom body end)
         (deriveHashtags body)).
Proof. apply main_accepts_at. Qed.

(** When a call of the model throws after rejected answers only, within
    the five attempts, [main] fails and writes nothing. *)
Theorem main_fails_when_chat_throws (k : nat) :
  (k < 5)%nat -> chat k = None -> rejected_before chat refs k ->
  main sha1_hex todayISO chat posts = Failed.
Proof.
  intros Hk Ck R. unfold main. destruct k as [|k].
  - now rewrite Ck.
  - destruct (R O) as (g & Cg & Kg); [lia|]. rewrite Cg. cbv zeta.
    rewrite (retry_throws chat _ refs (S k) 4 1); try assumption; try lia.
    + reflexivity.
    + intros i Hi. apply R. lia.
Qed.

(** What a written post tells about the run: the model was called between
    one and five times; every answer before the written one was rejected;
    the written body is an answer that passed the guard, or, after five
    rejections, the first answer; and the feed is the one [writePost] makes
    of it. *)
Theorem main_written (how : exit) (calls : nat) (body : str) (feed : list post) :
  main sha1_hex todayISO chat posts = Written how calls body feed ->
  (1 <= calls <= 5)%nat
  /\ rejected_before chat refs
       (match how with Accepted => calls - 1 | Exhausted => 5 end)
  /\ match how with
     | Accepted => chat (calls - 1)%nat = Some body
                   /\ ok (ensureNovelty body refs) = true
     | Exhausted => calls = 5%nat /\ chat O = Some body
     end
  /\ feed = writePost sha1_hex todayISO posts body
              (match how, calls with
               | Accepted, S (S _) => titleFrom body
               | _, _ => deriveTitle body
               end)
              (deriveHashtags body).
Proof.
  unfold main. destruct (chat O) as [g|] eqn:C0; [|discriminate]. cbv zeta.
  destruct (retry chat 4 _ refs 1) as [a alt| |a|] eqn:E; try discriminate.
  - intros H. injection H as <- <- <- <-.
    destruct (retry_Returned _ _ _ _ _ _ _ E) as (A & U & Ck & Kk & R).
    replace (S a - 1)%nat with a by lia.
    split; [lia|]. split; [|split; [now split|]].
    + intros i Hi. destruct i as [|i]; [eauto|]. apply R. lia.
    + destruct a as [|a]; [lia | reflexivity].
  - destruct (retry_Left _ _ _ 4 1 a ltac:(lia) E) as [[U ->] | (U & -> & R)];
      rewrite U; intros H; injection H as <- <- <- <-.
    + split; [lia|]. split; [|split; [now split | reflexivity]].
      intros i Hi. simpl in Hi. lia.
    + split; [lia|]. split; [|split; [now split | reflexivity]].
      intros i Hi. destruct i as [|i]; [eauto|]. apply R. lia.
Qed.

(** An answer without a token (empty, white space, punctuation or stop
    words only) passes the guard whatever the feed holds: [main] publishes
    it at once. *)
Theorem main_publishes_tokenless_answer (body : str) :
  chat O = Some body -> tokenize (stripHtml body) = [] ->
  main sha1_hex todayISO chat posts
  = Written Accepted 1 body
      (writePost sha1_hex todayISO posts body (deriveTitle body)
         (deriveHashtags body)).
Proof.
  intros C T. apply (main_accepts_at O body); try assumption; try lia.
  - intros i Hi. lia.
  - rewrite ensureNovelty_disjoint; [reflexivity|].
    intros r t _ Ht. rewrite T in Ht. destruct Ht.
Qed.
End Runs.

Lemma main_accepts_witness :
  main demo_sha1 demo_today demo_chat_retry demo_posts
  = Written Accepted 2 demo_fresh
      (writePost demo_sha1 demo_today demo_posts demo_fresh
         (titleFrom demo_fresh) (deriveHashtags demo_fresh)).
Proof.
  apply (main_accepts demo_sha1 demo_today demo_chat_retry demo_posts 1 demo_fresh).
  - lia.
  - intros i Hi. assert (i = O) by lia. subst i.
    eexists. split; [reflexivity | vm_compute; reflexivity].
  - reflexivity.
  - vm_compute. reflexivity.
Defined.

Lemma main_fails_when_chat_throws_witness :
  main demo_sha1 demo_today demo_chat_error demo_posts = Failed.
Proof.
  apply (main_fails_when_chat_throws demo_sha1 demo_today demo_chat_error
           demo_posts 1).
  - lia.
  - reflexivity.
  - intros i Hi. assert (i = O) by lia. subst i.
    eexists. split; [reflexivity | vm_compute; reflexivity].
Defined.

Lemma main_written_witness :
  rejected_before demo_chat (map html (slice demo_posts 0 15)) 5.
Proof.
  refine (proj1 (proj2 (main_written demo_sha1 demo_today demo_chat demo_posts
                          Exhausted 5 _ _ _))).
  vm_compute. reflexivity.
Defined.

Lemma main_publishes_tokenless_answer_witness :
  main demo_sha1 demo_today (fun _ => Some (js "If it is to be, then be it."))
    demo_posts
  = Written Accepted 1 (js "If it is to be, then be it.")
      (writePost demo_sha1 demo_today demo_posts
         (js "If it is to be, then be it.")
         (deriveTitle (js "If it is to be, then be it."))
         (deriveHashtags (js "If it is to be, then be it."))).
Proof.
  apply (main_publishes_tokenless_answer demo_sha1 demo_today
           (fun _ => Some (js "If it is to be, then be it.")) demo_posts).
  - reflexivity.
  - vm_compute. reflexivity.
Defined.

(* ================================================================= *)
(** ** The base path of the page script *)

Lemma endsWith_slash_rev (p : str) (r : str) :
  rev p = 47 :: r -> endsWith_slash p = true.
Proof. unfold endsWith_slash. now intros ->. Qed.

Lemma computeBasePath_fixed (p : str) :
  endsWith_slash p = true \/ p = [] -> computeBasePath p = p.
Proof.
  unfold computeBasePath. intros [-> | ->]; reflexivity.
Qed.

(** [computeBasePath] cuts the pathname after its last [/]: what it drops
    has no [/]; the result ends with [/] as soon as the pathname has one
    (and is empty otherwise); and it is its own base path. *)
Theorem computeBasePath_cuts_after_last_slash (pathname : str) :
  exists segment,
    pathname = computeBasePath pathname ++ segment
    /\ Forall (fun c => c <> 47) segment
    /\ (In 47 pathname -> endsWith_slash (computeBasePath pathname) = true)
    /\ (~ In 47 pathname -> computeBasePath pathname = [])
    /\ computeBasePath (computeBasePath pathname) = computeBasePath pathname.
Proof.
  destruct (endsWith_slash pathname) eqn:E.
  - exists []. rewrite (computeBasePath_fixed pathname (or_introl E)).
    rewrite app_nil_r. repeat split; auto.
    + intros N. unfold endsWith_slash in E.
      destruct (rev pathname) as [|c r] eqn:R; [discriminate|].
      apply N.eqb_eq in E. subst c. exfalso. apply N.
      apply in_rev. rewrite R. now left.
    + apply computeBasePath_fixed. now left.
  - assert (B : computeBasePath pathname = drop_last_segment pathname)
      by (unfold computeBasePath; now rewrite E).
    rewrite B. unfold drop_last_segment.
    destruct (drop_while_split (fun c => negb (c =? 47)) (rev pathname))
      as (pre & S & F).
    set (kept := drop_while (fun c => negb (c =? 47)) (rev pathname)) in *.
    assert (P : pathname = rev kept ++ rev pre).
    { rewrite <- rev_app_distr, <- S. now rewrite rev_involutive. }
    assert (Fs : Forall (fun c => c <> 47) (rev pre)).
    { apply Forall_rev. eapply Forall_impl; [|exact F].
      intros c Hc. apply negb_true_iff in Hc. now apply N.eqb_neq. }
    assert (K : kept = [] \/ exists r, kept = 47 :: r).
    { destruct kept as [|c r] eqn:Ek; [now left|]. right. exists r.
      pose proof (drop_while_head _ _ _ _ Ek) as H.
      apply negb_false_iff, N.eqb_eq in H. now subst c. }
    exists (rev pre). split; [exact P|]. split; [exact Fs|]. split; [|split].
    + intros I. destruct K as [K | [r K]].
      * exfalso. rewrite P, K in I. simpl in I.
        rewrite Forall_forall in Fs. now apply (Fs 47).
      * apply (endsWith_slash_rev _ r). now rewrite rev_involutive.
    + intros N. destruct K as [-> | [r K]]; [reflexivity|].
      exfalso. apply N. rewrite P, K. apply in_or_app. left.
      apply in_rev. rewrite rev_involutive. now left.
    + apply computeBasePath_fixed. destruct K as [-> | [r K]]; [now right|].
      left. apply (endsWith_slash_rev _ r). now rewrite rev_involutive.
Qed.
